(** * tracked_dict: access-tracking wrappers over decoded JSON-like trees

    A shallow embedding of [tracked_dict/__init__.py].  The Python objects
    [TrackedDict] and [TrackedList] are mutable and are handed around by
    reference (a child wrapper is cached in its parent and returned to the
    caller, who then mutates it), so the embedding keeps an explicit object
    store: a finite map from references to objects.  Methods are computations
    in a small state-and-exception monad over that store; an exception leaves
    the store as it was when the exception was raised. *)

From stdpp Require Import gmap strings list sorting pretty.
From Stdlib Require Import ZArith Ascii.

Set Warnings "-register-all,-clear-no-such-hyp".

Open Scope Z_scope.

(** ** Raw trees *)

(** Scalars of a decoded document.  Floating point numbers are left out. *)
Inductive scalar :=
  | SNone
  | SBool (b : bool)
  | SInt (n : Z)
  | SStr (s : string).

(** A decoded tree.  A Python [dict] keeps its keys in insertion order, so a
    mapping is an association list; lookup takes the first binding. *)
Inductive value :=
  | VScalar (s : scalar)
  | VDict (kvs : list (string * value))
  | VList (vs : list value).

(** ** Insertion-ordered dictionaries *)

Section pydict.
Context {K V : Type} `{EqDecision K}.

(** [d.get(k)] / [d[k]]. *)
Fixpoint dict_lookup (k : K) (d : list (K * V)) : option V :=
  match d with
  | [] => None
  | (k', v) :: d' => if decide (k = k') then Some v else dict_lookup k d'
  end.

(** [k in d]. *)
Definition dict_mem (k : K) (d : list (K * V)) : bool :=
  bool_decide (is_Some (dict_lookup k d)).

(** [iter(d)], [d.keys()]. *)
Definition dict_keys (d : list (K * V)) : list K := d.*1.

(** [d.values()]. *)
Definition dict_values (d : list (K * V)) : list V := d.*2.

(** [d[k] = v]: overwrite in place, or append a new binding. *)
Fixpoint dict_set (k : K) (v : V) (d : list (K * V)) : list (K * V) :=
  match d with
  | [] => [(k, v)]
  | (k', v') :: d' =>
      if decide (k = k') then (k, v) :: d' else (k', v') :: dict_set k v d'
  end.
End pydict.

(** [seq[i]] on a Python list: indices [-len .. len-1] are valid and negative
    ones count from the end. *)
Definition list_index {A} (l : list A) (i : Z) : option A :=
  if decide (0 ≤ i) then l !! Z.to_nat i
  else if decide (- Z.of_nat (length l) ≤ i) then l !! Z.to_nat (Z.of_nat (length l) + i)
  else None.

(** ** Objects and the store *)

Definition ref := nat.

(** The slots of a [TrackedDict]. *)
Record TrackedDict := mkTrackedDict {
  d_data : list (string * value);
  d_path : string;
  d_accessed : gset string;
  d_children : list (string * ref);
}.

(** The slots of a [TrackedList]. *)
Record TrackedList := mkTrackedList {
  l_data : list value;
  l_path : string;
  l_children : list (Z * ref);
}.

Inductive object :=
  | ODict (d : TrackedDict)
  | OList (l : TrackedList).

Abbreviation heap := (gmap ref object).

(** What a method can receive or return: a raw value of the tree, or a
    reference to a tracked node. *)
Inductive pyval :=
  | PRaw (v : value)
  | PRef (r : ref).

(** ** Computations *)

(** [AttributeError] stands for a method called on a reference that does not
    hold an object of the method's class. *)
Inductive exn :=
  | KeyError (k : string)
  | IndexError
  | AttributeError.

Inductive outcome (A : Type) :=
  | Return (a : A)
  | Raise (e : exn).
Arguments Return {A} a.
Arguments Raise {A} e.

Definition M (A : Type) : Type := heap → outcome A * heap.

Definition ret {A} (a : A) : M A := λ h, (Return a, h).
Definition raise {A} (e : exn) : M A := λ h, (Raise e, h).
Definition bind {A B} (c : M A) (k : A → M B) : M B :=
  λ h, match c h with
       | (Return a, h') => k a h'
       | (Raise e, h') => (Raise e, h')
       end.

Notation "x <- c ;; k" := (bind c (λ x, k))
  (at level 100, c at next level, right associativity).
Notation "'do' c ;; k" := (bind c (λ _, k))
  (at level 100, c at next level, right associativity).

(** Run [f] on the elements of [l] from left to right. *)
Fixpoint for_each {A B} (f : A → M B) (l : list A) : M (list B) :=
  match l with
  | [] => ret []
  | x :: l' => y <- f x;; ys <- for_each f l';; ret (y :: ys)
  end.

Definition load_dict (self : ref) : M TrackedDict :=
  λ h, match h !! self with
       | Some (ODict d) => (Return d, h)
       | _ => (Raise AttributeError, h)
       end.

Definition load_list (self : ref) : M TrackedList :=
  λ h, match h !! self with
       | Some (OList l) => (Return l, h)
       | _ => (Raise AttributeError, h)
       end.

Definition store (r : ref) (o : object) : M unit :=
  λ h, (Return tt, <[r := o]> h).

(** Object creation: the new object gets a reference not in use. *)
Definition alloc (o : object) : M ref :=
  λ h, let r := fresh (dom h) in (Return r, <[r := o]> h).

(** [d[k]] on a raw mapping. *)
Definition subscript (d : list (string * value)) (k : string) : M value :=
  match dict_lookup k d with
  | Some v => ret v
  | None => raise (KeyError k)
  end.

(** [sorted(result)] on a list of [str]: ascending in the lexicographic order
    of the character codes. *)
Definition sorted (l : list string) : list string := merge_sort String.le l.

(** ** Equality of raw trees ([==] on decoded documents) *)

(** [True == 1] and [False == 0] hold in Python; other scalars of different
    types are unequal. *)
Definition scalar_eqb (a b : scalar) : bool :=
  match a, b with
  | SNone, SNone => true
  | SBool x, SBool y => bool_decide (x = y)
  | SInt x, SInt y => bool_decide (x = y)
  | SBool x, SInt y | SInt y, SBool x => bool_decide ((if x then 1 else 0) = y)
  | SStr x, SStr y => bool_decide (x = y)
  | _, _ => false
  end.

(** Lists compare element-wise; dicts compare as maps, whatever the order of
    their keys: equal sizes and every binding of the left one matched in the
    right one. *)
Fixpoint value_eqb (a b : value) {struct a} : bool :=
  match a, b with
  | VScalar x, VScalar y => scalar_eqb x y
  | VList xs, VList ys =>
      (fix go (xs : list value) (ys : list value) : bool :=
         match xs, ys with
         | [], [] => true
         | x :: xs', y :: ys' => value_eqb x y && go xs' ys'
         | _, _ => false
         end) xs ys
  | VDict xs, VDict ys =>
      bool_decide (length xs = length ys) &&
      (fix go (xs : list (string * value)) : bool :=
         match xs with
         | [] => true
         | (k, x) :: xs' =>
             match dict_lookup k ys with
             | Some y => value_eqb x y
             | None => false
             end && go xs'
         end) xs
  | _, _ => false
  end.

(** The result of [__eq__]. *)
Inductive eq_result :=
  | EqBool (b : bool)
  | NotImplemented.

(** ** [class TrackedDict] *)

Module TD.

(** [TrackedDict(data, _path)]. *)
Definition __init__ (data : list (string * value)) (_path : string) : M ref :=
  alloc (ODict (mkTrackedDict data _path ∅ [])).

(** [self._accessed.update(keys)]. *)
Definition accessed_update (self : ref) (keys : list string) : M unit :=
  d <- load_dict self;;
  store self (ODict (mkTrackedDict (d_data d) (d_path d)
                       (d_accessed d ∪ list_to_set keys) (d_children d))).

(** [self._children[key] = child]. *)
Definition children_set (self : ref) (key : string) (child : ref) : M unit :=
  d <- load_dict self;;
  store self (ODict (mkTrackedDict (d_data d) (d_path d) (d_accessed d)
                       (dict_set key child (d_children d)))).

Definition _child_path (d : TrackedDict) (key : string) : string :=
  if decide (d_path d = "") then key else d_path d +:+ "." +:+ key.

Definition _wrap (self : ref) (key : string) (v : value) : M pyval :=
  match v with
  | VDict kvs =>
      d <- load_dict self;;
      match dict_lookup key (d_children d) with
      | Some c => ret (PRef c)
      | None =>
          c <- alloc (ODict (mkTrackedDict kvs (_child_path d key) ∅ []));;
          do children_set self key c;;
          ret (PRef c)
      end
  | VList vs =>
      d <- load_dict self;;
      match dict_lookup key (d_children d) with
      | Some c => ret (PRef c)
      | None =>
          c <- alloc (OList (mkTrackedList vs (_child_path d key) []));;
          do children_set self key c;;
          ret (PRef c)
      end
  | VScalar _ => ret (PRaw v)
  end.

Definition __getitem__ (self : ref) (key : string) : M pyval :=
  do accessed_update self [key];;
  d <- load_dict self;;
  v <- subscript (d_data d) key;;
  _wrap self key v.

Definition get (self : ref) (key : string) (default : pyval) : M pyval :=
  do accessed_update self [key];;
  d <- load_dict self;;
  if dict_mem key (d_data d) then
    v <- subscript (d_data d) key;;
    _wrap self key v
  else ret default.

Definition __contains__ (self : ref) (key : string) : M bool :=
  d <- load_dict self;; ret (dict_mem key (d_data d)).

Definition __len__ (self : ref) : M nat :=
  d <- load_dict self;; ret (length (d_data d)).

Definition __bool__ (self : ref) : M bool :=
  d <- load_dict self;; ret (negb (bool_decide (d_data d = []))).

(** [list(iter(self))]: the keys, in the order of the raw mapping. *)
Definition __iter__ (self : ref) : M (list string) :=
  d <- load_dict self;; ret (dict_keys (d_data d)).

Definition keys (self : ref) : M (list string) :=
  d <- load_dict self;; ret (dict_keys (d_data d)).

(** [list(self.values())]: the generator run to its end. *)
Definition values (self : ref) : M (list pyval) :=
  d <- load_dict self;;
  do accessed_update self (dict_keys (d_data d));;
  for_each (λ key, v <- subscript (d_data d) key;; _wrap self key v)
           (dict_keys (d_data d)).

(** [list(self.items())]: the generator run to its end. *)
Definition items (self : ref) : M (list (string * pyval)) :=
  d <- load_dict self;;
  do accessed_update self (dict_keys (d_data d));;
  for_each (λ key, v <- subscript (d_data d) key;;
                   w <- _wrap self key v;; ret (key, w))
           (dict_keys (d_data d)).

Definition raw (self : ref) : M (list (string * value)) :=
  d <- load_dict self;; ret (d_data d).

Definition mark_accessed (self : ref) (keys : list string) : M unit :=
  accessed_update self keys.

Definition mark_all_accessed (self : ref) : M unit :=
  d <- load_dict self;; accessed_update self (dict_keys (d_data d)).

Definition accessed_keys (self : ref) : M (gset string) :=
  d <- load_dict self;; ret (d_accessed d).

Definition __eq__ (self : ref) (other : pyval) : M eq_result :=
  d <- load_dict self;;
  λ h, match other with
       | PRef o =>
           match h !! o with
           | Some (ODict d') =>
               (Return (EqBool (value_eqb (VDict (d_data d)) (VDict (d_data d')))), h)
           | _ => (Return NotImplemented, h)
           end
       | PRaw (VDict kvs) =>
           (Return (EqBool (value_eqb (VDict (d_data d)) (VDict kvs))), h)
       | PRaw _ => (Return NotImplemented, h)
       end.

End TD.

(** ** [class TrackedList] *)

Module TL.

(** [TrackedList(data, _path)]. *)
Definition __init__ (data : list value) (_path : string) : M ref :=
  alloc (OList (mkTrackedList data _path [])).

(** [self._children[index] = child]. *)
Definition children_set (self : ref) (index : Z) (child : ref) : M unit :=
  l <- load_list self;;
  store self (OList (mkTrackedList (l_data l) (l_path l)
                       (dict_set index child (l_children l)))).

(** [f"{self._path}[{index}]"]. *)
Definition _child_path (l : TrackedList) (index : Z) : string :=
  l_path l +:+ "[" +:+ pretty index +:+ "]".

(** [self._data[index]]. *)
Definition subscript (data : list value) (index : Z) : M value :=
  match list_index data index with
  | Some v => ret v
  | None => raise IndexError
  end.

Definition _wrap (self : ref) (index : Z) (v : value) : M pyval :=
  match v with
  | VDict kvs =>
      l <- load_list self;;
      match dict_lookup index (l_children l) with
      | Some c => ret (PRef c)
      | None =>
          c <- alloc (ODict (mkTrackedDict kvs (_child_path l index) ∅ []));;
          do children_set self index c;;
          ret (PRef c)
      end
  | VList vs =>
      l <- load_list self;;
      match dict_lookup index (l_children l) with
      | Some c => ret (PRef c)
      | None =>
          c <- alloc (OList (mkTrackedList vs (_child_path l index) []));;
          do children_set self index c;;
          ret (PRef c)
      end
  | VScalar _ => ret (PRaw v)
  end.

Definition __getitem__ (self : ref) (index : Z) : M pyval :=
  l <- load_list self;;
  v <- subscript (l_data l) index;;
  _wrap self index v.

Definition __len__ (self : ref) : M nat :=
  l <- load_list self;; ret (length (l_data l)).

Definition __bool__ (self : ref) : M bool :=
  l <- load_list self;; ret (negb (bool_decide (l_data l = []))).

(** [list(iter(self))]: the generator run to its end. *)
Definition __iter__ (self : ref) : M (list pyval) :=
  l <- load_list self;;
  for_each (λ i, v <- subscript (l_data l) i;; _wrap self i v)
           (Z.of_nat <$> seq 0 (length (l_data l))).

Definition raw (self : ref) : M (list value) :=
  l <- load_list self;; ret (l_data l).

Definition __eq__ (self : ref) (other : pyval) : M eq_result :=
  l <- load_list self;;
  λ h, match other with
       | PRef o =>
           match h !! o with
           | Some (OList l') =>
               (Return (EqBool (value_eqb (VList (l_data l)) (VList (l_data l')))), h)
           | _ => (Return NotImplemented, h)
           end
       | PRaw (VList vs) =>
           (Return (EqBool (value_eqb (VList (l_data l)) (VList vs))), h)
       | PRaw _ => (Return NotImplemented, h)
       end.

End TL.

(** ** [unaccessed] *)

(** [TrackedDict.unaccessed] and [TrackedList.unaccessed] call each other
    through the children caches, so they are one function that dispatches on
    the class of [self].  The recursion follows references in the store; the
    fuel bounds its depth, and [None] means the fuel ran out (or a reference
    led nowhere).  The store is only read. *)
Fixpoint unaccessed (fuel : nat) (h : heap) (self : ref) : option (list string) :=
  match fuel with
  | O => None
  | S fuel' =>
      match h !! self with
      | Some (ODict d) =>
          parts ← mapM (λ key,
                     if decide (key ∉ d_accessed d) then Some [TD._child_path d key]
                     else match dict_lookup key (d_children d) with
                          | Some c => unaccessed fuel' h c
                          | None => Some []
                          end)
                   (dict_keys (d_data d));
          Some (sorted (concat parts))
      | Some (OList l) =>
          parts ← mapM (unaccessed fuel' h) (dict_values (l_children l));
          Some (sorted (concat parts))
      | None => None
      end
  end.

(** ** Programs over the store *)

(** The calls a client can make on a [TrackedDict]. *)
Inductive td_call :=
  | DGetItem (key : string)
  | DGet (key : string) (default : pyval)
  | DContains (key : string)
  | DLen
  | DBool
  | DIter
  | DKeys
  | DValues
  | DItems
  | DRaw
  | DMarkAccessed (keys : list string)
  | DMarkAllAccessed
  | DAccessedKeys
  | DEq (other : pyval).

(** The calls a client can make on a [TrackedList]. *)
Inductive tl_call :=
  | LGetItem (index : Z)
  | LLen
  | LBool
  | LIter
  | LRaw
  | LEq (other : pyval).

Inductive call :=
  | NewDict (data : list (string * value)) (path : string)
  | NewList (data : list value) (path : string)
  | OnDict (self : ref) (c : td_call)
  | OnList (self : ref) (c : tl_call).

(** The store a computation leaves behind, whether it returned or raised. *)
Definition final {A} (c : M A) (h : heap) : heap := (c h).2.

Definition exec_td (self : ref) (c : td_call) : heap → heap :=
  match c with
  | DGetItem key => final (TD.__getitem__ self key)
  | DGet key default => final (TD.get self key default)
  | DContains key => final (TD.__contains__ self key)
  | DLen => final (TD.__len__ self)
  | DBool => final (TD.__bool__ self)
  | DIter => final (TD.__iter__ self)
  | DKeys => final (TD.keys self)
  | DValues => final (TD.values self)
  | DItems => final (TD.items self)
  | DRaw => final (TD.raw self)
  | DMarkAccessed keys => final (TD.mark_accessed self keys)
  | DMarkAllAccessed => final (TD.mark_all_accessed self)
  | DAccessedKeys => final (TD.accessed_keys self)
  | DEq other => final (TD.__eq__ self other)
  end.

Definition exec_tl (self : ref) (c : tl_call) : heap → heap :=
  match c with
  | LGetItem index => final (TL.__getitem__ self index)
  | LLen => final (TL.__len__ self)
  | LBool => final (TL.__bool__ self)
  | LIter => final (TL.__iter__ self)
  | LRaw => final (TL.raw self)
  | LEq other => final (TL.__eq__ self other)
  end.

Definition exec (c : call) : heap → heap :=
  match c with
  | NewDict data path => final (TD.__init__ data path)
  | NewList data path => final (TL.__init__ data path)
  | OnDict self c => exec_td self c
  | OnList self c => exec_tl self c
  end.

(** Running a client program: a list of calls, first to last. *)
Definition exec_all (cs : list call) (h : heap) : heap :=
  foldl (λ h c, exec c h) h cs.

(** The stores a client can bring about, starting with no object at all. *)
Inductive reachable : heap → Prop :=
  | reachable_empty : reachable ∅
  | reachable_exec h c : reachable h → reachable (exec c h).

(** ** Invariants of the store *)

(** [o] is the wrapper the wrapping rule makes for [v] under path [p]. *)
Definition node_of (v : value) (p : string) (o : object) : Prop :=
  match v, o with
  | VDict kvs, ODict d => d_data d = kvs ∧ d_path d = p
  | VList vs, OList l => l_data l = vs ∧ l_path l = p
  | _, _ => False
  end.

(** Every cached child is in the store and wraps the raw value found under
    its key (index), with the composed path. *)
Definition wf_object (h : heap) (o : object) : Prop :=
  match o with
  | ODict d =>
      ∀ k c, (k, c) ∈ d_children d →
        ∃ v o', dict_lookup k (d_data d) = Some v ∧ h !! c = Some o' ∧
                node_of v (TD._child_path d k) o'
  | OList l =>
      ∀ i c, (i, c) ∈ l_children l →
        ∃ v o', list_index (l_data l) i = Some v ∧ h !! c = Some o' ∧
                node_of v (TL._child_path l i) o'
  end.

Definition wf_heap (h : heap) : Prop :=
  ∀ r o, h !! r = Some o → wf_object h o.

(** The keys of the child cache are among the accessed keys. *)
Definition cache_in_accessed (h : heap) : Prop :=
  ∀ r d, h !! r = Some (ODict d) →
    ∀ k, k ∈ dict_keys (d_children d) → k ∈ d_accessed d.

(** An object only grows: same raw data and path, more accessed keys, more
    cached children after the ones already there. *)
Definition object_le (o o' : object) : Prop :=
  match o, o' with
  | ODict d, ODict d' =>
      d_data d' = d_data d ∧ d_path d' = d_path d ∧
      d_accessed d ⊆ d_accessed d' ∧ d_children d `prefix_of` d_children d'
  | OList l, OList l' =>
      l_data l' = l_data l ∧ l_path l' = l_path l ∧
      l_children l `prefix_of` l_children l'
  | _, _ => False
  end.

Definition heap_le (h h' : heap) : Prop :=
  ∀ r o, h !! r = Some o → ∃ o', h' !! r = Some o' ∧ object_le o o'.

(** Nesting depth of a raw tree: a bound on the recursion of [unaccessed]. *)
Fixpoint depth (v : value) : nat :=
  match v with
  | VScalar _ => 0
  | VDict kvs =>
      S ((fix go (kvs : list (string * value)) : nat :=
            match kvs with
            | [] => 0
            | (_, x) :: kvs' => depth x `max` go kvs'
            end) kvs)
  | VList vs =>
      S ((fix go (vs : list value) : nat :=
            match vs with
            | [] => 0
            | x :: vs' => depth x `max` go vs'
            end) vs)
  end%nat.

(** [res] is what the wrapping rule returns for the raw value [v]: the scalar
    itself, or a reference to a tracked node over [v]. *)
Definition wrapped (h : heap) (v : value) (res : pyval) : Prop :=
  match v with
  | VScalar _ => res = PRaw v
  | VDict kvs => ∃ c d, res = PRef c ∧ h !! c = Some (ODict d) ∧ d_data d = kvs
  | VList vs => ∃ c l, res = PRef c ∧ h !! c = Some (OList l) ∧ l_data l = vs
  end.

(** [self._accessed.update(keys)] on the slots. *)
Definition mark (d : TrackedDict) (keys : list string) : TrackedDict :=
  mkTrackedDict (d_data d) (d_path d) (d_accessed d ∪ list_to_set keys) (d_children d).

(** What [_wrap] creates for a raw value: nothing for a scalar. *)
Definition fresh_child (v : value) (p : string) : option object :=
  match v with
  | VScalar _ => None
  | VDict kvs => Some (ODict (mkTrackedDict kvs p ∅ []))
  | VList vs => Some (OList (mkTrackedList vs p []))
  end.

(** [self._children[key] = c] on the slots. *)
Definition adopt (d : TrackedDict) (key : string) (c : ref) : TrackedDict :=
  mkTrackedDict (d_data d) (d_path d) (d_accessed d) (dict_set key c (d_children d)).

Definition adopt_at (l : TrackedList) (index : Z) (c : ref) : TrackedList :=
  mkTrackedList (l_data l) (l_path l) (dict_set index c (l_children l)).

Definition step_ok (h h' : heap) : Prop :=
  heap_le h h' ∧ (wf_heap h → wf_heap h') ∧
  (cache_in_accessed h → cache_in_accessed h').

(** What the loops of [values] and [items] rely on: [self] is still a
    [TrackedDict] over the same raw mapping, with all its keys accessed. *)
Definition all_marked (self : ref) (data : list (string * value)) (h : heap) : Prop :=
  ∃ d, h !! self = Some (ODict d) ∧ d_data d = data ∧
       ∀ k, k ∈ dict_keys data → k ∈ d_accessed d.

(** The raw tree an object wraps. *)
Definition raw_of (o : object) : value :=
  match o with
  | ODict d => VDict (d_data d)
  | OList l => VList (l_data l)
  end.

(** What one key of a [TrackedDict] adds to the report. *)
Definition contribution (fuel : nat) (h : heap) (d : TrackedDict) (key : string)
    : option (list string) :=
  if decide (key ∉ d_accessed d) then Some [TD._child_path d key]
  else match dict_lookup key (d_children d) with
       | Some c => unaccessed fuel h c
       | None => Some []
       end.

(** The path slot of an object. *)
Definition path_of (o : object) : string :=
  match o with
  | ODict d => d_path d
  | OList l => l_path l
  end.

(** A computation returns (rather than raises) from the store [h]. *)
Definition returns {A} (c : M A) (h : heap) : Prop :=
  ∃ a h', c h = (Return a, h').

(** A computation raises [e] from the store [h]. *)
Definition raises {A} (c : M A) (e : exn) (h : heap) : Prop :=
  ∃ h', c h = (Raise e, h').

(** [self.unaccessed()] returns [res]. *)
Definition reports (h : heap) (self : ref) (res : list string) : Prop :=
  ∃ fuel, unaccessed fuel h self = Some res.

(** [self] is a [TrackedDict] over [data] whose accessed set is [acc], in a
    well-formed store. *)
Definition dict_state (self : ref) (data : list (string * value))
    (acc : gset string) (h : heap) : Prop :=
  wf_heap h ∧ ∃ d, h !! self = Some (ODict d) ∧ d_data d = data ∧ d_accessed d = acc.

(** [res] is the wrapped value of [key] in the raw mapping [data]. *)
Definition wrapped_key (data : list (string * value)) (h : heap)
    (key : string) (res : pyval) : Prop :=
  ∃ v, dict_lookup key data = Some v ∧ wrapped h v res.

(** [res] is the wrapped element at [index] of the raw sequence [data]. *)
Definition wrapped_index (data : list value) (h : heap)
    (index : Z) (res : pyval) : Prop :=
  ∃ v, list_index data index = Some v ∧ wrapped h v res.

(** The computations that hand out a child: the wrapping rule itself and the
    lookups that go through it. *)
Inductive descent : M pyval → Prop :=
  | descent_td_wrap self key v : descent (TD._wrap self key v)
  | descent_td_getitem self key : descent (TD.__getitem__ self key)
  | descent_td_get self key default : descent (TD.get self key default)
  | descent_tl_wrap self index v : descent (TL._wrap self index v)
  | descent_tl_getitem self index : descent (TL.__getitem__ self index).

(** [self == other] on a tracked node: the [__eq__] of the class of [self]. *)
Definition tracked_eq (self : ref) (other : pyval) : M eq_result :=
  λ h, match h !! self with
       | Some (ODict _) => TD.__eq__ self other h
       | Some (OList _) => TL.__eq__ self other h
       | None => (Raise AttributeError, h)
       end.

(** A plain mapping for a [TrackedDict], a plain sequence for a [TrackedList]. *)
Definition same_variant (o : object) (v : value) : Prop :=
  match o, v with
  | ODict _, VDict _ | OList _, VList _ => True
  | _, _ => False
  end.

(** The lexicographic order on strings, by character code: the order of
    [sorted] on [str]. *)
Inductive lex_le : string → string → Prop :=
  | lex_le_empty s : lex_le "" s
  | lex_le_lt a b s t :
      (Ascii.N_of_ascii a < Ascii.N_of_ascii b)%N → lex_le (String a s) (String b t)
  | lex_le_eq a s t : lex_le s t → lex_le (String a s) (String a t).

(** What the reporting algorithm collects for one key of the raw mapping of
    the [TrackedDict] [d]: the key's own path when the key is not accessed
    (without descending); the report of the cached child when the key is
    accessed and a child is cached; nothing when the key is accessed and no
    child is cached. *)
Inductive emits (h : heap) (d : TrackedDict) (key : string) : list string → Prop :=
  | emits_unaccessed :
      key ∉ d_accessed d → emits h d key [TD._child_path d key]
  | emits_child c res :
      key ∈ d_accessed d → dict_lookup key (d_children d) = Some c →
      reports h c res → emits h d key res
  | emits_nothing :
      key ∈ d_accessed d → dict_lookup key (d_children d) = None →
      emits h d key [].

(** Going on with a result that must be a tracked node. *)
Definition as_ref (v : pyval) : M ref :=
  match v with
  | PRef r => ret r
  | PRaw _ => raise AttributeError
  end.

(** [{"a": {"b": [{"c": 1, "d": 2}]}}] *)
Definition nested_tree : list (string * value) :=
  [("a", VDict [("b", VList [VDict [("c", VScalar (SInt 1));
                                    ("d", VScalar (SInt 2))]])])].

(** [root = TrackedDict(nested_tree); root["a"]["b"][0]["c"]] *)
Definition nested_reads : M ref :=
  root <- TD.__init__ nested_tree "";;
  a <- TD.__getitem__ root "a";;
  a <- as_ref a;;
  b <- TD.__getitem__ a "b";;
  b <- as_ref b;;
  e <- TL.__getitem__ b 0;;
  e <- as_ref e;;
  do TD.__getitem__ e "c";;
  ret root.

(** [p] is the path [q] or lies below it: [q] followed by a dot or by an
    opening bracket, and more. *)
Definition in_subtree (q p : string) : Prop :=
  p = q ∨ (∃ r, p = q +:+ "." +:+ r) ∨ (∃ r, p = q +:+ "[" +:+ r).

(** [{"section": {"a": 1, "b": 2}}] *)
Definition section_tree : list (string * value) :=
  [("section", VDict [("a", VScalar (SInt 1)); ("b", VScalar (SInt 2))])].

(** [root = TrackedDict(section_tree); root["section"]]: the child of
    ["section"] is wrapped and nothing of it is read. *)
Definition section_wrapped : heap :=
  exec_all [NewDict section_tree ""; OnDict 0%nat (DGetItem "section")] ∅.

(** The reading of [mark_accessed] that has it silence the whole subtree of
    the key: on a store a client can reach, after [M.mark_accessed(key)] no
    path at or below the path of [key] is in [M.unaccessed()]. *)
Definition mark_silences_subtree : Prop :=
  ∀ (h h' : heap) self d key res p,
    reachable h → h !! self = Some (ODict d) →
    TD.mark_accessed self [key] h = (Return tt, h') →
    reports h' self res →
    in_subtree (TD._child_path d key) p → p ∉ res.

(** [{"a": 1}] *)
Definition small_tree : list (string * value) := [("a", VScalar (SInt 1))].

(** The store after [TrackedDict({"a": 1})]: the root is object [0]. *)
Definition small_store : heap := exec (NewDict small_tree "") ∅.

Definition small_root : TrackedDict := mkTrackedDict small_tree "" ∅ [].

(** The root of [section_wrapped]: ["section"] read, its child cached as
    object [1]. *)
Definition section_root : TrackedDict :=
  mkTrackedDict section_tree "" {["section"]} [("section", 1%nat)].

(** The store after [TrackedList([{"a": 1}])]: the root is object [0]. *)
Definition small_list_store : heap := exec (NewList [VDict small_tree] "") ∅.

Definition small_list_root : TrackedList := mkTrackedList [VDict small_tree] "" [].



(** [p] lies strictly below the path [q]. *)
Definition below (q p : string) : Prop :=
  (∃ r, p = q +:+ "." +:+ r) ∨ (∃ r, p = q +:+ "[" +:+ r).


(** The store after [TrackedDict(section_tree)], nothing read: the root is
    object [0] and has no cached child. *)
Definition section_store : heap := exec (NewDict section_tree "") ∅.

Definition section_fresh_root : TrackedDict := mkTrackedDict section_tree "" ∅ [].

(** ** Scenarios of the repository's test suite *)

(** Run a client program on the empty store and take the report of the node
    it returns. *)
Definition report_after (prog : M ref) (fuel : nat) : option (list string) :=
  match prog ∅ with
  | (Return root, h) => unaccessed fuel h root
  | (Raise _, _) => None
  end.

Definition int (n : Z) : value := VScalar (SInt n).

(** [d = TrackedDict({"a": 1, "b": 2, "c": 3}); d["b"]] *)
Definition test_unaccessed_partial : M ref :=
  d <- TD.__init__ [("a", int 1); ("b", int 2); ("c", int 3)] "";;
  do TD.__getitem__ d "b";;
  ret d.

(** [d = TrackedDict({"a": 1}); d.get("z")] *)
Definition test_get_missing_marks_accessed : M ref :=
  d <- TD.__init__ [("a", int 1)] "";;
  do TD.get d "z" (PRaw (VScalar SNone));;
  ret d.

(** [d = TrackedDict({"l1": {"l2": {"a": 1, "b": 2}, "c": 3}}); d["l1"]["l2"]["a"]] *)
Definition test_deeply_nested_partial : M ref :=
  d <- TD.__init__
         [("l1", VDict [("l2", VDict [("a", int 1); ("b", int 2)]); ("c", int 3)])] "";;
  l1 <- TD.__getitem__ d "l1";;
  l1 <- as_ref l1;;
  l2 <- TD.__getitem__ l1 "l2";;
  l2 <- as_ref l2;;
  do TD.__getitem__ l2 "a";;
  ret d.

(** [d = TrackedDict({"items": [{"x": 1, "y": 2}, {"x": 3, "y": 4}]});
     items = d["items"]; items[0]["x"]; items[1]["x"]] *)
Definition test_nested_list_of_dicts : M ref :=
  d <- TD.__init__
         [("items", VList [VDict [("x", int 1); ("y", int 2)];
                           VDict [("x", int 3); ("y", int 4)]])] "";;
  items <- TD.__getitem__ d "items";;
  items <- as_ref items;;
  i0 <- TL.__getitem__ items 0;;
  i0 <- as_ref i0;;
  do TD.__getitem__ i0 "x";;
  i1 <- TL.__getitem__ items 1;;
  i1 <- as_ref i1;;
  do TD.__getitem__ i1 "x";;
  ret d.

(** [lst = TrackedList([{"a": 1, "b": 2}]); item = lst[0]; item["a"]] *)
Definition test_nested_dict_in_list : M ref :=
  lst <- TL.__init__ [VDict [("a", int 1); ("b", int 2)]] "";;
  item <- TL.__getitem__ lst 0;;
  item <- as_ref item;;
  do TD.__getitem__ item "a";;
  ret lst.

(** [for plugin in d["plugins"]: plugin["name"]; plugin["enabled"]] over two
    plugins with keys [name], [enabled], [config]. *)
Definition test_list_of_items_pattern : M ref :=
  d <- TD.__init__
         [("plugins",
           VList [VDict [("name", VScalar (SStr "auth")); ("enabled", VScalar (SBool true));
                         ("config", VDict [])];
                  VDict [("name", VScalar (SStr "cache")); ("enabled", VScalar (SBool false));
                         ("config", VDict [])]])] "";;
  plugins <- TD.__getitem__ d "plugins";;
  plugins <- as_ref plugins;;
  ps <- TL.__iter__ plugins;;
  do for_each (λ plugin, plugin <- as_ref plugin;;
                         do TD.__getitem__ plugin "name";;
                         TD.__getitem__ plugin "enabled") ps;;
  ret d.

(** [d = TrackedDict({"sub": {"a": 1}}); c1 = d["sub"]; c2 = d["sub"]] *)
Definition test_nested_wrapping_is_stable : M (pyval * pyval) :=
  d <- TD.__init__ [("sub", VDict [("a", int 1)])] "";;
  c1 <- TD.__getitem__ d "sub";;
  c2 <- TD.__getitem__ d "sub";;
  ret (c1, c2).

(** ** Notions for the further properties *)

(** [_child_path] as a function of the parent's path. *)
Definition dot_path (p key : string) : string :=
  if decide (p = "") then key else p +:+ "." +:+ key.

(** A raw value that the wrapping rule wraps: a mapping or a sequence. *)
Definition is_container (v : value) : Prop :=
  match v with
  | VScalar _ => False
  | VDict _ | VList _ => True
  end.

(** What a key whose own path is not reported adds to a report in the store
    [h]: the report of its cached child, or nothing. *)
Definition below_key (h : heap) (children : list (string * ref))
    (key : string) (part : list string) : Prop :=
  match dict_lookup key children with
  | Some c => reports h c part
  | None => part = []
  end.

(** [res] is what the sequence node [self] over [data] has settled on for
    [index]: the scalar element itself, or the child cached under [index]. *)
Definition settled_at (self : ref) (data : list value) (h : heap)
    (index : Z) (res : pyval) : Prop :=
  ∃ v l, list_index data index = Some v ∧
         h !! self = Some (OList l) ∧ l_data l = data ∧
         match fresh_child v "" with
         | None => res = PRaw v
         | Some _ => ∃ c, res = PRef c ∧ dict_lookup index (l_children l) = Some c
         end.

(** [res] is what the map node [self] over [data] has settled on for [key],
    an accessed key: the scalar value itself, or the child cached under
    [key]. *)
Definition settled_key (self : ref) (data : list (string * value)) (h : heap)
    (key : string) (res : pyval) : Prop :=
  ∃ v d, dict_lookup key data = Some v ∧
         h !! self = Some (ODict d) ∧ d_data d = data ∧ key ∈ d_accessed d ∧
         match fresh_child v "" with
         | None => res = PRaw v
         | Some _ => ∃ c, res = PRef c ∧ dict_lookup key (d_children d) = Some c
         end.

(** From [h] to [h'] every object other than [self] is left as it is. *)
Definition elsewhere (self : ref) (h h' : heap) : Prop :=
  ∀ r o, r ≠ self → h !! r = Some o → h' !! r = Some o.

(** A good step that is local to [self]. *)
Definition local_step (self : ref) (h h' : heap) : Prop :=
  step_ok h h' ∧ elsewhere self h h'.

(** The elementary changes of the store out of which every call is made:
    marking keys of a map node, creating a root node, and creating a child
    with its entry in the cache of a map node or of a sequence node. *)
Inductive prim_step : heap → heap → Prop :=
  | prim_mark (h : heap) self d keys :
      h !! self = Some (ODict d) →
      prim_step h (<[self := ODict (mark d keys)]> h)
  | prim_new_dict (h : heap) data path :
      prim_step h (<[fresh (dom h) := ODict (mkTrackedDict data path ∅ [])]> h)
  | prim_new_list (h : heap) data path :
      prim_step h (<[fresh (dom h) := OList (mkTrackedList data path [])]> h)
  | prim_adopt (h : heap) self d key v p o :
      h !! self = Some (ODict d) → dict_lookup key (d_children d) = None →
      fresh_child v p = Some o →
      prim_step h (<[self := ODict (adopt d key (fresh (dom h)))]>
                     (<[fresh (dom h) := o]> h))
  | prim_adopt_at (h : heap) self l index v p o :
      h !! self = Some (OList l) → dict_lookup index (l_children l) = None →
      fresh_child v p = Some o →
      prim_step h (<[self := OList (adopt_at l index (fresh (dom h)))]>
                     (<[fresh (dom h) := o]> h)).

(** The references in the cache of an object. *)
Definition child_refs (o : object) : list ref :=
  match o with
  | ODict d => (d_children d).*2
  | OList l => (l_children l).*2
  end.

(** No key (index) has two entries in the cache of the object. *)
Definition keys_once (o : object) : Prop :=
  match o with
  | ODict d => NoDup (d_children d).*1
  | OList l => NoDup (l_children l).*1
  end.

(** The tracked nodes form a forest: in every cache each key and each child
    occurs once, every cached child is an object of the store other than its
    parent, and no node is the cached child of two nodes. *)
Definition forest (h : heap) : Prop :=
  (∀ r o, h !! r = Some o →
     keys_once o ∧ NoDup (child_refs o) ∧
     ∀ c, c ∈ child_refs o → is_Some (h !! c) ∧ c ≠ r) ∧
  (∀ r1 r2 o1 o2 c,
     h !! r1 = Some o1 → h !! r2 = Some o2 →
     c ∈ child_refs o1 → c ∈ child_refs o2 → r1 = r2).

(** [n] is [r] or a node below [r] through the caches. *)
Inductive below_node (h : heap) : ref → ref → Prop :=
  | below_node_refl r : below_node h r r
  | below_node_step r o c n :
      h !! r = Some o → c ∈ child_refs o → below_node h c n → below_node h r n.

(** * Facts *)

(** ** Insertion-ordered dictionaries *)

Section pydict_facts.
Context {K V : Type} `{EqDecision K}.
Implicit Types (k : K) (v : V) (d : list (K * V)).

Lemma dict_lookup_elem k v d : dict_lookup k d = Some v → (k, v) ∈ d.
Proof.
  induction d as [|[k' v'] d IH]; simpl; [done|].
  case_decide as Hk; intros Hl.
  - injection Hl as ->. subst. left.
  - right. auto.
Qed.

Lemma dict_lookup_keys k d : k ∈ dict_keys d ↔ is_Some (dict_lookup k d).
Proof.
  unfold dict_keys. induction d as [|[k' v'] d IH]; simpl.
  - split; [by intros ?%elem_of_nil | by intros [? ?]].
  - case_decide as Hk.
    + subst. split; [eauto | intros _; left].
    + rewrite elem_of_cons, IH. split; [intros [?|?]; done | by right].
Qed.

Lemma dict_lookup_None_keys k d : dict_lookup k d = None ↔ k ∉ dict_keys d.
Proof. rewrite dict_lookup_keys, eq_None_not_Some. done. Qed.

Lemma dict_mem_true k d : dict_mem k d = true ↔ is_Some (dict_lookup k d).
Proof. unfold dict_mem. apply bool_decide_eq_true. Qed.

Lemma dict_mem_false k d : dict_mem k d = false ↔ dict_lookup k d = None.
Proof.
  unfold dict_mem. rewrite bool_decide_eq_false, eq_None_not_Some. done.
Qed.

Lemma dict_set_fresh k v d : dict_lookup k d = None → dict_set k v d = d ++ [(k, v)].
Proof.
  induction d as [|[k' v'] d IH]; simpl; [done|].
  case_decide; [done|]. intros Hl. by rewrite IH.
Qed.

Lemma dict_lookup_app_l k v d d' :
  dict_lookup k d = Some v → dict_lookup k (d ++ d') = Some v.
Proof.
  induction d as [|[k' v'] d IH]; simpl; [done|]. case_decide; auto.
Qed.

Lemma dict_lookup_snoc k v d :
  dict_lookup k d = None → dict_lookup k (d ++ [(k, v)]) = Some v.
Proof.
  induction d as [|[k' v'] d IH]; simpl.
  - by rewrite decide_True.
  - case_decide; [done | auto].
Qed.

Lemma dict_lookup_prefix k v d d' :
  d `prefix_of` d' → dict_lookup k d = Some v → dict_lookup k d' = Some v.
Proof. intros [d'' ->]. apply dict_lookup_app_l. Qed.

Lemma dict_lookup_set_eq k v d : dict_lookup k (dict_set k v d) = Some v.
Proof.
  induction d as [|[k' v'] d IH]; simpl.
  - by rewrite decide_True.
  - case_decide as Hk; simpl.
    + by rewrite decide_True.
    + by rewrite decide_False.
Qed.

Lemma dict_keys_app d d' : dict_keys (d ++ d') = dict_keys d ++ dict_keys d'.
Proof. unfold dict_keys. apply fmap_app. Qed.

End pydict_facts.

(** ** Running the primitives *)

Lemma fresh_lookup (h : heap) : h !! fresh (dom h) = None.
Proof. apply not_elem_of_dom, is_fresh. Qed.

Lemma fresh_ne (h : heap) r o : h !! r = Some o → r ≠ fresh (dom h).
Proof. intros Hr ->. by rewrite fresh_lookup in Hr. Qed.

Lemma load_dict_run (h : heap) self d :
  h !! self = Some (ODict d) → load_dict self h = (Return d, h).
Proof. intros Hs. unfold load_dict. by rewrite Hs. Qed.

Lemma load_list_run (h : heap) self l :
  h !! self = Some (OList l) → load_list self h = (Return l, h).
Proof. intros Hs. unfold load_list. by rewrite Hs. Qed.

Lemma load_dict_fail (h : heap) self :
  (∀ d, h !! self ≠ Some (ODict d)) → load_dict self h = (Raise AttributeError, h).
Proof.
  intros Hs. unfold load_dict.
  destruct (h !! self) as [[d|l]|] eqn:E; [by destruct (Hs d)|done..].
Qed.

Lemma load_list_fail (h : heap) self :
  (∀ l, h !! self ≠ Some (OList l)) → load_list self h = (Raise AttributeError, h).
Proof.
  intros Hs. unfold load_list.
  destruct (h !! self) as [[d|l]|] eqn:E; [done|by destruct (Hs l)|done].
Qed.

Lemma bind_run {A B} (c : M A) (k : A → M B) (h h' : heap) a :
  c h = (Return a, h') → bind c k h = k a h'.
Proof. intros Hc. unfold bind. by rewrite Hc. Qed.

Lemma bind_fail {A B} (c : M A) (k : A → M B) (h h' : heap) e :
  c h = (Raise e, h') → bind c k h = (Raise e, h').
Proof. intros Hc. unfold bind. by rewrite Hc. Qed.

Lemma accessed_update_run (h : heap) self d keys :
  h !! self = Some (ODict d) →
  TD.accessed_update self keys h = (Return tt, <[self := ODict (mark d keys)]> h).
Proof.
  intros Hs. unfold TD.accessed_update.
  by rewrite (bind_run _ _ _ _ _ (load_dict_run _ _ _ Hs)).
Qed.

Lemma td_wrap_run (h : heap) self d key v :
  h !! self = Some (ODict d) →
  TD._wrap self key v h =
    match fresh_child v (TD._child_path d key) with
    | None => (Return (PRaw v), h)
    | Some o =>
        match dict_lookup key (d_children d) with
        | Some c => (Return (PRef c), h)
        | None =>
            let c := fresh (dom h) in
            (Return (PRef c), <[self := ODict (adopt d key c)]> (<[c := o]> h))
        end
    end.
Proof.
  intros Hs. pose proof (fresh_ne _ _ _ Hs) as Hne.
  destruct v as [s|kvs|vs]; simpl; [done| |];
    rewrite (bind_run _ _ _ _ _ (load_dict_run _ _ _ Hs));
    (destruct (dict_lookup key (d_children d)) as [c|]; [done|]);
    unfold alloc, TD.children_set, load_dict, store, ret, bind; simpl;
    by rewrite lookup_insert_ne, Hs by done.
Qed.

Lemma tl_wrap_run (h : heap) self l index v :
  h !! self = Some (OList l) →
  TL._wrap self index v h =
    match fresh_child v (TL._child_path l index) with
    | None => (Return (PRaw v), h)
    | Some o =>
        match dict_lookup index (l_children l) with
        | Some c => (Return (PRef c), h)
        | None =>
            let c := fresh (dom h) in
            (Return (PRef c), <[self := OList (adopt_at l index c)]> (<[c := o]> h))
        end
    end.
Proof.
  intros Hs. pose proof (fresh_ne _ _ _ Hs) as Hne.
  destruct v as [s|kvs|vs]; simpl; [done| |];
    rewrite (bind_run _ _ _ _ _ (load_list_run _ _ _ Hs));
    (destruct (dict_lookup index (l_children l)) as [c|]; [done|]);
    unfold alloc, TL.children_set, load_list, store, ret, bind; simpl;
    by rewrite lookup_insert_ne, Hs by done.
Qed.

Lemma final_bind_run {A B} (c : M A) (k : A → M B) (h h' : heap) a :
  c h = (Return a, h') → final (bind c k) h = final (k a) h'.
Proof. intros Hc. unfold final. by rewrite (bind_run _ _ _ _ _ Hc). Qed.

Lemma final_bind_fail {A B} (c : M A) (k : A → M B) (h h' : heap) e :
  c h = (Raise e, h') → final (bind c k) h = h'.
Proof. intros Hc. unfold final. by rewrite (bind_fail _ _ _ _ _ Hc). Qed.

(** ** Objects only grow *)

Global Instance object_le_preorder : PreOrder object_le.
Proof.
  split.
  - intros [d|l]; simpl; done.
  - intros [d1|l1] [d2|l2] [d3|l3]; simpl; try done.
    + intros (?&?&?&?) (?&?&?&?). repeat split; try congruence; by etrans.
    + intros (?&?&?) (?&?&?). repeat split; try congruence; by etrans.
Qed.

Global Instance heap_le_preorder : PreOrder heap_le.
Proof.
  split.
  - intros h r o Hr. by exists o.
  - intros h1 h2 h3 H12 H23 r o Hr.
    destruct (H12 _ _ Hr) as (o2 & Hr2 & Ho2).
    destruct (H23 _ _ Hr2) as (o3 & Hr3 & Ho3).
    exists o3. split; [done | by etrans].
Qed.

Lemma heap_le_dict (h h' : heap) r d :
  heap_le h h' → h !! r = Some (ODict d) →
  ∃ d', h' !! r = Some (ODict d') ∧ object_le (ODict d) (ODict d').
Proof.
  intros Hle Hr. destruct (Hle _ _ Hr) as ([d'|l'] & Hr' & Ho); [eauto | done].
Qed.

Lemma heap_le_list (h h' : heap) r l :
  heap_le h h' → h !! r = Some (OList l) →
  ∃ l', h' !! r = Some (OList l') ∧ object_le (OList l) (OList l').
Proof.
  intros Hle Hr. destruct (Hle _ _ Hr) as ([d'|l'] & Hr' & Ho); [done | eauto].
Qed.

Lemma heap_le_update (h : heap) r o o' :
  h !! r = Some o → object_le o o' → heap_le h (<[r := o']> h).
Proof.
  intros Hr Ho r' o1 Hr'. destruct (decide (r' = r)) as [->|Hne].
  - rewrite lookup_insert_eq. exists o'. split; [done | congruence].
  - rewrite lookup_insert_ne by done. by exists o1.
Qed.

Lemma heap_le_alloc (h : heap) r o : h !! r = None → heap_le h (<[r := o]> h).
Proof.
  intros Hr r' o1 Hr'. rewrite lookup_insert_ne by congruence. by exists o1.
Qed.

Lemma object_le_mark d keys : object_le (ODict d) (ODict (mark d keys)).
Proof. simpl. repeat split; [set_solver | done]. Qed.

Lemma object_le_adopt d key c :
  dict_lookup key (d_children d) = None → object_le (ODict d) (ODict (adopt d key c)).
Proof.
  intros Hk. simpl. repeat split; [done|].
  rewrite dict_set_fresh by done. by apply prefix_app_r.
Qed.

Lemma object_le_adopt_at l index c :
  dict_lookup index (l_children l) = None →
  object_le (OList l) (OList (adopt_at l index c)).
Proof.
  intros Hk. simpl. repeat split.
  rewrite dict_set_fresh by done. by apply prefix_app_r.
Qed.

(** ** Well-formedness is kept *)

Lemma node_of_le v p o o' : object_le o o' → node_of v p o → node_of v p o'.
Proof.
  destruct v, o as [d|l], o' as [d'|l']; simpl; try done.
  - intros (?&?&?&?) [? ?]. split; congruence.
  - intros (?&?&?) [? ?]. split; congruence.
Qed.

Lemma node_of_fresh_child v p o : fresh_child v p = Some o → node_of v p o.
Proof. destruct v; simpl; intros [= <-]; done. Qed.

Lemma wf_object_fresh_child (h : heap) v p o : fresh_child v p = Some o → wf_object h o.
Proof. destruct v; simpl; intros [= <-]; simpl; by intros ? ? ?%elem_of_nil. Qed.

Lemma wf_object_mono (h h' : heap) o : heap_le h h' → wf_object h o → wf_object h' o.
Proof.
  intros Hle. destruct o as [d|l]; simpl; intros Hwf k c Hkc;
    destruct (Hwf _ _ Hkc) as (v & o1 & Hv & Hc & Hn);
    destruct (Hle _ _ Hc) as (o2 & Hc2 & Ho2);
    exists v, o2; eauto using node_of_le.
Qed.

Lemma wf_heap_insert (h : heap) r o :
  wf_heap h → heap_le h (<[r := o]> h) → wf_object (<[r := o]> h) o →
  wf_heap (<[r := o]> h).
Proof.
  intros Hwf Hle Ho r' o'. destruct (decide (r' = r)) as [->|Hne].
  - rewrite lookup_insert_eq. by intros [= <-].
  - rewrite lookup_insert_ne by done. intros Hr'.
    eapply wf_object_mono; [done|]. by eapply Hwf.
Qed.

Lemma wf_heap_mark (h : heap) self d keys :
  h !! self = Some (ODict d) → wf_heap h → wf_heap (<[self := ODict (mark d keys)]> h).
Proof.
  intros Hs Hwf.
  assert (heap_le h (<[self := ODict (mark d keys)]> h)) as Hle
    by eauto using heap_le_update, object_le_mark.
  apply wf_heap_insert; [done..|].
  apply (wf_object_mono h); [done|]. exact (Hwf _ _ Hs).
Qed.

Lemma wf_heap_alloc (h : heap) v p o :
  fresh_child v p = Some o → wf_heap h → wf_heap (<[fresh (dom h) := o]> h).
Proof.
  intros Ho Hwf. apply wf_heap_insert; [done| |].
  - apply heap_le_alloc, fresh_lookup.
  - by eapply wf_object_fresh_child.
Qed.

Lemma wf_heap_adopt (h : heap) self d key v o :
  h !! self = Some (ODict d) →
  dict_lookup key (d_data d) = Some v →
  dict_lookup key (d_children d) = None →
  fresh_child v (TD._child_path d key) = Some o →
  wf_heap h →
  wf_heap (<[self := ODict (adopt d key (fresh (dom h)))]> (<[fresh (dom h) := o]> h)).
Proof.
  intros Hs Hv Hk Ho Hwf. set (c := fresh (dom h)).
  assert (self ≠ c) as Hne by eauto using fresh_ne.
  assert (<[c := o]> h !! self = Some (ODict d)) as Hs1 by by rewrite lookup_insert_ne.
  assert (heap_le (<[c := o]> h) (<[self := ODict (adopt d key c)]> (<[c := o]> h)))
    as Hle by eauto using heap_le_update, object_le_adopt.
  apply wf_heap_insert; [by eapply wf_heap_alloc | done |].
  simpl. intros k c'. rewrite dict_set_fresh by done.
  intros [Hin|Hin%list_elem_of_singleton]%elem_of_app.
  - assert (wf_object (<[c := o]> h) (ODict d)) as Hd.
    { apply (wf_object_mono h); [apply heap_le_alloc, fresh_lookup|]. by eapply Hwf. }
    destruct (Hd _ _ Hin) as (v' & o' & Hv' & Hc' & Hn').
    destruct (Hle _ _ Hc') as (o2 & Hc2 & Ho2).
    exists v', o2. eauto using node_of_le.
  - injection Hin as -> ->. exists v, o. split; [done|]. split.
    + rewrite lookup_insert_ne by done. apply lookup_insert_eq.
    + by apply node_of_fresh_child.
Qed.

Lemma wf_heap_adopt_at (h : heap) self l index v o :
  h !! self = Some (OList l) →
  list_index (l_data l) index = Some v →
  dict_lookup index (l_children l) = None →
  fresh_child v (TL._child_path l index) = Some o →
  wf_heap h →
  wf_heap (<[self := OList (adopt_at l index (fresh (dom h)))]> (<[fresh (dom h) := o]> h)).
Proof.
  intros Hs Hv Hk Ho Hwf. set (c := fresh (dom h)).
  assert (self ≠ c) as Hne by eauto using fresh_ne.
  assert (<[c := o]> h !! self = Some (OList l)) as Hs1 by by rewrite lookup_insert_ne.
  assert (heap_le (<[c := o]> h) (<[self := OList (adopt_at l index c)]> (<[c := o]> h)))
    as Hle by eauto using heap_le_update, object_le_adopt_at.
  apply wf_heap_insert; [by eapply wf_heap_alloc | done |].
  simpl. intros k c'. rewrite dict_set_fresh by done.
  intros [Hin|Hin%list_elem_of_singleton]%elem_of_app.
  - assert (wf_object (<[c := o]> h) (OList l)) as Hd.
    { apply (wf_object_mono h); [apply heap_le_alloc, fresh_lookup|]. by eapply Hwf. }
    destruct (Hd _ _ Hin) as (v' & o' & Hv' & Hc' & Hn').
    destruct (Hle _ _ Hc') as (o2 & Hc2 & Ho2).
    exists v', o2. eauto using node_of_le.
  - injection Hin as -> ->. exists v, o. split; [done|]. split.
    + rewrite lookup_insert_ne by done. apply lookup_insert_eq.
    + by apply node_of_fresh_child.
Qed.

(** ** Cached keys stay among the accessed keys *)

Lemma cache_mark (h : heap) self d keys :
  h !! self = Some (ODict d) → cache_in_accessed h →
  cache_in_accessed (<[self := ODict (mark d keys)]> h).
Proof.
  intros Hs Hc r d'. destruct (decide (r = self)) as [->|Hne].
  - rewrite lookup_insert_eq. intros [= <-] k Hk. simpl.
    apply elem_of_union_l. by eapply Hc.
  - rewrite lookup_insert_ne by done. apply Hc.
Qed.

Lemma cache_alloc (h : heap) v p o c :
  fresh_child v p = Some o → cache_in_accessed h → cache_in_accessed (<[c := o]> h).
Proof.
  intros Ho Hc r d'. destruct (decide (r = c)) as [->|Hne].
  - rewrite lookup_insert_eq. intros [= ->].
    destruct v; simplify_eq/=. by intros k ?%elem_of_nil.
  - rewrite lookup_insert_ne by done. apply Hc.
Qed.

Lemma cache_adopt (h : heap) self d key c :
  h !! self = Some (ODict d) → dict_lookup key (d_children d) = None →
  key ∈ d_accessed d → cache_in_accessed h →
  cache_in_accessed (<[self := ODict (adopt d key c)]> h).
Proof.
  intros Hs Hl Hkey Hc r d'. destruct (decide (r = self)) as [->|Hne].
  - rewrite lookup_insert_eq. intros [= <-] k. simpl.
    rewrite dict_set_fresh, dict_keys_app by done.
    intros [Hk|Hk%list_elem_of_singleton]%elem_of_app; [|by subst].
    by eapply Hc.
  - rewrite lookup_insert_ne by done. apply Hc.
Qed.

Lemma cache_update_list (h : heap) self l :
  cache_in_accessed h → cache_in_accessed (<[self := OList l]> h).
Proof.
  intros Hc r d'. destruct (decide (r = self)) as [->|Hne].
  - by rewrite lookup_insert_eq.
  - rewrite lookup_insert_ne by done. apply Hc.
Qed.

(** ** What every step keeps *)

Global Instance step_ok_preorder : PreOrder step_ok.
Proof.
  split.
  - intros h. by repeat split.
  - intros h1 h2 h3 (?&?&?) (?&?&?). repeat split; [by etrans | auto..].
Qed.

Lemma mark_step (h : heap) self d keys :
  h !! self = Some (ODict d) → step_ok h (<[self := ODict (mark d keys)]> h).
Proof.
  intros Hs. repeat split.
  - eauto using heap_le_update, object_le_mark.
  - by apply wf_heap_mark.
  - by apply cache_mark.
Qed.

Lemma alloc_step (h : heap) v p o :
  fresh_child v p = Some o → step_ok h (<[fresh (dom h) := o]> h).
Proof.
  intros Ho. repeat split.
  - apply heap_le_alloc, fresh_lookup.
  - by eapply wf_heap_alloc.
  - by eapply cache_alloc.
Qed.

Lemma td_wrap_step (h : heap) self d key v :
  h !! self = Some (ODict d) → dict_lookup key (d_data d) = Some v →
  key ∈ d_accessed d → step_ok h (final (TD._wrap self key v) h).
Proof.
  intros Hs Hv Hk. unfold final. rewrite (td_wrap_run _ _ _ _ _ Hs).
  destruct (fresh_child v (TD._child_path d key)) as [o|] eqn:Ho; [|done].
  destruct (dict_lookup key (d_children d)) as [c|] eqn:Hc; [done|]. simpl.
  assert (self ≠ fresh (dom h)) as Hne by eauto using fresh_ne.
  assert (<[fresh (dom h) := o]> h !! self = Some (ODict d)) as Hs1
    by by rewrite lookup_insert_ne.
  repeat split.
  - etrans; [apply heap_le_alloc, fresh_lookup|].
    eauto using heap_le_update, object_le_adopt.
  - by eapply wf_heap_adopt.
  - intros Hca. eapply cache_adopt; [done..|]. by eapply cache_alloc.
Qed.

Lemma tl_wrap_step (h : heap) self l index v :
  h !! self = Some (OList l) → list_index (l_data l) index = Some v →
  step_ok h (final (TL._wrap self index v) h).
Proof.
  intros Hs Hv. unfold final. rewrite (tl_wrap_run _ _ _ _ _ Hs).
  destruct (fresh_child v (TL._child_path l index)) as [o|] eqn:Ho; [|done].
  destruct (dict_lookup index (l_children l)) as [c|] eqn:Hc; [done|]. simpl.
  assert (self ≠ fresh (dom h)) as Hne by eauto using fresh_ne.
  assert (<[fresh (dom h) := o]> h !! self = Some (OList l)) as Hs1
    by by rewrite lookup_insert_ne.
  repeat split.
  - etrans; [apply heap_le_alloc, fresh_lookup|].
    eauto using heap_le_update, object_le_adopt_at.
  - by eapply wf_heap_adopt_at.
  - intros Hca. apply cache_update_list. by eapply cache_alloc.
Qed.

(** A loop keeps what each of its rounds keeps. *)
Lemma for_each_step {A B} (P : heap → Prop) (f : A → M B) (xs : list A) :
  (∀ h h', P h → step_ok h h' → P h') →
  (∀ x h, x ∈ xs → P h → step_ok h (final (f x) h)) →
  ∀ h, P h → step_ok h (final (for_each f xs) h).
Proof.
  intros HP. induction xs as [|x xs IH]; intros Hf h Hh; simpl; [done|].
  assert (step_ok h (final (f x) h)) as Hx by (apply Hf; [left | done]).
  unfold final in *. unfold bind at 1.
  destruct (f x h) as [[y|e] h1] eqn:Hfx; simpl in *; [|done].
  assert (step_ok h1 (for_each f xs h1).2) as Hxs.
  { apply IH; [|by eapply HP]. intros x' h' Hx'. apply Hf. by right. }
  unfold bind. destruct (for_each f xs h1) as [[ys|e] h2]; simpl in *; by etrans.
Qed.

(** ** Running the methods *)

Lemma subscript_run (data : list (string * value)) key (h : heap) :
  subscript data key h =
    match dict_lookup key data with
    | Some v => (Return v, h)
    | None => (Raise (KeyError key), h)
    end.
Proof. unfold subscript. by destruct (dict_lookup key data). Qed.

Lemma td_getitem_run (h : heap) self d key :
  h !! self = Some (ODict d) →
  TD.__getitem__ self key h =
    match dict_lookup key (d_data d) with
    | Some v => TD._wrap self key v (<[self := ODict (mark d [key])]> h)
    | None => (Raise (KeyError key), <[self := ODict (mark d [key])]> h)
    end.
Proof.
  intros Hs. unfold TD.__getitem__.
  rewrite (bind_run _ _ _ _ _ (accessed_update_run _ _ _ _ Hs)).
  rewrite (bind_run _ _ _ _ (mark d [key]) (load_dict_run _ _ _ (lookup_insert_eq _ _ _))).
  unfold bind at 1. rewrite subscript_run. simpl.
  by destruct (dict_lookup key (d_data d)).
Qed.

Lemma td_get_run (h : heap) self d key default :
  h !! self = Some (ODict d) →
  TD.get self key default h =
    match dict_lookup key (d_data d) with
    | Some v => TD._wrap self key v (<[self := ODict (mark d [key])]> h)
    | None => (Return default, <[self := ODict (mark d [key])]> h)
    end.
Proof.
  intros Hs. unfold TD.get.
  rewrite (bind_run _ _ _ _ _ (accessed_update_run _ _ _ _ Hs)).
  rewrite (bind_run _ _ _ _ (mark d [key]) (load_dict_run _ _ _ (lookup_insert_eq _ _ _))).
  simpl. destruct (dict_lookup key (d_data d)) as [v|] eqn:Hv.
  - rewrite (proj2 (dict_mem_true _ _)) by (rewrite Hv; eauto).
    unfold bind at 1. by rewrite subscript_run, Hv.
  - by rewrite (proj2 (dict_mem_false _ _)).
Qed.

Lemma td_values_run (h : heap) self d :
  h !! self = Some (ODict d) →
  TD.values self h =
    for_each (λ key, v <- subscript (d_data d) key;; TD._wrap self key v)
             (dict_keys (d_data d))
             (<[self := ODict (mark d (dict_keys (d_data d)))]> h).
Proof.
  intros Hs. unfold TD.values.
  rewrite (bind_run _ _ _ _ _ (load_dict_run _ _ _ Hs)).
  by rewrite (bind_run _ _ _ _ _ (accessed_update_run _ _ _ _ Hs)).
Qed.

Lemma td_items_run (h : heap) self d :
  h !! self = Some (ODict d) →
  TD.items self h =
    for_each (λ key, v <- subscript (d_data d) key;;
                     w <- TD._wrap self key v;; ret (key, w))
             (dict_keys (d_data d))
             (<[self := ODict (mark d (dict_keys (d_data d)))]> h).
Proof.
  intros Hs. unfold TD.items.
  rewrite (bind_run _ _ _ _ _ (load_dict_run _ _ _ Hs)).
  by rewrite (bind_run _ _ _ _ _ (accessed_update_run _ _ _ _ Hs)).
Qed.

Lemma tl_getitem_run (h : heap) self l index :
  h !! self = Some (OList l) →
  TL.__getitem__ self index h =
    match list_index (l_data l) index with
    | Some v => TL._wrap self index v h
    | None => (Raise IndexError, h)
    end.
Proof.
  intros Hs. unfold TL.__getitem__.
  rewrite (bind_run _ _ _ _ _ (load_list_run _ _ _ Hs)).
  unfold bind, TL.subscript. by destruct (list_index (l_data l) index).
Qed.

Lemma tl_iter_run (h : heap) self l :
  h !! self = Some (OList l) →
  TL.__iter__ self h =
    for_each (λ i, v <- TL.subscript (l_data l) i;; TL._wrap self i v)
             (Z.of_nat <$> seq 0 (length (l_data l))) h.
Proof.
  intros Hs. unfold TL.__iter__.
  by rewrite (bind_run _ _ _ _ _ (load_list_run _ _ _ Hs)).
Qed.

Lemma list_index_nat {A} (l : list A) (i : nat) :
  list_index l (Z.of_nat i) = l !! i.
Proof.
  unfold list_index. rewrite decide_True by lia. by rewrite Nat2Z.id.
Qed.

Lemma list_index_is_Some {A} (l : list A) (i : Z) :
  is_Some (list_index l i) ↔ - Z.of_nat (length l) ≤ i < Z.of_nat (length l).
Proof.
  unfold list_index. repeat case_decide; rewrite ?lookup_lt_is_Some.
  - lia.
  - lia.
  - split; [by intros [? ?] | lia].
Qed.

(** ** Every call is a good step *)

Lemma td_getitem_step (h : heap) self d key :
  h !! self = Some (ODict d) → step_ok h (final (TD.__getitem__ self key) h).
Proof.
  intros Hs. unfold final. rewrite (td_getitem_run _ _ _ _ Hs).
  pose proof (mark_step h self d [key] Hs) as Hm.
  destruct (dict_lookup key (d_data d)) as [v|] eqn:Hv; [|done].
  etrans; [done|]. eapply td_wrap_step; [apply lookup_insert_eq|done|].
  simpl. set_solver.
Qed.

Lemma td_get_step (h : heap) self d key default :
  h !! self = Some (ODict d) → step_ok h (final (TD.get self key default) h).
Proof.
  intros Hs. unfold final. rewrite (td_get_run _ _ _ _ _ Hs).
  pose proof (mark_step h self d [key] Hs) as Hm.
  destruct (dict_lookup key (d_data d)) as [v|] eqn:Hv; [|done].
  etrans; [done|]. eapply td_wrap_step; [apply lookup_insert_eq|done|].
  simpl. set_solver.
Qed.

Lemma all_marked_step self data (h h' : heap) :
  all_marked self data h → step_ok h h' → all_marked self data h'.
Proof.
  intros (d & Hs & Hd & Hk) (Hle & _).
  destruct (heap_le_dict _ _ _ _ Hle Hs) as (d' & Hs' & Hd' & _ & Ha & _).
  exists d'. split; [done|]. split; [congruence|]. intros k Hin. apply Ha. auto.
Qed.

Lemma all_marked_mark (h : heap) self d :
  h !! self = Some (ODict d) →
  all_marked self (d_data d) (<[self := ODict (mark d (dict_keys (d_data d)))]> h).
Proof.
  intros Hs. eexists. split; [apply lookup_insert_eq|]. split; [done|].
  intros k Hk. simpl. apply elem_of_union_r. by apply elem_of_list_to_set.
Qed.

Lemma td_values_step (h : heap) self d :
  h !! self = Some (ODict d) → step_ok h (final (TD.values self) h).
Proof.
  intros Hs. unfold final. rewrite (td_values_run _ _ _ Hs).
  etrans; [by apply (mark_step h self d (dict_keys (d_data d)))|].
  apply (for_each_step (all_marked self (d_data d)));
    [apply all_marked_step| |by apply all_marked_mark].
  intros key h1 Hkey (d1 & Hs1 & Hd1 & Hk1).
  destruct (proj1 (dict_lookup_keys _ _) Hkey) as [v Hv].
  erewrite final_bind_run by (by rewrite subscript_run, Hv).
  eapply td_wrap_step; [done|by rewrite Hd1|auto].
Qed.

Lemma td_items_step (h : heap) self d :
  h !! self = Some (ODict d) → step_ok h (final (TD.items self) h).
Proof.
  intros Hs. unfold final. rewrite (td_items_run _ _ _ Hs).
  etrans; [by apply (mark_step h self d (dict_keys (d_data d)))|].
  apply (for_each_step (all_marked self (d_data d)));
    [apply all_marked_step| |by apply all_marked_mark].
  intros key h1 Hkey (d1 & Hs1 & Hd1 & Hk1).
  destruct (proj1 (dict_lookup_keys _ _) Hkey) as [v Hv].
  erewrite final_bind_run by (by rewrite subscript_run, Hv).
  assert (step_ok h1 (final (TD._wrap self key v) h1)) as Hw
    by (eapply td_wrap_step; [done|by rewrite Hd1|auto]).
  unfold final in *. unfold bind.
  by destruct (TD._wrap self key v h1) as [[w|e] h2].
Qed.

Lemma tl_getitem_step (h : heap) self l index :
  h !! self = Some (OList l) → step_ok h (final (TL.__getitem__ self index) h).
Proof.
  intros Hs. unfold final. rewrite (tl_getitem_run _ _ _ _ Hs).
  destruct (list_index (l_data l) index) as [v|] eqn:Hv; [|done].
  by eapply tl_wrap_step.
Qed.

Lemma tl_iter_step (h : heap) self l :
  h !! self = Some (OList l) → step_ok h (final (TL.__iter__ self) h).
Proof.
  intros Hs. unfold final. rewrite (tl_iter_run _ _ _ Hs).
  apply (for_each_step (λ h1, ∃ l1, h1 !! self = Some (OList l1) ∧ l_data l1 = l_data l));
    [| |by eauto].
  - intros h1 h2 (l1 & Hs1 & Hl1) (Hle & _).
    destruct (heap_le_list _ _ _ _ Hle Hs1) as (l2 & Hs2 & Hl2 & _).
    exists l2. split; [done | congruence].
  - intros i h1 (n & -> & Hn%elem_of_seq)%list_elem_of_fmap (l1 & Hs1 & Hl1).
    destruct (lookup_lt_is_Some_2 (l_data l) n) as [v Hv]; [lia|].
    erewrite final_bind_run
      by (unfold TL.subscript; by rewrite list_index_nat, Hv).
    eapply tl_wrap_step; [done|]. by rewrite Hl1, list_index_nat.
Qed.

(** A call on a reference that holds no object of the class raises and leaves
    the store alone. *)
Lemma exec_td_not_dict (h : heap) self c :
  (∀ d, h !! self ≠ Some (ODict d)) → exec_td self c h = h.
Proof.
  intros Hs. pose proof (load_dict_fail _ _ Hs) as Hl.
  destruct c; simpl; unfold final;
    cbv [TD.__getitem__ TD.get TD.__contains__ TD.__len__ TD.__bool__ TD.__iter__
         TD.keys TD.values TD.items TD.raw TD.mark_accessed TD.mark_all_accessed
         TD.accessed_keys TD.__eq__ TD.accessed_update];
    rewrite ?(bind_fail _ _ _ _ _ (bind_fail _ _ _ _ _ Hl)), ?(bind_fail _ _ _ _ _ Hl);
    done.
Qed.

Lemma exec_tl_not_list (h : heap) self c :
  (∀ l, h !! self ≠ Some (OList l)) → exec_tl self c h = h.
Proof.
  intros Hs. pose proof (load_list_fail _ _ Hs) as Hl.
  destruct c; simpl; unfold final;
    cbv [TL.__getitem__ TL.__len__ TL.__bool__ TL.__iter__ TL.raw TL.__eq__];
    rewrite (bind_fail _ _ _ _ _ Hl); done.
Qed.

Lemma exec_td_step (h : heap) self c : step_ok h (exec_td self c h).
Proof.
  destruct (h !! self) as [[d|l]|] eqn:Hs;
    [|rewrite exec_td_not_dict by (intros ?; congruence); done..].
  pose proof (load_dict_run _ _ _ Hs) as Hl.
  destruct c; simpl.
  - by eapply td_getitem_step.
  - by eapply td_get_step.
  - unfold TD.__contains__. rewrite (final_bind_run _ _ _ _ _ Hl). reflexivity.
  - unfold TD.__len__. rewrite (final_bind_run _ _ _ _ _ Hl). reflexivity.
  - unfold TD.__bool__. rewrite (final_bind_run _ _ _ _ _ Hl). reflexivity.
  - unfold TD.__iter__. rewrite (final_bind_run _ _ _ _ _ Hl). reflexivity.
  - unfold TD.keys. rewrite (final_bind_run _ _ _ _ _ Hl). reflexivity.
  - by eapply td_values_step.
  - by eapply td_items_step.
  - unfold TD.raw. rewrite (final_bind_run _ _ _ _ _ Hl). reflexivity.
  - unfold TD.mark_accessed, final. rewrite (accessed_update_run _ _ _ _ Hs).
    by apply mark_step.
  - unfold TD.mark_all_accessed. rewrite (final_bind_run _ _ _ _ _ Hl).
    unfold final. rewrite (accessed_update_run _ _ _ _ Hs). by apply mark_step.
  - unfold TD.accessed_keys. rewrite (final_bind_run _ _ _ _ _ Hl). reflexivity.
  - unfold TD.__eq__. rewrite (final_bind_run _ _ _ _ _ Hl). unfold final.
    destruct other as [[]|o]; simpl; try done.
    by destruct (h !! o) as [[]|].
Qed.

Lemma exec_tl_step (h : heap) self c : step_ok h (exec_tl self c h).
Proof.
  destruct (h !! self) as [[d|l]|] eqn:Hs;
    [rewrite exec_tl_not_list by (intros ?; congruence); done| |
     rewrite exec_tl_not_list by (intros ?; congruence); done].
  pose proof (load_list_run _ _ _ Hs) as Hl.
  destruct c; simpl.
  - by eapply tl_getitem_step.
  - unfold TL.__len__. rewrite (final_bind_run _ _ _ _ _ Hl). reflexivity.
  - unfold TL.__bool__. rewrite (final_bind_run _ _ _ _ _ Hl). reflexivity.
  - by eapply tl_iter_step.
  - unfold TL.raw. rewrite (final_bind_run _ _ _ _ _ Hl). reflexivity.
  - unfold TL.__eq__. rewrite (final_bind_run _ _ _ _ _ Hl). unfold final.
    destruct other as [[]|o]; simpl; try done.
    by destruct (h !! o) as [[]|].
Qed.

Lemma exec_step (h : heap) c : step_ok h (exec c h).
Proof.
  destruct c as [data path|data path|self c|self c]; simpl.
  - apply (alloc_step h (VDict data) path). done.
  - apply (alloc_step h (VList data) path). done.
  - apply exec_td_step.
  - apply exec_tl_step.
Qed.

Lemma exec_all_step (h : heap) cs : step_ok h (exec_all cs h).
Proof.
  revert h. induction cs as [|c cs IH]; intros h; simpl; [done|].
  etrans; [apply exec_step | apply IH].
Qed.

Lemma reachable_wf (h : heap) : reachable h → wf_heap h.
Proof.
  induction 1 as [|h c _ IH]; [by intros r o ?%lookup_empty_Some|].
  by apply exec_step.
Qed.

Lemma reachable_cache (h : heap) : reachable h → cache_in_accessed h.
Proof.
  induction 1 as [|h c _ IH]; [by intros r o ?%lookup_empty_Some|].
  by apply exec_step.
Qed.

(** ** [sorted] *)

Lemma sorted_StronglySorted l : StronglySorted String.le (sorted l).
Proof. apply StronglySorted_merge_sort; apply _. Qed.

Lemma sorted_Permutation l : sorted l ≡ₚ l.
Proof. apply merge_sort_Permutation. Qed.

Lemma sorted_elem_of s l : s ∈ sorted l ↔ s ∈ l.
Proof. by rewrite sorted_Permutation. Qed.

(** The sorted list is determined by the elements alone. *)
Lemma sorted_unique l l' :
  StronglySorted String.le l' → l' ≡ₚ l → l' = sorted l.
Proof.
  intros Hs Hp. apply (StronglySorted_unique String.le);
    [done | apply sorted_StronglySorted | by rewrite sorted_Permutation].
Qed.

(** ** [unaccessed] *)

Lemma unaccessed_dict fuel (h : heap) self d :
  h !! self = Some (ODict d) →
  unaccessed (S fuel) h self =
    parts ← mapM (contribution fuel h d) (dict_keys (d_data d));
    Some (sorted (concat parts)).
Proof. intros Hs. simpl. by rewrite Hs. Qed.

Lemma unaccessed_list fuel (h : heap) self l :
  h !! self = Some (OList l) →
  unaccessed (S fuel) h self =
    parts ← mapM (unaccessed fuel h) (dict_values (l_children l));
    Some (sorted (concat parts)).
Proof. intros Hs. simpl. by rewrite Hs. Qed.

(** More fuel does not change the report. *)
Lemma unaccessed_fuel_mono fuel fuel' (h : heap) self res :
  unaccessed fuel h self = Some res → (fuel ≤ fuel')%nat →
  unaccessed fuel' h self = Some res.
Proof.
  revert fuel' self res.
  induction fuel as [|fuel IH]; intros fuel' self res; [done|].
  destruct fuel' as [|fuel']; [lia|]. intros Hu Hle.
  destruct (h !! self) as [[d|l]|] eqn:Hs; [| |by simpl in Hu; rewrite Hs in Hu].
  - rewrite (unaccessed_dict fuel _ _ _ Hs) in Hu.
    rewrite (unaccessed_dict fuel' _ _ _ Hs).
    destruct (mapM (contribution fuel h d) _) as [parts|] eqn:Hp; [|done].
    apply mapM_Some in Hp. erewrite (proj2 (mapM_Some _ _ _)); [done|].
    eapply Forall2_impl; [done|]. intros key part. unfold contribution.
    case_decide; [done|]. destruct (dict_lookup key (d_children d)); [|done].
    intros. apply IH; [done | lia].
  - rewrite (unaccessed_list fuel _ _ _ Hs) in Hu.
    rewrite (unaccessed_list fuel' _ _ _ Hs).
    destruct (mapM (unaccessed fuel h) _) as [parts|] eqn:Hp; [|done].
    apply mapM_Some in Hp. erewrite (proj2 (mapM_Some _ _ _)); [done|].
    eapply Forall2_impl; [done|]. intros c part ?. apply IH; [done | lia].
Qed.

Lemma unaccessed_deterministic fuel fuel' (h : heap) self res res' :
  unaccessed fuel h self = Some res → unaccessed fuel' h self = Some res' →
  res = res'.
Proof.
  intros H1 H2. destruct (Nat.le_ge_cases fuel fuel') as [Hle|Hle].
  - rewrite (unaccessed_fuel_mono _ _ _ _ _ H1 Hle) in H2. congruence.
  - rewrite (unaccessed_fuel_mono _ _ _ _ _ H2 Hle) in H1. congruence.
Qed.

Lemma depth_dict_lookup k kvs v :
  dict_lookup k kvs = Some v → (depth v < depth (VDict kvs))%nat.
Proof.
  simpl. induction kvs as [|[k' v'] kvs IH]; simpl; [done|].
  case_decide.
  - intros [= ->]. lia.
  - intros Hl. specialize (IH Hl). lia.
Qed.

Lemma depth_list_elem vs (v : value) : v ∈ vs → (depth v < depth (VList vs))%nat.
Proof.
  simpl. induction vs as [|v' vs IH]; [by intros ?%elem_of_nil|].
  intros [->|Hin]%elem_of_cons.
  - lia.
  - specialize (IH Hin). lia.
Qed.

Lemma list_index_elem {A} (l : list A) i x : list_index l i = Some x → x ∈ l.
Proof.
  unfold list_index. repeat case_decide; try done; apply list_elem_of_lookup_2.
Qed.

Lemma node_of_raw v p o : node_of v p o → raw_of o = v.
Proof. destruct v, o; simpl; try done; by intros [-> _]. Qed.

(** On a well-formed store the recursion of [unaccessed] is bounded by the
    nesting depth of the raw tree: with that much fuel it returns. *)
Lemma unaccessed_total fuel (h : heap) self o :
  wf_heap h → h !! self = Some o → (depth (raw_of o) ≤ fuel)%nat →
  is_Some (unaccessed fuel h self).
Proof.
  intros Hwf. revert self o.
  induction fuel as [|fuel IH]; intros self o Hs Hd.
  { destruct o; simpl in Hd; by apply Nat.nle_succ_0 in Hd. }
  pose proof (Hwf _ _ Hs) as Ho. destruct o as [d|l]; simpl in Ho.
  - rewrite (unaccessed_dict _ _ _ _ Hs).
    destruct (mapM_is_Some_2 (contribution fuel h d) (dict_keys (d_data d)))
      as [parts ->]; [|by eexists].
    apply Forall_forall. intros key _. unfold compose, contribution.
    case_decide; [by eexists|].
    destruct (dict_lookup key (d_children d)) as [c|] eqn:Hc; [|by eexists].
    destruct (Ho _ _ (dict_lookup_elem _ _ _ Hc)) as (v & o' & Hv & Hc' & Hn).
    apply (IH _ o'); [done|]. rewrite (node_of_raw _ _ _ Hn).
    apply depth_dict_lookup in Hv.
    change (raw_of (ODict d)) with (VDict (d_data d)) in Hd. lia.
  - rewrite (unaccessed_list _ _ _ _ Hs).
    destruct (mapM_is_Some_2 (unaccessed fuel h) (dict_values (l_children l)))
      as [parts ->]; [|by eexists].
    apply Forall_forall. intros c Hc. unfold compose.
    apply list_elem_of_fmap in Hc as ([i c'] & -> & Hic).
    destruct (Ho _ _ Hic) as (v & o' & Hv & Hc' & Hn).
    apply (IH _ o'); [done|]. rewrite (node_of_raw _ _ _ Hn).
    apply list_index_elem, depth_list_elem in Hv.
    change (raw_of (OList l)) with (VList (l_data l)) in Hd. lia.
Qed.

(** ** The wrapping rule *)

Lemma wrapped_le (h h' : heap) v res : heap_le h h' → wrapped h v res → wrapped h' v res.
Proof.
  intros Hle. destruct v as [s|kvs|vs]; simpl; [done| |].
  - intros (c & d & -> & Hc & Hd).
    destruct (heap_le_dict _ _ _ _ Hle Hc) as (d' & Hc' & Hd' & _).
    exists c, d'. split; [done|]. split; [done | congruence].
  - intros (c & l & -> & Hc & Hl).
    destruct (heap_le_list _ _ _ _ Hle Hc) as (l' & Hc' & Hl' & _).
    exists c, l'. split; [done|]. split; [done | congruence].
Qed.

Lemma wrapped_node_of (h : heap) v p c o :
  h !! c = Some o → node_of v p o → wrapped h v (PRef c).
Proof.
  destruct v as [s|kvs|vs], o as [d|l]; simpl; try done; intros Hc [? ?]; eauto.
Qed.

(** [_wrap] on the value found under [key]: it returns, the result wraps that
    value, and [self] keeps its raw data, path and accessed keys. *)
Lemma td_wrap_spec (h : heap) self d key v :
  wf_heap h → h !! self = Some (ODict d) → dict_lookup key (d_data d) = Some v →
  ∃ res h' d',
    TD._wrap self key v h = (Return res, h') ∧ heap_le h h' ∧ wf_heap h' ∧
    wrapped h' v res ∧ h' !! self = Some (ODict d') ∧
    d_data d' = d_data d ∧ d_path d' = d_path d ∧ d_accessed d' = d_accessed d.
Proof.
  intros Hwf Hs Hv. rewrite (td_wrap_run _ _ _ _ _ Hs).
  destruct (fresh_child v (TD._child_path d key)) as [o|] eqn:Ho.
  2: { exists (PRaw v), h, d. destruct v; simplify_eq/=. by repeat split. }
  destruct (dict_lookup key (d_children d)) as [c|] eqn:Hc.
  - exists (PRef c), h, d. repeat split; try done.
    destruct (Hwf _ _ Hs _ _ (dict_lookup_elem _ _ _ Hc)) as (v' & o' & Hv' & Hc' & Hn).
    assert (v' = v) as -> by congruence. by eapply wrapped_node_of.
  - simpl. set (c := fresh (dom h)).
    assert (self ≠ c) as Hne by eauto using fresh_ne.
    assert (<[c := o]> h !! self = Some (ODict d)) as Hs1 by by rewrite lookup_insert_ne.
    exists (PRef c), (<[self := ODict (adopt d key c)]> (<[c := o]> h)), (adopt d key c).
    split; [done|]. split; [|split; [|split; [|split]]].
    + etrans; [apply heap_le_alloc, fresh_lookup|].
      eauto using heap_le_update, object_le_adopt.
    + by eapply wf_heap_adopt.
    + eapply wrapped_node_of; [|by apply node_of_fresh_child].
      rewrite lookup_insert_ne by done. apply lookup_insert_eq.
    + apply lookup_insert_eq.
    + done.
Qed.

Lemma tl_wrap_spec (h : heap) self l index v :
  wf_heap h → h !! self = Some (OList l) → list_index (l_data l) index = Some v →
  ∃ res h' l',
    TL._wrap self index v h = (Return res, h') ∧ heap_le h h' ∧ wf_heap h' ∧
    wrapped h' v res ∧ h' !! self = Some (OList l') ∧
    l_data l' = l_data l ∧ l_path l' = l_path l.
Proof.
  intros Hwf Hs Hv. rewrite (tl_wrap_run _ _ _ _ _ Hs).
  destruct (fresh_child v (TL._child_path l index)) as [o|] eqn:Ho.
  2: { exists (PRaw v), h, l. destruct v; simplify_eq/=. by repeat split. }
  destruct (dict_lookup index (l_children l)) as [c|] eqn:Hc.
  - exists (PRef c), h, l. repeat split; try done.
    destruct (Hwf _ _ Hs _ _ (dict_lookup_elem _ _ _ Hc)) as (v' & o' & Hv' & Hc' & Hn).
    assert (v' = v) as -> by congruence. by eapply wrapped_node_of.
  - simpl. set (c := fresh (dom h)).
    assert (self ≠ c) as Hne by eauto using fresh_ne.
    assert (<[c := o]> h !! self = Some (OList l)) as Hs1 by by rewrite lookup_insert_ne.
    exists (PRef c), (<[self := OList (adopt_at l index c)]> (<[c := o]> h)),
      (adopt_at l index c).
    split; [done|]. split; [|split; [|split; [|split]]].
    + etrans; [apply heap_le_alloc, fresh_lookup|].
      eauto using heap_le_update, object_le_adopt_at.
    + by eapply wf_heap_adopt_at.
    + eapply wrapped_node_of; [|by apply node_of_fresh_child].
      rewrite lookup_insert_ne by done. apply lookup_insert_eq.
    + apply lookup_insert_eq.
    + done.
Qed.

(** A loop whose rounds all return, returns; [P] is what the rounds keep of
    the store and [Q] what they establish of their results. *)
Lemma for_each_spec {A B} (P : heap → Prop) (Q : heap → A → B → Prop)
    (f : A → M B) (xs : list A) :
  (∀ h h' x y, heap_le h h' → Q h x y → Q h' x y) →
  (∀ x h, x ∈ xs → P h →
     ∃ y h', f x h = (Return y, h') ∧ P h' ∧ heap_le h h' ∧ Q h' x y) →
  ∀ h, P h →
    ∃ ys h', for_each f xs h = (Return ys, h') ∧ P h' ∧ heap_le h h' ∧
             Forall2 (Q h') xs ys.
Proof.
  intros HQ. induction xs as [|x xs IH]; intros Hf h Hh; simpl.
  { exists [], h. by repeat split. }
  destruct (Hf x h) as (y & h1 & Hfx & Hh1 & Hle1 & Hq); [left|done|].
  destruct (IH (λ x' h' Hx', Hf x' h' (list_elem_of_further _ _ _ Hx')) h1 Hh1)
    as (ys & h2 & Hxs & Hh2 & Hle2 & Hqs).
  exists (y :: ys), h2. split; [|split; [done|split; [by etrans|]]].
  - rewrite (bind_run _ _ _ _ _ Hfx). by rewrite (bind_run _ _ _ _ _ Hxs).
  - constructor; [by eapply HQ | done].
Qed.


(** Marking keys that are accessed already changes nothing. *)
Lemma mark_id d keys : (∀ k, k ∈ keys → k ∈ d_accessed d) → mark d keys = d.
Proof.
  intros Hk. destruct d as [data path acc ch]. unfold mark. simpl in *. f_equal.
  apply set_eq. intros k. rewrite elem_of_union, elem_of_list_to_set.
  split; [intros [?|?]; auto | by left].
Qed.

(** One round of the loops of [values] and [items]. *)
Lemma td_wrap_key_spec self data acc key (h : heap) :
  key ∈ dict_keys data → dict_state self data acc h →
  ∃ res h',
    (v <- subscript data key;; TD._wrap self key v) h = (Return res, h') ∧
    dict_state self data acc h' ∧ heap_le h h' ∧ wrapped_key data h' key res.
Proof.
  intros Hkey (Hwf & d & Hs & Hd & Ha).
  destruct (proj1 (dict_lookup_keys _ _) Hkey) as [v Hv].
  destruct (td_wrap_spec h self d key v) as (res & h' & d' & Hrun & Hle & Hwf' & Hw & Hs' & Hd' & _ & Ha');
    [done | done | by rewrite Hd |].
  exists res, h'. split; [|split; [|split]].
  - erewrite bind_run by (by rewrite subscript_run, Hv). done.
  - split; [done|]. exists d'. split; [done|]. split; congruence.
  - done.
  - by exists v.
Qed.

Lemma wrapped_key_le data (h h' : heap) key res :
  heap_le h h' → wrapped_key data h key res → wrapped_key data h' key res.
Proof. intros Hle (v & Hv & Hw). exists v. eauto using wrapped_le. Qed.

Lemma wrapped_index_le data (h h' : heap) index res :
  heap_le h h' → wrapped_index data h index res → wrapped_index data h' index res.
Proof. intros Hle (v & Hv & Hw). exists v. eauto using wrapped_le. Qed.

Lemma dict_state_mark (h : heap) self d keys :
  wf_heap h → h !! self = Some (ODict d) →
  dict_state self (d_data d) (d_accessed d ∪ list_to_set keys)
             (<[self := ODict (mark d keys)]> h).
Proof.
  intros Hwf Hs. split; [by apply wf_heap_mark|].
  exists (mark d keys). by rewrite lookup_insert_eq.
Qed.

Lemma td_values_spec (h : heap) self d :
  wf_heap h → h !! self = Some (ODict d) →
  ∃ vals h',
    TD.values self h = (Return vals, h') ∧
    dict_state self (d_data d) (d_accessed d ∪ list_to_set (dict_keys (d_data d))) h' ∧
    Forall2 (wrapped_key (d_data d) h') (dict_keys (d_data d)) vals.
Proof.
  intros Hwf Hs. rewrite (td_values_run _ _ _ Hs).
  edestruct (for_each_spec
               (dict_state self (d_data d)
                  (d_accessed d ∪ list_to_set (dict_keys (d_data d))))
               (wrapped_key (d_data d))
               (λ key, v <- subscript (d_data d) key;; TD._wrap self key v)
               (dict_keys (d_data d)))
    as (vals & h' & Hrun & Hst & _ & Hq).
  - intros h1 h2 key res. apply wrapped_key_le.
  - intros key h1 Hkey Hst. by apply td_wrap_key_spec.
  - by apply dict_state_mark.
  - by exists vals, h'.
Qed.

Lemma td_items_spec (h : heap) self d :
  wf_heap h → h !! self = Some (ODict d) →
  ∃ prs h',
    TD.items self h = (Return prs, h') ∧
    dict_state self (d_data d) (d_accessed d ∪ list_to_set (dict_keys (d_data d))) h' ∧
    Forall2 (λ key pr, pr.1 = key ∧ wrapped_key (d_data d) h' key pr.2)
            (dict_keys (d_data d)) prs.
Proof.
  intros Hwf Hs. rewrite (td_items_run _ _ _ Hs).
  edestruct (for_each_spec
               (dict_state self (d_data d)
                  (d_accessed d ∪ list_to_set (dict_keys (d_data d))))
               (λ h1 key (pr : string * pyval),
                  pr.1 = key ∧ wrapped_key (d_data d) h1 key pr.2)
               (λ key, v <- subscript (d_data d) key;;
                       w <- TD._wrap self key v;; ret (key, w))
               (dict_keys (d_data d)))
    as (prs & h' & Hrun & Hst & _ & Hq).
  - intros h1 h2 key pr Hle [? ?]. eauto using wrapped_key_le.
  - intros key h1 Hkey Hst.
    destruct (td_wrap_key_spec _ _ _ _ _ Hkey Hst) as (res & h2 & Hrun & Hst2 & Hle & Hw).
    exists (key, res), h2. split; [|done].
    destruct (proj1 (dict_lookup_keys _ _) Hkey) as [v Hv].
    cbv beta. unfold bind in Hrun |- *. rewrite subscript_run, Hv in Hrun |- *.
    by rewrite Hrun.
  - by apply dict_state_mark.
  - by exists prs, h'.
Qed.

Lemma tl_iter_spec (h : heap) self l :
  wf_heap h → h !! self = Some (OList l) →
  ∃ vals h',
    TL.__iter__ self h = (Return vals, h') ∧ wf_heap h' ∧ heap_le h h' ∧
    Forall2 (wrapped_index (l_data l) h')
            (Z.of_nat <$> seq 0 (length (l_data l))) vals.
Proof.
  intros Hwf Hs. rewrite (tl_iter_run _ _ _ Hs).
  edestruct (for_each_spec
               (λ h1, wf_heap h1 ∧ ∃ l1, h1 !! self = Some (OList l1) ∧ l_data l1 = l_data l)
               (wrapped_index (l_data l))
               (λ i, v <- TL.subscript (l_data l) i;; TL._wrap self i v)
               (Z.of_nat <$> seq 0 (length (l_data l))))
    as (vals & h' & Hrun & [Hwf' _] & Hle & Hq).
  - intros h1 h2 i res. apply wrapped_index_le.
  - intros i h1 (n & -> & Hn%elem_of_seq)%list_elem_of_fmap (Hwf1 & l1 & Hs1 & Hl1).
    destruct (lookup_lt_is_Some_2 (l_data l) n) as [v Hv]; [lia|].
    destruct (tl_wrap_spec h1 self l1 (Z.of_nat n) v)
      as (res & h2 & l2 & Hrun & Hle & Hwf2 & Hw & Hs2 & Hl2 & _);
      [done | done | by rewrite Hl1, list_index_nat |].
    exists res, h2. split; [|split; [|split]].
    + erewrite bind_run by (unfold TL.subscript; by rewrite list_index_nat, Hv). done.
    + split; [done|]. exists l2. split; [done | congruence].
    + done.
    + exists v. by rewrite list_index_nat.
  - eauto.
  - by exists vals, h'.
Qed.

(** * The claims *)

Lemma accessed_singleton d key :
  d_accessed (mark d [key]) = d_accessed d ∪ {[key]}.
Proof. simpl. set_solver. Qed.

Lemma td_get_spec (h : heap) self d key default :
  wf_heap h → h !! self = Some (ODict d) →
  ∃ res h' d',
    TD.get self key default h = (Return res, h') ∧
    h' !! self = Some (ODict d') ∧
    d_accessed d' = d_accessed d ∪ {[key]} ∧
    match dict_lookup key (d_data d) with
    | Some v => wrapped h' v res
    | None => res = default
    end.
Proof.
  intros Hwf Hs. rewrite (td_get_run _ _ _ _ _ Hs).
  destruct (dict_lookup key (d_data d)) as [v|] eqn:Hv.
  - destruct (td_wrap_spec (<[self := ODict (mark d [key])]> h) self (mark d [key]) key v)
      as (res & h' & d' & Hrun & _ & _ & Hw & Hs' & _ & _ & Ha).
    + by apply wf_heap_mark.
    + apply lookup_insert_eq.
    + done.
    + exists res, h', d'. rewrite Ha, accessed_singleton. done.
  - exists default, (<[self := ODict (mark d [key])]> h), (mark d [key]).
    rewrite lookup_insert_eq, accessed_singleton. done.
Qed.

(** C3.  On a store a client can reach, [M.get(k, d)] returns; afterwards [k]
    is in the accessed set of [M] (the set is the old one plus [k]) whether or
    not [k] is a key of the raw mapping; the result is the wrapped value of
    [k] when [k] is present and the default itself when it is absent. *)
Theorem C3_get (h : heap) self d key default :
  reachable h → h !! self = Some (ODict d) →
  ∃ res h' d',
    TD.get self key default h = (Return res, h') ∧
    h' !! self = Some (ODict d') ∧
    d_accessed d' = d_accessed d ∪ {[key]} ∧
    match dict_lookup key (d_data d) with
    | Some v => wrapped h' v res
    | None => res = default
    end.
Proof. intros Hr%reachable_wf. by apply td_get_spec. Qed.

(** C9.  [M[k]] on a key absent from the raw mapping raises the lookup-miss
    error, yet the store it leaves has [k] added to the accessed set of [M]
    (and nothing else changed), so [accessed_keys()] then contains [k], a key
    the raw mapping does not have. *)
Theorem C9_failed_lookup_marks (h : heap) self d key :
  h !! self = Some (ODict d) → dict_lookup key (d_data d) = None →
  ∃ h',
    TD.__getitem__ self key h = (Raise (KeyError key), h') ∧
    h' = <[self := ODict (mark d [key])]> h ∧
    TD.accessed_keys self h' = (Return (d_accessed d ∪ {[key]}), h') ∧
    key ∈ d_accessed d ∪ {[key]} ∧
    key ∉ dict_keys (d_data d).
Proof.
  intros Hs Hk. eexists. rewrite (td_getitem_run _ _ _ _ Hs), Hk.
  split; [done|]. split; [done|]. split; [|split].
  - unfold TD.accessed_keys.
    rewrite (bind_run _ _ _ _ (mark d [key]) (load_dict_run _ _ _ (lookup_insert_eq _ _ _))).
    by rewrite accessed_singleton.
  - set_solver.
  - by apply dict_lookup_None_keys.
Qed.

(** C4.  On a store a client can reach, the membership test [k in M] and the
    iteration over the keys ([iter(M)], [M.keys()]) return without changing
    the store, so the accessed set of [M] is as before; running [M.values()]
    or [M.items()] to the end leaves the accessed set of [M] equal to the old
    one plus every key of the raw mapping, and yields, key by key in the
    order of the raw mapping, the wrapped value of that key (paired with the
    key for [items]). *)
Theorem C4_marking (h : heap) self d key :
  reachable h → h !! self = Some (ODict d) →
  TD.__contains__ self key h = (Return (dict_mem key (d_data d)), h) ∧
  TD.__iter__ self h = (Return (dict_keys (d_data d)), h) ∧
  TD.keys self h = (Return (dict_keys (d_data d)), h) ∧
  (∃ vals h' d',
     TD.values self h = (Return vals, h') ∧ h' !! self = Some (ODict d') ∧
     d_accessed d' = d_accessed d ∪ list_to_set (dict_keys (d_data d)) ∧
     Forall2 (wrapped_key (d_data d) h') (dict_keys (d_data d)) vals) ∧
  (∃ prs h' d',
     TD.items self h = (Return prs, h') ∧ h' !! self = Some (ODict d') ∧
     d_accessed d' = d_accessed d ∪ list_to_set (dict_keys (d_data d)) ∧
     Forall2 (λ k pr, pr.1 = k ∧ wrapped_key (d_data d) h' k pr.2)
             (dict_keys (d_data d)) prs).
Proof.
  intros Hr%reachable_wf Hs. pose proof (load_dict_run _ _ _ Hs) as Hl.
  split; [|split; [|split; [|split]]].
  - unfold TD.__contains__. by rewrite (bind_run _ _ _ _ _ Hl).
  - unfold TD.__iter__. by rewrite (bind_run _ _ _ _ _ Hl).
  - unfold TD.keys. by rewrite (bind_run _ _ _ _ _ Hl).
  - destruct (td_values_spec _ _ _ Hr Hs) as (vals & h' & Hrun & (_ & d' & Hs' & _ & Ha) & Hq).
    by exists vals, h', d'.
  - destruct (td_items_spec _ _ _ Hr Hs) as (prs & h' & Hrun & (_ & d' & Hs' & _ & Ha) & Hq).
    by exists prs, h', d'.
Qed.

(** C10.  Every call keeps the invariant that the keys of a [TrackedDict]'s
    child cache are among its accessed keys, and no call removes a key from
    an accessed set. *)
Theorem C10_cache_subset_accessed (h : heap) (c : call) :
  cache_in_accessed h →
  cache_in_accessed (exec c h) ∧
  ∀ r d, h !! r = Some (ODict d) →
    ∃ d', exec c h !! r = Some (ODict d') ∧ d_accessed d ⊆ d_accessed d'.
Proof.
  intros Hc. destruct (exec_step h c) as (Hle & _ & Hcache). split; [auto|].
  intros r d Hr. destruct (heap_le_dict _ _ _ _ Hle Hr) as (d' & Hr' & _ & _ & Ha & _).
  eauto.
Qed.

Lemma fresh_child_path v p p' : is_Some (fresh_child v p) → is_Some (fresh_child v p').
Proof. destruct v; simpl; intros [? ?]; by eauto. Qed.

(** When [_wrap] hands out a reference, that reference is cached under the
    key afterwards. *)
Lemma td_wrap_inv (h h1 : heap) self key v c :
  TD._wrap self key v h = (Return (PRef c), h1) →
  ∃ d d1, h !! self = Some (ODict d) ∧ h1 !! self = Some (ODict d1) ∧
          dict_lookup key (d_children d1) = Some c ∧
          is_Some (fresh_child v (TD._child_path d1 key)) ∧
          d_data d1 = d_data d ∧ d_accessed d1 = d_accessed d.
Proof.
  destruct (h !! self) as [[d|l]|] eqn:Hs.
  - rewrite (td_wrap_run _ _ _ _ _ Hs).
    destruct (fresh_child v (TD._child_path d key)) as [o|] eqn:Ho; [|done].
    destruct (dict_lookup key (d_children d)) as [c'|] eqn:Hc; simpl.
    + intros [= -> ->]. exists d, d. rewrite Ho. by eauto 10.
    + intros [= <- <-]. exists d, (adopt d key (fresh (dom h))).
      rewrite lookup_insert_eq. simpl. rewrite dict_lookup_set_eq.
      repeat split; try done; unfold TD._child_path in *; simpl; by rewrite Ho.
  - destruct v; simpl; [done| |]; unfold bind, load_dict; by rewrite Hs.
  - destruct v; simpl; [done| |]; unfold bind, load_dict; by rewrite Hs.
Qed.

Lemma tl_wrap_inv (h h1 : heap) self index v c :
  TL._wrap self index v h = (Return (PRef c), h1) →
  ∃ l l1, h !! self = Some (OList l) ∧ h1 !! self = Some (OList l1) ∧
          dict_lookup index (l_children l1) = Some c ∧
          is_Some (fresh_child v (TL._child_path l1 index)) ∧
          l_data l1 = l_data l.
Proof.
  destruct (h !! self) as [[d|l]|] eqn:Hs.
  - destruct v; simpl; [done| |]; unfold bind, load_list; by rewrite Hs.
  - rewrite (tl_wrap_run _ _ _ _ _ Hs).
    destruct (fresh_child v (TL._child_path l index)) as [o|] eqn:Ho; [|done].
    destruct (dict_lookup index (l_children l)) as [c'|] eqn:Hc; simpl.
    + intros [= -> ->]. exists l, l. rewrite Ho. by eauto 10.
    + intros [= <- <-]. exists l, (adopt_at l index (fresh (dom h))).
      rewrite lookup_insert_eq. simpl. rewrite dict_lookup_set_eq.
      repeat split; try done; unfold TL._child_path in *; simpl; by rewrite Ho.
  - destruct v; simpl; [done| |]; unfold bind, load_list; by rewrite Hs.
Qed.

(** A cached child is handed out again, and the store is left as it is. *)
Lemma td_wrap_cached (h : heap) self d key v c :
  h !! self = Some (ODict d) → dict_lookup key (d_children d) = Some c →
  is_Some (fresh_child v (TD._child_path d key)) →
  TD._wrap self key v h = (Return (PRef c), h).
Proof.
  intros Hs Hc [o Ho]. by rewrite (td_wrap_run _ _ _ _ _ Hs), Ho, Hc.
Qed.

Lemma tl_wrap_cached (h : heap) self l index v c :
  h !! self = Some (OList l) → dict_lookup index (l_children l) = Some c →
  is_Some (fresh_child v (TL._child_path l index)) →
  TL._wrap self index v h = (Return (PRef c), h).
Proof.
  intros Hs Hc [o Ho]. by rewrite (tl_wrap_run _ _ _ _ _ Hs), Ho, Hc.
Qed.

Lemma td_wrap_stable (h1 h2 : heap) self d1 key v c :
  h1 !! self = Some (ODict d1) → dict_lookup key (d_children d1) = Some c →
  is_Some (fresh_child v (TD._child_path d1 key)) → heap_le h1 h2 →
  TD._wrap self key v h2 = (Return (PRef c), h2).
Proof.
  intros Hs Hc Ho Hle.
  destruct (heap_le_dict _ _ _ _ Hle Hs) as (d2 & Hs2 & _ & _ & _ & Hch).
  eapply td_wrap_cached; [done | by eapply dict_lookup_prefix |].
  by eapply fresh_child_path.
Qed.

Lemma tl_wrap_stable (h1 h2 : heap) self l1 index v c :
  h1 !! self = Some (OList l1) → dict_lookup index (l_children l1) = Some c →
  is_Some (fresh_child v (TL._child_path l1 index)) → heap_le h1 h2 →
  TL._wrap self index v h2 = (Return (PRef c), h2).
Proof.
  intros Hs Hc Ho Hle.
  destruct (heap_le_list _ _ _ _ Hle Hs) as (l2 & Hs2 & _ & _ & Hch).
  eapply tl_wrap_cached; [done | by eapply dict_lookup_prefix |].
  by eapply fresh_child_path.
Qed.

(** Marking again a key that is accessed already leaves the store as it is. *)
Lemma mark_again (h : heap) self d key :
  h !! self = Some (ODict d) → key ∈ d_accessed d →
  <[self := ODict (mark d [key])]> h = h.
Proof.
  intros Hs Hk. rewrite mark_id; [by apply insert_id|].
  by intros k ->%list_elem_of_singleton.
Qed.

(** C7.  Referential stability.  Once a descent through a node (the wrapping
    rule of either class, an indexed lookup of either class, or a defaulted
    lookup) has handed out a reference, then after any further calls the same
    descent hands out the very same reference and leaves the store exactly as
    it finds it: no second node is made for the child and the child is not
    reset; and whatever the child had recorded, it still has (objects only
    grow). *)
Theorem C7_referential_stability (m : M pyval) (h h1 : heap) c (cs : list call) :
  descent m → m h = (Return (PRef c), h1) →
  m (exec_all cs h1) = (Return (PRef c), exec_all cs h1) ∧
  heap_le h1 (exec_all cs h1).
Proof.
  intros Hm Hrun. destruct (exec_all_step h1 cs) as (Hle & _). split; [|done].
  destruct Hm as [self key v|self key|self key default|self index v|self index].
  - destruct (td_wrap_inv _ _ _ _ _ _ Hrun) as (d & d1 & _ & Hs1 & Hc & Ho & _).
    by eapply td_wrap_stable.
  - destruct (h !! self) as [[d|l]|] eqn:Hs;
      [|unfold TD.__getitem__, TD.accessed_update, bind, load_dict in Hrun;
        by rewrite Hs in Hrun..].
    rewrite (td_getitem_run _ _ _ _ Hs) in Hrun.
    destruct (dict_lookup key (d_data d)) as [v|] eqn:Hv; [|done].
    destruct (td_wrap_inv _ _ _ _ _ _ Hrun) as (d0 & d1 & Hs0 & Hs1 & Hc & Ho & Hd & Ha).
    rewrite lookup_insert_eq in Hs0. injection Hs0 as <-.
    destruct (heap_le_dict _ _ _ _ Hle Hs1) as (d2 & Hs2 & Hd2 & _ & Ha2 & _).
    rewrite (td_getitem_run _ _ _ _ Hs2), Hd2, Hd. simpl. rewrite Hv.
    rewrite mark_again;
      [exact (td_wrap_stable h1 _ self d1 key v c Hs1 Hc Ho Hle)|done|].
    apply Ha2. rewrite Ha. simpl. set_solver.
  - destruct (h !! self) as [[d|l]|] eqn:Hs;
      [|unfold TD.get, TD.accessed_update, bind, load_dict in Hrun;
        by rewrite Hs in Hrun..].
    rewrite (td_get_run _ _ _ _ _ Hs) in Hrun.
    destruct (dict_lookup key (d_data d)) as [v|] eqn:Hv.
    + destruct (td_wrap_inv _ _ _ _ _ _ Hrun) as (d0 & d1 & Hs0 & Hs1 & Hc & Ho & Hd & Ha).
      rewrite lookup_insert_eq in Hs0. injection Hs0 as <-.
      destruct (heap_le_dict _ _ _ _ Hle Hs1) as (d2 & Hs2 & Hd2 & _ & Ha2 & _).
      rewrite (td_get_run _ _ _ _ _ Hs2), Hd2, Hd. simpl. rewrite Hv.
      rewrite mark_again;
      [exact (td_wrap_stable h1 _ self d1 key v c Hs1 Hc Ho Hle)|done|].
      apply Ha2. rewrite Ha. simpl. set_solver.
    + injection Hrun as -> <-.
      assert (<[self := ODict (mark d [key])]> h !! self = Some (ODict (mark d [key])))
        as Hs1 by apply lookup_insert_eq.
      destruct (heap_le_dict _ _ _ _ Hle Hs1) as (d2 & Hs2 & Hd2 & _ & Ha2 & _).
      rewrite (td_get_run _ _ _ _ _ Hs2), Hd2. simpl. rewrite Hv.
      rewrite mark_again; [done..|]. apply Ha2. simpl. set_solver.
  - destruct (tl_wrap_inv _ _ _ _ _ _ Hrun) as (l & l1 & _ & Hs1 & Hc & Ho & _).
    by eapply tl_wrap_stable.
  - destruct (h !! self) as [[d|l]|] eqn:Hs;
      [unfold TL.__getitem__, bind, load_list in Hrun; by rewrite Hs in Hrun| |
       unfold TL.__getitem__, bind, load_list in Hrun; by rewrite Hs in Hrun].
    rewrite (tl_getitem_run _ _ _ _ Hs) in Hrun.
    destruct (list_index (l_data l) index) as [v|] eqn:Hv; [|done].
    destruct (tl_wrap_inv _ _ _ _ _ _ Hrun) as (l0 & l1 & Hs0 & Hs1 & Hc & Ho & Hd).
    assert (l0 = l) as -> by congruence.
    destruct (heap_le_list _ _ _ _ Hle Hs1) as (l2 & Hs2 & Hd2 & _).
    rewrite (tl_getitem_run _ _ _ _ Hs2), Hd2, Hd, Hv.
    exact (tl_wrap_stable h1 _ self l1 index v c Hs1 Hc Ho Hle).
Qed.

(** C8.  Equality looks at the raw data only.  A tracked node compared with
    a plain structure of its variant answers whether its raw data equals that
    structure; compared with another tracked node of its variant, whether the
    two raw structures are equal; the store is left as it is, and the answer
    is the same in any store where the node wraps the same raw data, whatever
    the accessed sets and child caches are. *)
Theorem C8_equality (h : heap) self o :
  h !! self = Some o →
  (∀ v, same_variant o v →
     tracked_eq self (PRaw v) h = (Return (EqBool (value_eqb (raw_of o) v)), h)) ∧
  (∀ r o', h !! r = Some o' → same_variant o (raw_of o') →
     tracked_eq self (PRef r) h =
       (Return (EqBool (value_eqb (raw_of o) (raw_of o'))), h)) ∧
  (∀ (h' : heap) o2 v, h' !! self = Some o2 → raw_of o2 = raw_of o →
     (tracked_eq self (PRaw v) h').1 = (tracked_eq self (PRaw v) h).1) ∧
  (∀ (h' : heap) o2 r o' o2',
     h' !! self = Some o2 → raw_of o2 = raw_of o →
     h !! r = Some o' → h' !! r = Some o2' → raw_of o2' = raw_of o' →
     (tracked_eq self (PRef r) h').1 = (tracked_eq self (PRef r) h).1).
Proof.
  intros Hs. split; [|split; [|split]].
  - intros v Hv. unfold tracked_eq. rewrite Hs.
    destruct o as [d|l], v as [s|kvs|vs]; try done.
    + unfold TD.__eq__. by rewrite (bind_run _ _ _ _ _ (load_dict_run _ _ _ Hs)).
    + unfold TL.__eq__. by rewrite (bind_run _ _ _ _ _ (load_list_run _ _ _ Hs)).
  - intros r o' Hr Hv. unfold tracked_eq. rewrite Hs.
    destruct o as [d|l], o' as [d'|l']; try done.
    + unfold TD.__eq__. rewrite (bind_run _ _ _ _ _ (load_dict_run _ _ _ Hs)).
      by rewrite Hr.
    + unfold TL.__eq__. rewrite (bind_run _ _ _ _ _ (load_list_run _ _ _ Hs)).
      by rewrite Hr.
  - intros h' o2 v Hs' Hraw. unfold tracked_eq. rewrite Hs, Hs'.
    destruct o as [d|l], o2 as [d2|l2]; try done; simpl in Hraw.
    + unfold TD.__eq__.
      rewrite (bind_run _ _ _ _ _ (load_dict_run _ _ _ Hs)).
      rewrite (bind_run _ _ _ _ _ (load_dict_run _ _ _ Hs')).
      injection Hraw as Hraw. rewrite Hraw. by destruct v.
    + unfold TL.__eq__.
      rewrite (bind_run _ _ _ _ _ (load_list_run _ _ _ Hs)).
      rewrite (bind_run _ _ _ _ _ (load_list_run _ _ _ Hs')).
      injection Hraw as Hraw. rewrite Hraw. by destruct v.
  - intros h' o2 r o' o2' Hs' Hraw Hr Hr' Hraw'. unfold tracked_eq. rewrite Hs, Hs'.
    destruct o as [d|l], o2 as [d2|l2]; try done; simpl in Hraw.
    + unfold TD.__eq__.
      rewrite (bind_run _ _ _ _ _ (load_dict_run _ _ _ Hs)).
      rewrite (bind_run _ _ _ _ _ (load_dict_run _ _ _ Hs')).
      rewrite Hr, Hr'. injection Hraw as Hraw. rewrite Hraw.
      destruct o' as [d'|l'], o2' as [d2'|l2']; try done.
      injection Hraw' as Hraw'. by rewrite Hraw'.
    + unfold TL.__eq__.
      rewrite (bind_run _ _ _ _ _ (load_list_run _ _ _ Hs)).
      rewrite (bind_run _ _ _ _ _ (load_list_run _ _ _ Hs')).
      rewrite Hr, Hr'. injection Hraw as Hraw. rewrite Hraw.
      destruct o' as [d'|l'], o2' as [d2'|l2']; try done.
      injection Hraw' as Hraw'. by rewrite Hraw'.
Qed.

(** ** Which calls can fail *)

Lemma returns_intro {A} (c : M A) (h h' : heap) a : c h = (Return a, h') → returns c h.
Proof. intros Hc. by exists a, h'. Qed.

Lemma td_readers_return (h : heap) self d :
  h !! self = Some (ODict d) →
  (∀ key, returns (TD.__contains__ self key) h) ∧
  returns (TD.__len__ self) h ∧
  returns (TD.__bool__ self) h ∧
  returns (TD.__iter__ self) h ∧
  returns (TD.keys self) h ∧
  returns (TD.raw self) h ∧
  returns (TD.accessed_keys self) h ∧
  (∀ other, returns (TD.__eq__ self other) h).
Proof.
  intros Hs. pose proof (load_dict_run _ _ _ Hs) as Hl.
  repeat split; try intros x;
    cbv [TD.__contains__ TD.__len__ TD.__bool__ TD.__iter__ TD.keys TD.raw
         TD.accessed_keys TD.__eq__];
    try (eapply returns_intro; by rewrite (bind_run _ _ _ _ _ Hl)).
  unfold returns. rewrite (bind_run _ _ _ _ _ Hl).
  destruct x as [[s|kvs|vs]|o']; [by eexists _, _..|].
  destruct (h !! o') as [[|]|]; by eexists _, _.
Qed.

Lemma td_markers_return (h : heap) self d :
  h !! self = Some (ODict d) →
  (∀ keys, returns (TD.mark_accessed self keys) h) ∧
  returns (TD.mark_all_accessed self) h.
Proof.
  intros Hs. split.
  - intros keys. eapply returns_intro. unfold TD.mark_accessed.
    by rewrite (accessed_update_run _ _ _ _ Hs).
  - eapply returns_intro. unfold TD.mark_all_accessed.
    rewrite (bind_run _ _ _ _ _ (load_dict_run _ _ _ Hs)).
    by rewrite (accessed_update_run _ _ _ _ Hs).
Qed.

Lemma tl_readers_return (h : heap) self l :
  h !! self = Some (OList l) →
  returns (TL.__len__ self) h ∧
  returns (TL.__bool__ self) h ∧
  returns (TL.raw self) h ∧
  (∀ other, returns (TL.__eq__ self other) h).
Proof.
  intros Hs. pose proof (load_list_run _ _ _ Hs) as Hl.
  repeat split; try intros x;
    cbv [TL.__len__ TL.__bool__ TL.raw TL.__eq__];
    try (eapply returns_intro; by rewrite (bind_run _ _ _ _ _ Hl)).
  unfold returns. rewrite (bind_run _ _ _ _ _ Hl).
  destruct x as [[s|kvs|vs]|o']; [by eexists _, _..|].
  destruct (h !! o') as [[|]|]; by eexists _, _.
Qed.

Lemma reports_total (h : heap) self o :
  wf_heap h → h !! self = Some o → ∃ res, reports h self res.
Proof.
  intros Hwf Hs.
  destruct (unaccessed_total (depth (raw_of o)) h self o) as [res Hres]; [done..|].
  by exists res, (depth (raw_of o)).
Qed.

(** C6.  On a store a client can reach: the indexed lookup on a map node
    raises the lookup-miss error when the key is absent from the raw mapping
    and returns otherwise; the indexed lookup on a sequence node raises the
    index error when the index is outside [-len, len) and returns otherwise;
    the constructors and every other method of either class return, and
    [unaccessed()] produces its report. *)
Theorem C6_failures (h : heap) :
  reachable h →
  (∀ self d, h !! self = Some (ODict d) →
     (∀ key, match dict_lookup key (d_data d) with
             | None => raises (TD.__getitem__ self key) (KeyError key) h
             | Some _ => returns (TD.__getitem__ self key) h
             end) ∧
     (∀ key default, returns (TD.get self key default) h) ∧
     (∀ key, returns (TD.__contains__ self key) h) ∧
     returns (TD.__len__ self) h ∧
     returns (TD.__bool__ self) h ∧
     returns (TD.__iter__ self) h ∧
     returns (TD.keys self) h ∧
     returns (TD.values self) h ∧
     returns (TD.items self) h ∧
     returns (TD.raw self) h ∧
     (∀ keys, returns (TD.mark_accessed self keys) h) ∧
     returns (TD.mark_all_accessed self) h ∧
     returns (TD.accessed_keys self) h ∧
     (∀ other, returns (TD.__eq__ self other) h) ∧
     (∃ res, reports h self res)) ∧
  (∀ self l, h !! self = Some (OList l) →
     (∀ index, if decide (- Z.of_nat (length (l_data l)) ≤ index
                            < Z.of_nat (length (l_data l)))
               then returns (TL.__getitem__ self index) h
               else raises (TL.__getitem__ self index) IndexError h) ∧
     returns (TL.__len__ self) h ∧
     returns (TL.__bool__ self) h ∧
     returns (TL.__iter__ self) h ∧
     returns (TL.raw self) h ∧
     (∀ other, returns (TL.__eq__ self other) h) ∧
     (∃ res, reports h self res)) ∧
  (∀ data path, returns (TD.__init__ data path) h) ∧
  (∀ data path, returns (TL.__init__ data path) h).
Proof.
  intros Hwf%reachable_wf. split; [|split; [|split]].
  - intros self d Hs.
    destruct (td_readers_return _ _ _ Hs) as (?&?&?&?&?&?&?&?).
    destruct (td_markers_return _ _ _ Hs) as (?&?).
    repeat split; try done.
    + intros key. unfold raises, returns. rewrite (td_getitem_run _ _ _ _ Hs).
      destruct (dict_lookup key (d_data d)) as [v|] eqn:Hv; [|by eexists].
      destruct (td_wrap_spec (<[self := ODict (mark d [key])]> h) self (mark d [key]) key v)
        as (res & h' & d' & Hrun & _);
        [by apply wf_heap_mark | apply lookup_insert_eq | done |].
      by exists res, h'.
    + intros key default.
      destruct (td_get_spec h self d key default Hwf Hs) as (res & h' & d' & Hrun & _).
      by exists res, h'.
    + destruct (td_values_spec _ _ _ Hwf Hs) as (vals & h' & Hrun & _).
      by exists vals, h'.
    + destruct (td_items_spec _ _ _ Hwf Hs) as (prs & h' & Hrun & _).
      by exists prs, h'.
    + by eapply reports_total.
  - intros self l Hs.
    destruct (tl_readers_return _ _ _ Hs) as (?&?&?&?).
    repeat split; try done.
    + intros index. unfold raises, returns. rewrite (tl_getitem_run _ _ _ _ Hs).
      pose proof (list_index_is_Some (l_data l) index) as Hi.
      case_decide as Hb.
      * destruct (proj2 Hi Hb) as [v Hv]. rewrite Hv.
        destruct (tl_wrap_spec h self l index v) as (res & h' & l' & Hrun & _);
          [done..|].
        by exists res, h'.
      * destruct (list_index (l_data l) index) as [v|] eqn:Hv; [|by eexists].
        destruct Hb. apply Hi. by eexists.
    + destruct (tl_iter_spec _ _ _ Hwf Hs) as (vals & h' & Hrun & _).
      by exists vals, h'.
    + by eapply reports_total.
  - intros data path. by eexists _, _.
  - intros data path. by eexists _, _.
Qed.

(** ** The order of the report *)

Lemma ascii_compare_N a b :
  Ascii.compare a b = N.compare (Ascii.N_of_ascii a) (Ascii.N_of_ascii b).
Proof. done. Qed.

Lemma string_le_lex s t : String.le s t ↔ lex_le s t.
Proof.
  unfold String.le, String.leb. revert t.
  induction s as [|a s IH]; intros [|b t]; simpl.
  - split; [constructor | done].
  - split; [constructor | done].
  - split; [done | inversion 1].
  - rewrite ascii_compare_N.
    destruct (N.compare_spec (Ascii.N_of_ascii a) (Ascii.N_of_ascii b)) as [Heq|Hlt|Hgt].
    + apply (f_equal Ascii.ascii_of_N) in Heq.
      rewrite !Ascii.ascii_N_embedding in Heq. subst b. rewrite IH.
      split; [by constructor|]. inversion 1; subst; [lia | done].
    + split; [by constructor | done].
    + split; [done|]. inversion 1; subst; lia.
Qed.

Lemma StronglySorted_lex l : StronglySorted String.le l ↔ StronglySorted lex_le l.
Proof.
  split; induction 1 as [|s l' _ IH Hall]; constructor; try done;
    (eapply Forall_impl; [done|]; intros t; apply string_le_lex).
Qed.

Lemma sorted_lex l : StronglySorted lex_le (sorted l).
Proof. apply StronglySorted_lex, sorted_StronglySorted. Qed.

Lemma sorted_lex_unique l res :
  StronglySorted lex_le res → res ≡ₚ l → res = sorted l.
Proof. intros Hs%StronglySorted_lex Hp. by apply sorted_unique. Qed.

(** ** The reporting algorithm *)

Lemma contribution_emits fuel (h : heap) d key part :
  contribution fuel h d key = Some part → emits h d key part.
Proof.
  unfold contribution. case_decide as Hk.
  - intros [= <-]. by constructor.
  - destruct (dict_lookup key (d_children d)) as [c|] eqn:Hc.
    + intros Hu. eapply emits_child; [done..|]. by exists fuel.
    + intros [= <-]. by constructor.
Qed.

Lemma contribution_fuel_mono fuel fuel' (h : heap) d key part :
  contribution fuel h d key = Some part → (fuel ≤ fuel')%nat →
  contribution fuel' h d key = Some part.
Proof.
  unfold contribution. case_decide; [done|].
  destruct (dict_lookup key (d_children d)); [|done].
  apply unaccessed_fuel_mono.
Qed.

Lemma emits_contribution (h : heap) d key part :
  emits h d key part → ∃ fuel, contribution fuel h d key = Some part.
Proof.
  unfold contribution. intros [Hk|c res Hk Hc [fuel Hu]|Hk Hc].
  - exists 0%nat. by rewrite decide_True.
  - exists fuel. rewrite decide_False by (intros ?; done). by rewrite Hc.
  - exists 0%nat. rewrite decide_False by (intros ?; done). by rewrite Hc.
Qed.

(** The rounds of the loop can share one amount of fuel. *)
Lemma emits_all_contribution (h : heap) d keys parts :
  Forall2 (emits h d) keys parts →
  ∃ fuel, mapM (contribution fuel h d) keys = Some parts.
Proof.
  induction 1 as [|key part keys parts He _ [fuel IH]].
  - by exists 0%nat.
  - destruct (emits_contribution _ _ _ _ He) as [fuel1 H1].
    exists (fuel1 `max` fuel)%nat. apply mapM_Some. constructor.
    + eapply contribution_fuel_mono; [done | lia].
    + apply mapM_Some in IH. eapply Forall2_impl; [done|].
      intros k p Hkp. eapply contribution_fuel_mono; [exact Hkp | lia].
Qed.

(** C2.  For a [TrackedDict] [M], [M.unaccessed()] returns [res] exactly
    when [res] is the lexicographically sorted arrangement of what is
    collected by visiting the keys of the raw mapping in their order: for a
    key not in the accessed set, its path and nothing below it; for a key in
    the accessed set with a cached child, the child's own [unaccessed()]
    report; for a key in the accessed set with no cached child, nothing. *)
Theorem C2_unaccessed_algorithm (h : heap) self d res :
  h !! self = Some (ODict d) →
  reports h self res ↔
  ∃ parts, Forall2 (emits h d) (dict_keys (d_data d)) parts ∧
           StronglySorted lex_le res ∧ res ≡ₚ concat parts.
Proof.
  intros Hs. split.
  - intros [[|fuel] Hu]; [done|]. rewrite (unaccessed_dict _ _ _ _ Hs) in Hu.
    destruct (mapM (contribution fuel h d) _) as [parts|] eqn:Hp; [|done].
    injection Hu as <-. exists parts. split; [|split].
    + apply mapM_Some in Hp. eapply Forall2_impl; [done|].
      intros key part. apply contribution_emits.
    + apply sorted_lex.
    + apply sorted_Permutation.
  - intros (parts & He & Hsorted & Hperm).
    destruct (emits_all_contribution _ _ _ _ He) as [fuel Hp].
    exists (S fuel). rewrite (unaccessed_dict _ _ _ _ Hs), Hp. simpl.
    f_equal. symmetry. by apply sorted_lex_unique.
Qed.

(** ** Paths *)

Lemma node_of_path v p o : node_of v p o → path_of o = p.
Proof. destruct v, o; simpl; try done; by intros [_ ->]. Qed.

(** The child [_wrap] hands out carries the composed path. *)
Lemma td_wrap_path (h h' : heap) self d key v c :
  wf_heap h → h !! self = Some (ODict d) → dict_lookup key (d_data d) = Some v →
  TD._wrap self key v h = (Return (PRef c), h') →
  ∃ o, h' !! c = Some o ∧ path_of o = TD._child_path d key.
Proof.
  intros Hwf Hs Hv. rewrite (td_wrap_run _ _ _ _ _ Hs).
  destruct (fresh_child v (TD._child_path d key)) as [o|] eqn:Ho; [|done].
  destruct (dict_lookup key (d_children d)) as [c'|] eqn:Hc; simpl.
  - intros [= -> ->].
    destruct (Hwf _ _ Hs _ _ (dict_lookup_elem _ _ _ Hc)) as (v' & o' & _ & Hc' & Hn).
    exists o'. eauto using node_of_path.
  - intros [= <- <-]. exists o.
    rewrite lookup_insert_ne by eauto using fresh_ne. rewrite lookup_insert_eq.
    eauto using node_of_path, node_of_fresh_child.
Qed.

Lemma tl_wrap_path (h h' : heap) self l index v c :
  wf_heap h → h !! self = Some (OList l) → list_index (l_data l) index = Some v →
  TL._wrap self index v h = (Return (PRef c), h') →
  ∃ o, h' !! c = Some o ∧ path_of o = TL._child_path l index.
Proof.
  intros Hwf Hs Hv. rewrite (tl_wrap_run _ _ _ _ _ Hs).
  destruct (fresh_child v (TL._child_path l index)) as [o|] eqn:Ho; [|done].
  destruct (dict_lookup index (l_children l)) as [c'|] eqn:Hc; simpl.
  - intros [= -> ->].
    destruct (Hwf _ _ Hs _ _ (dict_lookup_elem _ _ _ Hc)) as (v' & o' & _ & Hc' & Hn).
    exists o'. eauto using node_of_path.
  - intros [= <- <-]. exists o.
    rewrite lookup_insert_ne by eauto using fresh_ne. rewrite lookup_insert_eq.
    eauto using node_of_path, node_of_fresh_child.
Qed.

Lemma td_getitem_path (h h' : heap) self d key c :
  wf_heap h → h !! self = Some (ODict d) →
  TD.__getitem__ self key h = (Return (PRef c), h') →
  ∃ o, h' !! c = Some o ∧ path_of o = TD._child_path d key.
Proof.
  intros Hwf Hs. rewrite (td_getitem_run _ _ _ _ Hs).
  destruct (dict_lookup key (d_data d)) as [v|] eqn:Hv; [|done].
  intros Hrun.
  eapply (td_wrap_path _ _ _ (mark d [key])) in Hrun;
    [done | by apply wf_heap_mark | apply lookup_insert_eq | done].
Qed.

Lemma tl_getitem_path (h h' : heap) self l index c :
  wf_heap h → h !! self = Some (OList l) →
  TL.__getitem__ self index h = (Return (PRef c), h') →
  ∃ o, h' !! c = Some o ∧ path_of o = TL._child_path l index.
Proof.
  intros Hwf Hs. rewrite (tl_getitem_run _ _ _ _ Hs).
  destruct (list_index (l_data l) index) as [v|] eqn:Hv; [|done].
  by apply tl_wrap_path.
Qed.

Lemma elem_of_concat {A} (x : A) (ls : list (list A)) :
  x ∈ concat ls ↔ ∃ l, l ∈ ls ∧ x ∈ l.
Proof.
  induction ls as [|l ls IH]; simpl.
  - split; [by intros ?%elem_of_nil | by intros (l & ?%elem_of_nil & _)].
  - rewrite elem_of_app, IH. split.
    + intros [Hx|(l' & Hl' & Hx)]; [exists l; split; [left | done]|].
      exists l'. split; [by right | done].
    + intros (l' & [->|Hl']%elem_of_cons & Hx); [by left|]. right. by exists l'.
Qed.

(** The path of a key that was never read is in the report. *)
Lemma unaccessed_key_reported (h : heap) self d key res :
  h !! self = Some (ODict d) → key ∈ dict_keys (d_data d) →
  key ∉ d_accessed d → reports h self res → TD._child_path d key ∈ res.
Proof.
  intros Hs Hkey Hk [[|fuel] Hu]; [done|].
  rewrite (unaccessed_dict _ _ _ _ Hs) in Hu.
  destruct (mapM (contribution fuel h d) _) as [parts|] eqn:Hp; [|done].
  injection Hu as <-. apply sorted_elem_of, elem_of_concat.
  exists [TD._child_path d key]. split; [|left].
  apply mapM_Some in Hp. apply list_elem_of_lookup in Hkey as [i Hi].
  destruct (Forall2_lookup_l _ _ _ _ _ Hp Hi) as (part & Hpart & Hc).
  unfold contribution in Hc. rewrite decide_True in Hc by done.
  injection Hc as <-. by eapply list_elem_of_lookup_2.
Qed.

(** C5.  Path composition.  On a store a client can reach: the child an
    indexed lookup on a map node with path [p] hands out for [key] has path
    [p + "." + key], or just [key] when [p] is empty; the child an indexed
    lookup on a sequence node with path [p] hands out for index [i] has path
    [p + "[i]"]; and a key that was never read is reported under the path
    composed in the same way.  As the child's path is again the [p] of the
    next level, this holds at any depth and through any mix of maps and
    sequences.  In particular, on [{"a":{"b":[{"c":1,"d":2}]}}], after
    reading [a], then [b], then element [0], then [c], the report of the root
    is exactly [["a.b[0].d"]]. *)
Theorem C5_path_composition :
  (∀ (h h' : heap) self d key c,
     reachable h → h !! self = Some (ODict d) →
     TD.__getitem__ self key h = (Return (PRef c), h') →
     ∃ o, h' !! c = Some o ∧
          path_of o = if decide (d_path d = "") then key
                      else d_path d +:+ "." +:+ key) ∧
  (∀ (h h' : heap) self l index c,
     reachable h → h !! self = Some (OList l) →
     TL.__getitem__ self index h = (Return (PRef c), h') →
     ∃ o, h' !! c = Some o ∧
          path_of o = l_path l +:+ "[" +:+ pretty index +:+ "]") ∧
  (∀ (h : heap) self d key res,
     h !! self = Some (ODict d) → key ∈ dict_keys (d_data d) →
     key ∉ d_accessed d → reports h self res →
     (if decide (d_path d = "") then key else d_path d +:+ "." +:+ key) ∈ res) ∧
  (∃ root h, nested_reads ∅ = (Return root, h) ∧ reports h root ["a.b[0].d"]).
Proof.
  split; [|split; [|split]].
  - intros h h' self d key c Hr%reachable_wf Hs Hrun.
    by apply (td_getitem_path h h' self d key c).
  - intros h h' self l index c Hr%reachable_wf Hs Hrun.
    by apply (tl_getitem_path h h' self l index c).
  - intros h self d key res. apply unaccessed_key_reported.
  - eexists _, _. split; [by vm_compute|]. exists 5%nat. by vm_compute.
Qed.

(** ** Paths do not collide *)

Lemma str_app_assoc (s1 s2 s3 : string) : (s1 +:+ s2) +:+ s3 = s1 +:+ (s2 +:+ s3).
Proof.
  induction s1 as [|a s1 IH]; [done|].
  change (String a ((s1 +:+ s2) +:+ s3) = String a (s1 +:+ (s2 +:+ s3))).
  by rewrite IH.
Qed.



Lemma str_app_cons_nonempty (q : string) a r : q +:+ String a r ≠ "".
Proof. by destruct q. Qed.






Lemma below_trans_dot q key p : below (q +:+ "." +:+ key) p → below q p.
Proof.
  intros [[r ->]|[r ->]]; left.
  - exists (key +:+ "." +:+ r). by rewrite !str_app_assoc.
  - exists (key +:+ "[" +:+ r). by rewrite !str_app_assoc.
Qed.

Lemma below_trans_index q (i : Z) p : below (q +:+ "[" +:+ pretty i +:+ "]") p → below q p.
Proof.
  intros [[r ->]|[r ->]]; right.
  - exists (pretty i +:+ "]" +:+ "." +:+ r). by rewrite !str_app_assoc.
  - exists (pretty i +:+ "]" +:+ "[" +:+ r). by rewrite !str_app_assoc.
Qed.

(** Everything a node with a non-empty path, or a sequence node, reports
    lies strictly below the node's own path. *)
Lemma report_below fuel (h : heap) c o res :
  wf_heap h → h !! c = Some o →
  path_of o ≠ "" ∨ (∃ l, o = OList l) →
  unaccessed fuel h c = Some res → ∀ p, p ∈ res → below (path_of o) p.
Proof.
  intros Hwf. revert c o res.
  induction fuel as [|fuel IH]; intros c o res Hc Hpath Hu p Hp; [done|].
  pose proof (Hwf _ _ Hc) as Ho. destruct o as [d|l]; simpl in Ho, Hpath; simpl.
  - destruct Hpath as [Hne|[l [=]]].
    rewrite (unaccessed_dict _ _ _ _ Hc) in Hu.
    destruct (mapM (contribution fuel h d) _) as [parts|] eqn:Hparts; [|done].
    injection Hu as <-. apply sorted_elem_of, elem_of_concat in Hp as (part & Hpart & Hp).
    apply mapM_Some in Hparts. apply list_elem_of_lookup in Hpart as [i Hi].
    destruct (Forall2_lookup_r _ _ _ _ _ Hparts Hi) as (key & Hkey & Hcon).
    unfold contribution in Hcon. case_decide as Hk.
    + injection Hcon as <-. apply list_elem_of_singleton in Hp as ->.
      left. exists key. unfold TD._child_path. by rewrite decide_False.
    + destruct (dict_lookup key (d_children d)) as [c'|] eqn:Hc'.
      2: { injection Hcon as <-. by apply elem_of_nil in Hp. }
      destruct (Ho _ _ (dict_lookup_elem _ _ _ Hc')) as (v & o' & _ & Hco' & Hn).
      apply node_of_path in Hn. unfold TD._child_path in Hn.
      rewrite decide_False in Hn by done.
      assert (below (path_of o') p) as Hbelow.
      { eapply (IH c' o'); [done| |done..]. left. rewrite Hn.
        apply (str_app_cons_nonempty _ "."%char key). }
      rewrite Hn in Hbelow. by apply (below_trans_dot _ key).
  - rewrite (unaccessed_list _ _ _ _ Hc) in Hu.
    destruct (mapM (unaccessed fuel h) _) as [parts|] eqn:Hparts; [|done].
    injection Hu as <-. apply sorted_elem_of, elem_of_concat in Hp as (part & Hpart & Hp).
    apply mapM_Some in Hparts. apply list_elem_of_lookup in Hpart as [i Hi].
    destruct (Forall2_lookup_r _ _ _ _ _ Hparts Hi) as (c' & Hci & Hcon).
    apply list_elem_of_lookup_2, list_elem_of_fmap in Hci as ([j c''] & -> & Hjc).
    destruct (Ho _ _ Hjc) as (v & o' & _ & Hco' & Hn).
    apply node_of_path in Hn. unfold TL._child_path in Hn.
    assert (below (path_of o') p) as Hbelow.
    { eapply (IH c'' o'); [done| |done..]. left. rewrite Hn.
      apply (str_app_cons_nonempty _ "["%char (pretty j +:+ "]")). }
    rewrite Hn in Hbelow. by apply (below_trans_index _ j).
Qed.


(** ** Marking a key *)

Lemma reports_dict_inv (h : heap) self d res :
  h !! self = Some (ODict d) → reports h self res →
  ∃ parts, Forall2 (emits h d) (dict_keys (d_data d)) parts ∧
           res = sorted (concat parts).
Proof.
  intros Hs [[|fuel] Hu]; [done|]. rewrite (unaccessed_dict _ _ _ _ Hs) in Hu.
  destruct (mapM (contribution fuel h d) _) as [parts|] eqn:Hp; [|done].
  injection Hu as <-. exists parts. split; [|done].
  apply mapM_Some in Hp. eapply Forall2_impl; [done|].
  intros key part. apply contribution_emits.
Qed.



Lemma section_wrapped_reachable : reachable section_wrapped.
Proof.
  exact (reachable_exec _ (OnDict 0%nat (DGetItem "section"))
           (reachable_exec _ (NewDict section_tree "") reachable_empty)).
Qed.

(** C1.  Marking a key does not silence its subtree once a child is cached
    for it.  With [{"section": {"a": 1, "b": 2}}], after [M["section"]] has
    wrapped the child, [M.mark_accessed("section")] returns and leaves the
    store exactly as it was (the key is accessed already, and marking touches
    neither the cache nor the child), and [M.unaccessed()] then returns
    [["section.a"; "section.b"]]: two paths inside the subtree of the marked
    key, where C1 has none.  On the same tree with nothing read, where no
    child is cached, the report after the same marking is empty, as the test
    [test_mark_accessed_skips_nested_report] has it. *)
Theorem C1_cached_child_still_reported :
  reachable section_wrapped ∧
  section_wrapped !! 0%nat = Some (ODict section_root) ∧
  TD.mark_accessed 0%nat ["section"] section_wrapped = (Return tt, section_wrapped) ∧
  "section" ∈ d_accessed section_root ∧
  (∀ res, reports section_wrapped 0%nat res ↔ res = ["section.a"; "section.b"]) ∧
  in_subtree (TD._child_path section_root "section") "section.a" ∧
  in_subtree (TD._child_path section_root "section") "section.b" ∧
  ¬ mark_silences_subtree ∧
  (∀ res, reports (final (TD.mark_accessed 0%nat ["section"]) section_store) 0%nat res
          ↔ res = []).
Proof.
  assert (section_wrapped !! 0%nat = Some (ODict section_root)) as Hroot
    by (vm_compute; reflexivity).
  assert (TD.mark_accessed 0%nat ["section"] section_wrapped
            = (Return tt, section_wrapped)) as Hmark
    by (vm_compute; reflexivity).
  assert (unaccessed 3 section_wrapped 0%nat = Some ["section.a"; "section.b"]) as Hrep
    by (vm_compute; reflexivity).
  assert (in_subtree (TD._child_path section_root "section") "section.a") as Ha
    by (right; left; by exists "a").
  split; [exact section_wrapped_reachable|]. split; [done|]. split; [done|].
  split; [unfold section_root; simpl; set_solver|].
  split; [|split; [done|split]].
  - intros res. split.
    + intros [fuel Hu]. exact (unaccessed_deterministic _ _ _ _ _ _ Hu Hrep).
    + intros ->. by exists 3%nat.
  - right. left. by exists "b".
  - split.
    + intros Hclaim.
      refine (Hclaim section_wrapped section_wrapped 0%nat section_root "section"
                ["section.a"; "section.b"] "section.a"
                section_wrapped_reachable Hroot Hmark _ Ha _).
      * by exists 3%nat.
      * left.
    + assert (unaccessed 1 (final (TD.mark_accessed 0%nat ["section"]) section_store)
                0%nat = Some []) as Hnone by (vm_compute; reflexivity).
      intros res. split.
      * intros [fuel Hu]. exact (unaccessed_deterministic _ _ _ _ _ _ Hu Hnone).
      * intros ->. by exists 1%nat.
Qed.

(** * The theorems at work on concrete stores *)

Lemma small_store_reachable : reachable small_store.
Proof. exact (reachable_exec _ (NewDict small_tree "") reachable_empty). Qed.

Lemma small_list_store_reachable : reachable small_list_store.
Proof. exact (reachable_exec _ (NewList [VDict small_tree] "") reachable_empty). Qed.

(** The repository's own scenario: nothing read, the section marked, and the
    report is empty. *)
Lemma mark_accessed_unread_section :
  reports (final (TD.mark_accessed 0%nat ["section"]) section_store) 0%nat [].
Proof. exists 1%nat. by vm_compute. Qed.

Lemma C2_unaccessed_algorithm_witness :
  small_store !! 0%nat = Some (ODict small_root) ∧
  (reports small_store 0%nat ["a"] ↔
   ∃ parts, Forall2 (emits small_store small_root) (dict_keys (d_data small_root)) parts ∧
            StronglySorted lex_le ["a"] ∧ ["a"] ≡ₚ concat parts).
Proof.
  split; [vm_compute; reflexivity|].
  apply (C2_unaccessed_algorithm small_store 0%nat small_root ["a"]).
  vm_compute; reflexivity.
Defined.

Lemma C3_get_witness :
  reachable small_store ∧ small_store !! 0%nat = Some (ODict small_root) ∧
  ∃ res h' d',
    TD.get 0%nat "z" (PRaw (VScalar SNone)) small_store = (Return res, h') ∧
    h' !! 0%nat = Some (ODict d') ∧
    d_accessed d' = d_accessed small_root ∪ {["z"]} ∧
    match dict_lookup "z" (d_data small_root) with
    | Some v => wrapped h' v res
    | None => res = PRaw (VScalar SNone)
    end.
Proof.
  split; [exact (reachable_exec _ (NewDict small_tree "") reachable_empty)|].
  split; [vm_compute; reflexivity|].
  apply (C3_get small_store 0%nat small_root "z" (PRaw (VScalar SNone))).
  - exact (reachable_exec _ (NewDict small_tree "") reachable_empty).
  - vm_compute; reflexivity.
Defined.

Lemma C4_marking_witness :
  reachable small_store ∧ small_store !! 0%nat = Some (ODict small_root) ∧
  TD.__contains__ 0%nat "a" small_store
    = (Return (dict_mem "a" (d_data small_root)), small_store) ∧
  TD.__iter__ 0%nat small_store = (Return (dict_keys (d_data small_root)), small_store) ∧
  TD.keys 0%nat small_store = (Return (dict_keys (d_data small_root)), small_store) ∧
  (∃ vals h' d',
     TD.values 0%nat small_store = (Return vals, h') ∧ h' !! 0%nat = Some (ODict d') ∧
     d_accessed d' = d_accessed small_root ∪ list_to_set (dict_keys (d_data small_root)) ∧
     Forall2 (wrapped_key (d_data small_root) h') (dict_keys (d_data small_root)) vals) ∧
  (∃ prs h' d',
     TD.items 0%nat small_store = (Return prs, h') ∧ h' !! 0%nat = Some (ODict d') ∧
     d_accessed d' = d_accessed small_root ∪ list_to_set (dict_keys (d_data small_root)) ∧
     Forall2 (λ k pr, pr.1 = k ∧ wrapped_key (d_data small_root) h' k pr.2)
             (dict_keys (d_data small_root)) prs).
Proof.
  split; [exact (reachable_exec _ (NewDict small_tree "") reachable_empty)|].
  split; [vm_compute; reflexivity|].
  apply (C4_marking small_store 0%nat small_root "a").
  - exact (reachable_exec _ (NewDict small_tree "") reachable_empty).
  - vm_compute; reflexivity.
Defined.

Lemma C5_path_composition_witness :
  reachable small_list_store ∧
  small_list_store !! 0%nat = Some (OList small_list_root) ∧
  TL.__getitem__ 0%nat (-1) small_list_store
    = (Return (PRef 1%nat), exec (OnList 0%nat (LGetItem (-1))) small_list_store) ∧
  ∃ o, exec (OnList 0%nat (LGetItem (-1))) small_list_store !! 1%nat = Some o ∧
       path_of o = l_path small_list_root +:+ "[" +:+ pretty (-1) +:+ "]".
Proof.
  split; [exact (reachable_exec _ (NewList [VDict small_tree] "") reachable_empty)|].
  split; [vm_compute; reflexivity|].
  split; [vm_compute; reflexivity|].
  apply (proj1 (proj2 C5_path_composition) small_list_store _ 0%nat small_list_root (-1)).
  - exact (reachable_exec _ (NewList [VDict small_tree] "") reachable_empty).
  - vm_compute; reflexivity.
  - vm_compute; reflexivity.
Defined.

Lemma C6_failures_witness :
  reachable small_store ∧
  raises (TD.__getitem__ 0%nat "z") (KeyError "z") small_store ∧
  returns (TD.__getitem__ 0%nat "a") small_store ∧
  returns (TD.get 0%nat "z" (PRaw (VScalar SNone))) small_store ∧
  ∃ res, reports small_store 0%nat res.
Proof.
  split; [exact (reachable_exec _ (NewDict small_tree "") reachable_empty)|].
  destruct (proj1 (C6_failures small_store
                     (reachable_exec _ (NewDict small_tree "") reachable_empty))
              0%nat small_root)
    as (Hget & Hdflt & _ & _ & _ & _ & _ & _ & _ & _ & _ & _ & _ & _ & Hrep).
  - vm_compute; reflexivity.
  - split; [exact (Hget "z")|]. split; [exact (Hget "a")|].
    split; [apply Hdflt | exact Hrep].
Defined.

Lemma C7_referential_stability_witness :
  descent (TD.__getitem__ 0%nat "section") ∧
  TD.__getitem__ 0%nat "section" (exec (NewDict section_tree "") ∅)
    = (Return (PRef 1%nat), section_wrapped) ∧
  TD.__getitem__ 0%nat "section"
      (exec_all [OnDict 1%nat (DGetItem "a"); OnDict 0%nat DValues] section_wrapped)
    = (Return (PRef 1%nat),
       exec_all [OnDict 1%nat (DGetItem "a"); OnDict 0%nat DValues] section_wrapped) ∧
  heap_le section_wrapped
    (exec_all [OnDict 1%nat (DGetItem "a"); OnDict 0%nat DValues] section_wrapped).
Proof.
  split; [constructor|]. split; [vm_compute; reflexivity|].
  apply (C7_referential_stability (TD.__getitem__ 0%nat "section")
           (exec (NewDict section_tree "") ∅) section_wrapped 1%nat
           [OnDict 1%nat (DGetItem "a"); OnDict 0%nat DValues]).
  - constructor.
  - vm_compute; reflexivity.
Defined.

Lemma C8_equality_witness :
  section_wrapped !! 0%nat = Some (ODict section_root) ∧
  (∀ v, same_variant (ODict section_root) v →
     tracked_eq 0%nat (PRaw v) section_wrapped
       = (Return (EqBool (value_eqb (raw_of (ODict section_root)) v)), section_wrapped)) ∧
  (∀ r o', section_wrapped !! r = Some o' → same_variant (ODict section_root) (raw_of o') →
     tracked_eq 0%nat (PRef r) section_wrapped =
       (Return (EqBool (value_eqb (raw_of (ODict section_root)) (raw_of o'))),
        section_wrapped)) ∧
  (∀ (h' : heap) o2 v, h' !! 0%nat = Some o2 → raw_of o2 = raw_of (ODict section_root) →
     (tracked_eq 0%nat (PRaw v) h').1 = (tracked_eq 0%nat (PRaw v) section_wrapped).1) ∧
  (∀ (h' : heap) o2 r o' o2',
     h' !! 0%nat = Some o2 → raw_of o2 = raw_of (ODict section_root) →
     section_wrapped !! r = Some o' → h' !! r = Some o2' → raw_of o2' = raw_of o' →
     (tracked_eq 0%nat (PRef r) h').1 = (tracked_eq 0%nat (PRef r) section_wrapped).1).
Proof.
  split; [vm_compute; reflexivity|].
  apply (C8_equality section_wrapped 0%nat (ODict section_root)).
  vm_compute; reflexivity.
Defined.

Lemma C9_failed_lookup_marks_witness :
  small_store !! 0%nat = Some (ODict small_root) ∧
  dict_lookup "z" (d_data small_root) = None ∧
  ∃ h',
    TD.__getitem__ 0%nat "z" small_store = (Raise (KeyError "z"), h') ∧
    h' = <[0%nat := ODict (mark small_root ["z"])]> small_store ∧
    TD.accessed_keys 0%nat h' = (Return (d_accessed small_root ∪ {["z"]}), h') ∧
    "z" ∈ d_accessed small_root ∪ {["z"]} ∧
    "z" ∉ dict_keys (d_data small_root).
Proof.
  split; [vm_compute; reflexivity|]. split; [reflexivity|].
  apply (C9_failed_lookup_marks small_store 0%nat small_root "z").
  - vm_compute; reflexivity.
  - reflexivity.
Defined.

Lemma C10_cache_subset_accessed_witness :
  cache_in_accessed section_wrapped ∧
  cache_in_accessed (exec (OnDict 1%nat DItems) section_wrapped) ∧
  ∀ r d, section_wrapped !! r = Some (ODict d) →
    ∃ d', exec (OnDict 1%nat DItems) section_wrapped !! r = Some (ODict d') ∧
          d_accessed d ⊆ d_accessed d'.
Proof.
  assert (cache_in_accessed section_wrapped) as Hc.
  { apply reachable_cache.
    exact (reachable_exec _ (OnDict 0%nat (DGetItem "section"))
             (reachable_exec _ (NewDict section_tree "") reachable_empty)). }
  split; [exact Hc|].
  exact (C10_cache_subset_accessed section_wrapped (OnDict 1%nat DItems) Hc).
Defined.

(** * The repository's tests, evaluated *)

Example test_unaccessed_partial_ok :
  report_after test_unaccessed_partial 1 = Some ["a"; "c"].
Proof. by vm_compute. Qed.

Example test_get_missing_marks_accessed_ok :
  report_after test_get_missing_marks_accessed 1 = Some ["a"].
Proof. by vm_compute. Qed.

Example test_deeply_nested_partial_ok :
  report_after test_deeply_nested_partial 3 = Some ["l1.c"; "l1.l2.b"].
Proof. by vm_compute. Qed.

Example test_nested_list_of_dicts_ok :
  report_after test_nested_list_of_dicts 3 = Some ["items[0].y"; "items[1].y"].
Proof. by vm_compute. Qed.

Example test_nested_dict_in_list_ok :
  report_after test_nested_dict_in_list 2 = Some ["[0].b"].
Proof. by vm_compute. Qed.

Example test_list_of_items_pattern_ok :
  report_after test_list_of_items_pattern 3
    = Some ["plugins[0].config"; "plugins[1].config"].
Proof. by vm_compute. Qed.

Example test_nested_wrapping_is_stable_ok :
  (test_nested_wrapping_is_stable ∅).1 = Return (PRef 1%nat, PRef 1%nat).
Proof. by vm_compute. Qed.

Example test_eq_dict_ok :
  (tracked_eq 0%nat (PRaw (VDict small_tree)) small_store).1 = Return (EqBool true) ∧
  (tracked_eq 0%nat (PRaw (VDict [("a", int 2)])) small_store).1 = Return (EqBool false).
Proof. by vm_compute. Qed.

(** * Further properties of the code *)

(** ** Fresh nodes *)

Lemma child_path_dot d key : TD._child_path d key = dot_path (d_path d) key.
Proof. done. Qed.

Lemma concat_singletons {A B} (f : A → B) (l : list A) :
  concat ((λ x, [f x]) <$> l) = f <$> l.
Proof. induction l as [|x l IH]; [done|]. simpl. by f_equal. Qed.

(** A map node on which no key was read reports every key of its raw
    mapping. *)
Lemma untouched_dict_report (h : heap) self d :
  h !! self = Some (ODict d) → d_accessed d = ∅ →
  reports h self (sorted (dot_path (d_path d) <$> dict_keys (d_data d))).
Proof.
  intros Hs Ha. exists 1%nat. rewrite (unaccessed_dict _ _ _ _ Hs).
  erewrite (proj2 (mapM_Some _ _ ((λ k, [dot_path (d_path d) k]) <$> dict_keys (d_data d)))).
  - simpl. by rewrite concat_singletons.
  - apply Forall2_fmap_r, Forall_Forall2_diag, Forall_forall. intros key _.
    unfold contribution. rewrite decide_True by (rewrite Ha; set_solver). done.
Qed.

(** A sequence node with an empty cache reports nothing. *)
Lemma untouched_list_report (h : heap) self l :
  h !! self = Some (OList l) → l_children l = [] → reports h self [].
Proof.
  intros Hs Hc. exists 1%nat. rewrite (unaccessed_list _ _ _ _ Hs), Hc. done.
Qed.

(** X1.  Constructing a [TrackedDict] takes a reference not in use, leaves
    every object of the store as it is, and the new node reports every key of
    its raw mapping, under [path.key] (just [key] for the empty path), in
    sorted order; constructing a [TrackedList] likewise, and the new node
    reports nothing. *)
Theorem X1_construction (h : heap) :
  (∀ data path, ∃ r h',
     TD.__init__ data path h = (Return r, h') ∧ h !! r = None ∧
     (∀ r' o, h !! r' = Some o → h' !! r' = Some o) ∧
     h' !! r = Some (ODict (mkTrackedDict data path ∅ [])) ∧
     reports h' r (sorted (dot_path path <$> dict_keys data))) ∧
  (∀ data path, ∃ r h',
     TL.__init__ data path h = (Return r, h') ∧ h !! r = None ∧
     (∀ r' o, h !! r' = Some o → h' !! r' = Some o) ∧
     h' !! r = Some (OList (mkTrackedList data path [])) ∧
     reports h' r []).
Proof.
  split; intros data path; eexists _, _; (split; [reflexivity|]);
    (split; [apply fresh_lookup|]); (split; [|split; [apply lookup_insert_eq|]]).
  - intros r' o Hr'. rewrite lookup_insert_ne; [done|].
    intros <-. by rewrite fresh_lookup in Hr'.
  - by apply (untouched_dict_report _ _ (mkTrackedDict data path ∅ []));
      [apply lookup_insert_eq|].
  - intros r' o Hr'. rewrite lookup_insert_ne; [done|].
    intros <-. by rewrite fresh_lookup in Hr'.
  - by apply (untouched_list_report _ _ (mkTrackedList data path []));
      [apply lookup_insert_eq|].
Qed.

Lemma fresh_child_container v p : is_Some (fresh_child v p) ↔ is_container v.
Proof. destruct v; simpl; split; (done || by intros [? ?] || by eexists). Qed.

Lemma node_of_container v p o : node_of v p o → is_container v.
Proof. by destruct v, o. Qed.

(** X2.  The first indexed lookup of a key whose value is a mapping or a
    sequence makes the child: a new object, cached under the key, on which
    nothing is read yet.  From then on the key stands in the parent's report
    for the child's report, and that report lists every key of a mapping
    child under [path.key.k] (nothing for a sequence child). *)
Theorem X2_first_descent (h : heap) self d key v :
  h !! self = Some (ODict d) → dict_lookup key (d_data d) = Some v →
  is_container v → dict_lookup key (d_children d) = None →
  ∃ c h' d',
    TD.__getitem__ self key h = (Return (PRef c), h') ∧ h !! c = None ∧
    h' !! self = Some (ODict d') ∧ dict_lookup key (d_children d') = Some c ∧
    key ∈ d_accessed d' ∧
    (∀ part, emits h' d' key part ↔ reports h' c part) ∧
    reports h' c match v with
                 | VDict kvs =>
                     sorted (dot_path (dot_path (d_path d) key) <$> dict_keys kvs)
                 | _ => []
                 end.
Proof.
  intros Hs Hv Hcont Hnone. rewrite (td_getitem_run _ _ _ _ Hs), Hv.
  set (h1 := <[self := ODict (mark d [key])]> h).
  assert (h1 !! self = Some (ODict (mark d [key]))) as Hs1 by apply lookup_insert_eq.
  rewrite (td_wrap_run _ _ _ _ _ Hs1).
  destruct (proj2 (fresh_child_container v (TD._child_path (mark d [key]) key)) Hcont)
    as [o Ho].
  rewrite Ho. simpl. rewrite Hnone. simpl. set (c := fresh (dom h1)).
  assert (self ≠ c) as Hne by eauto using fresh_ne.
  assert (h !! c = None) as Hc.
  { pose proof (fresh_lookup h1) as Hf. fold c in Hf. unfold h1 in Hf.
    by rewrite lookup_insert_ne in Hf. }
  set (h' := <[self := ODict (adopt (mark d [key]) key c)]> (<[c := o]> h1)).
  assert (h' !! c = Some o) as Hc'.
  { unfold h'. rewrite lookup_insert_ne by done. apply lookup_insert_eq. }
  assert (key ∈ d_accessed (adopt (mark d [key]) key c)) as Hk by (simpl; set_solver).
  assert (dict_lookup key (d_children (adopt (mark d [key]) key c)) = Some c) as Hkc
    by (simpl; apply dict_lookup_set_eq).
  exists c, h', (adopt (mark d [key]) key c).
  split; [done|]. split; [done|]. split; [apply lookup_insert_eq|].
  split; [done|]. split; [done|]. split.
  - intros part. split.
    + intros [Hn|c' res' _ Hc'' Hrep|_ Hc'']; [done| |congruence].
      by assert (c' = c) as -> by congruence.
    + intros Hrep. by eapply emits_child.
  - destruct v as [s|kvs|vs]; [done| |]; simpl in Ho; injection Ho as <-.
    + by apply (untouched_dict_report h' c
                  (mkTrackedDict kvs (TD._child_path (mark d [key]) key) ∅ [])).
    + by apply (untouched_list_report h' c
                  (mkTrackedList vs (TD._child_path (mark d [key]) key) [])).
Qed.

Lemma X2_first_descent_witness :
  section_store !! 0%nat = Some (ODict section_fresh_root) ∧
  ∃ c h' d',
    TD.__getitem__ 0%nat "section" section_store = (Return (PRef c), h') ∧
    section_store !! c = None ∧
    h' !! 0%nat = Some (ODict d') ∧ dict_lookup "section" (d_children d') = Some c ∧
    "section" ∈ d_accessed d' ∧
    (∀ part, emits h' d' "section" part ↔ reports h' c part) ∧
    reports h' c (sorted (dot_path (dot_path "" "section") <$> ["a"; "b"])).
Proof.
  split; [vm_compute; reflexivity|].
  apply (X2_first_descent section_store 0%nat section_fresh_root "section"
           (VDict [("a", VScalar (SInt 1)); ("b", VScalar (SInt 2))])).
  - vm_compute; reflexivity.
  - reflexivity.
  - exact I.
  - reflexivity.
Defined.

(** ** The cache mirrors the raw tree *)

(** X3.  On a store a client can reach, a child cached under a key of a map
    node is in the store, wraps the raw value found under that key, which is
    a mapping or a sequence and never a scalar, and carries the path
    [path.key]; the key is among the accessed keys.  A child cached under an
    index of a sequence node wraps the element at that index (negative
    indices counted from the end) and carries the path [path[index]]. *)
Theorem X3_cache_mirrors_raw (h : heap) :
  reachable h →
  (∀ self d key c,
     h !! self = Some (ODict d) → dict_lookup key (d_children d) = Some c →
     ∃ v o, dict_lookup key (d_data d) = Some v ∧ is_container v ∧
            h !! c = Some o ∧ raw_of o = v ∧
            path_of o = dot_path (d_path d) key ∧ key ∈ d_accessed d) ∧
  (∀ self l index c,
     h !! self = Some (OList l) → dict_lookup index (l_children l) = Some c →
     ∃ v o, list_index (l_data l) index = Some v ∧ is_container v ∧
            h !! c = Some o ∧ raw_of o = v ∧
            path_of o = l_path l +:+ "[" +:+ pretty index +:+ "]").
Proof.
  intros Hr. pose proof (reachable_wf _ Hr) as Hwf.
  pose proof (reachable_cache _ Hr) as Hca. split.
  - intros self d key c Hs Hc.
    destruct (Hwf _ _ Hs _ _ (dict_lookup_elem _ _ _ Hc)) as (v & o & Hv & Ho & Hn).
    exists v, o. split; [done|]. split; [by eapply node_of_container|].
    split; [done|]. split; [by eapply node_of_raw|].
    split; [by apply node_of_path in Hn|].
    eapply Hca; [done|]. apply dict_lookup_keys. by eexists.
  - intros self l index c Hs Hc.
    destruct (Hwf _ _ Hs _ _ (dict_lookup_elem _ _ _ Hc)) as (v & o & Hv & Ho & Hn).
    exists v, o. split; [done|]. split; [by eapply node_of_container|].
    split; [done|]. split; [by eapply node_of_raw|]. by apply node_of_path in Hn.
Qed.

Lemma X3_cache_mirrors_raw_witness :
  reachable section_wrapped ∧
  ∃ v o, dict_lookup "section" (d_data section_root) = Some v ∧ is_container v ∧
         section_wrapped !! 1%nat = Some o ∧ raw_of o = v ∧
         path_of o = dot_path (d_path section_root) "section" ∧
         "section" ∈ d_accessed section_root.
Proof.
  split.
  - exact (reachable_exec _ (OnDict 0%nat (DGetItem "section"))
             (reachable_exec _ (NewDict section_tree "") reachable_empty)).
  - apply (proj1 (X3_cache_mirrors_raw section_wrapped
                    (reachable_exec _ (OnDict 0%nat (DGetItem "section"))
                       (reachable_exec _ (NewDict section_tree "") reachable_empty)))
             0%nat section_root "section" 1%nat).
    + vm_compute; reflexivity.
    + reflexivity.
Defined.

(** ** Raw data and paths are never touched *)

Lemma object_le_raw o o' : object_le o o' → raw_of o' = raw_of o ∧ path_of o' = path_of o.
Proof.
  destruct o as [d|l], o' as [d'|l']; simpl; try done.
  - intros (-> & -> & _). done.
  - intros (-> & -> & _). done.
Qed.

(** X4.  No call removes a node, changes the raw structure a node wraps, or
    changes its path; so the [raw] accessor of a node returns, after any
    calls whatever, the very structure the node was constructed over, and
    reading it changes nothing. *)
Theorem X4_raw_is_kept (h : heap) (cs : list call) :
  (∀ r o, h !! r = Some o →
     ∃ o', exec_all cs h !! r = Some o' ∧
           raw_of o' = raw_of o ∧ path_of o' = path_of o) ∧
  (∀ data path,
     TD.raw (fresh (dom h)) (exec_all cs (final (TD.__init__ data path) h))
       = (Return data, exec_all cs (final (TD.__init__ data path) h))) ∧
  (∀ data path,
     TL.raw (fresh (dom h)) (exec_all cs (final (TL.__init__ data path) h))
       = (Return data, exec_all cs (final (TL.__init__ data path) h))).
Proof.
  assert (∀ (h0 : heap) r o, h0 !! r = Some o →
            ∃ o', exec_all cs h0 !! r = Some o' ∧
                  raw_of o' = raw_of o ∧ path_of o' = path_of o) as Hkeep.
  { intros h0 r o Hr. destruct (exec_all_step h0 cs) as (Hle & _).
    destruct (Hle _ _ Hr) as (o' & Hr' & Ho'). exists o'. split; [done|].
    by apply object_le_raw. }
  split; [apply Hkeep|]. split; intros data path.
  - destruct (Hkeep (final (TD.__init__ data path) h) (fresh (dom h))
                (ODict (mkTrackedDict data path ∅ [])))
      as ([d'|l'] & Hr' & Hraw & _); [apply lookup_insert_eq| |done].
    unfold TD.raw. rewrite (bind_run _ _ _ _ _ (load_dict_run _ _ _ Hr')).
    simpl in Hraw. injection Hraw as ->. done.
  - destruct (Hkeep (final (TL.__init__ data path) h) (fresh (dom h))
                (OList (mkTrackedList data path [])))
      as ([d'|l'] & Hr' & Hraw & _); [apply lookup_insert_eq|done|].
    unfold TL.raw. rewrite (bind_run _ _ _ _ _ (load_list_run _ _ _ Hr')).
    simpl in Hraw. injection Hraw as ->. done.
Qed.

(** ** Marking *)

Lemma mark_mark d ks1 ks2 : mark (mark d ks1) ks2 = mark d (ks1 ++ ks2).
Proof.
  unfold mark. simpl. f_equal. rewrite list_to_set_app_L. by rewrite (assoc_L (∪)).
Qed.

Lemma mark_nil d : mark d [] = d.
Proof. apply mark_id. by intros k ?%elem_of_nil. Qed.

Lemma mark_perm d ks1 ks2 : ks1 ≡ₚ ks2 → mark d ks1 = mark d ks2.
Proof.
  intros Hp. unfold mark. f_equal. f_equal. apply set_eq. intros k.
  by rewrite !elem_of_list_to_set, Hp.
Qed.

Lemma final_mark (h : heap) self d keys :
  h !! self = Some (ODict d) →
  final (TD.mark_accessed self keys) h = <[self := ODict (mark d keys)]> h.
Proof.
  intros Hs. unfold final, TD.mark_accessed. by rewrite (accessed_update_run _ _ _ _ Hs).
Qed.

Lemma final_mark_twice (h : heap) self d ks1 ks2 :
  h !! self = Some (ODict d) →
  final (TD.mark_accessed self ks2) (final (TD.mark_accessed self ks1) h)
    = <[self := ODict (mark d (ks1 ++ ks2))]> h.
Proof.
  intros Hs. rewrite (final_mark _ _ _ _ Hs).
  rewrite (final_mark _ _ (mark d ks1)) by apply lookup_insert_eq.
  by rewrite insert_insert_eq, mark_mark.
Qed.

(** X5.  Marking is the union of sets: marking several keys in one call is
    marking them in successive calls, in any order; marking no key, or keys
    marked before, leaves the store exactly as it is. *)
Theorem X5_marking_composes (h : heap) self ks1 ks2 :
  final (TD.mark_accessed self (ks1 ++ ks2)) h
    = final (TD.mark_accessed self ks2) (final (TD.mark_accessed self ks1) h) ∧
  final (TD.mark_accessed self ks2) (final (TD.mark_accessed self ks1) h)
    = final (TD.mark_accessed self ks1) (final (TD.mark_accessed self ks2) h) ∧
  final (TD.mark_accessed self []) h = h ∧
  final (TD.mark_accessed self ks1) (final (TD.mark_accessed self ks1) h)
    = final (TD.mark_accessed self ks1) h.
Proof.
  destruct (h !! self) as [[d|l]|] eqn:Hs.
  - rewrite !(final_mark_twice _ _ _ _ _ Hs), !(final_mark _ _ _ _ Hs).
    split; [done|]. split; [|split].
    + f_equal. f_equal. apply mark_perm, Permutation_app_comm.
    + rewrite mark_nil. by apply insert_id.
    + f_equal. f_equal. rewrite <-mark_mark. apply mark_id.
      intros k Hk. simpl. apply elem_of_union_r. by apply elem_of_list_to_set.
  - assert (∀ ks, final (TD.mark_accessed self ks) h = h) as Hno.
    { intros ks. apply (exec_td_not_dict h self (DMarkAccessed ks)). congruence. }
    by rewrite !Hno.
  - assert (∀ ks, final (TD.mark_accessed self ks) h = h) as Hno.
    { intros ks. apply (exec_td_not_dict h self (DMarkAccessed ks)). congruence. }
    by rewrite !Hno.
Qed.

(** ** Membership and the two lookups *)

Lemma td_wrap_returns (h : heap) self d key v :
  h !! self = Some (ODict d) → returns (TD._wrap self key v) h.
Proof.
  intros Hs. unfold returns. rewrite (td_wrap_run _ _ _ _ _ Hs).
  destruct (fresh_child v _); [|by eexists _, _].
  destruct (dict_lookup key _); by eexists _, _.
Qed.

(** X6.  The membership test tells what the lookups will do, and reads
    nothing.  When [key in M] is true, [M[key]] returns and [M.get(key, d)]
    is the same computation: same result, same store.  When it is false,
    [M[key]] raises the lookup-miss error for [key] and [M.get(key, d)]
    returns [d], and both leave the same store. *)
Theorem X6_membership_predicts (h : heap) self d key default :
  h !! self = Some (ODict d) →
  ∃ b, TD.__contains__ self key h = (Return b, h) ∧
       if b then TD.get self key default h = TD.__getitem__ self key h ∧
                 returns (TD.__getitem__ self key) h
       else ∃ h', TD.__getitem__ self key h = (Raise (KeyError key), h') ∧
                  TD.get self key default h = (Return default, h').
Proof.
  intros Hs. exists (dict_mem key (d_data d)). split.
  - unfold TD.__contains__. by rewrite (bind_run _ _ _ _ _ (load_dict_run _ _ _ Hs)).
  - rewrite (td_get_run _ _ _ _ _ Hs), (td_getitem_run _ _ _ _ Hs).
    unfold returns. rewrite (td_getitem_run _ _ _ _ Hs).
    destruct (dict_lookup key (d_data d)) as [v|] eqn:Hv.
    + rewrite (proj2 (dict_mem_true _ _)) by (rewrite Hv; eauto).
      split; [done|].
      apply (td_wrap_returns _ _ (mark d [key])), lookup_insert_eq.
    + rewrite (proj2 (dict_mem_false _ _)) by done. by eexists.
Qed.

Lemma X6_membership_predicts_witness :
  small_store !! 0%nat = Some (ODict small_root) ∧
  ∃ b, TD.__contains__ 0%nat "z" small_store = (Return b, small_store) ∧
       if b then TD.get 0%nat "z" (PRaw (VScalar SNone)) small_store
                   = TD.__getitem__ 0%nat "z" small_store ∧
                 returns (TD.__getitem__ 0%nat "z") small_store
       else ∃ h', TD.__getitem__ 0%nat "z" small_store = (Raise (KeyError "z"), h') ∧
                  TD.get 0%nat "z" (PRaw (VScalar SNone)) small_store
                    = (Return (PRaw (VScalar SNone)), h').
Proof.
  split; [vm_compute; reflexivity|].
  apply (X6_membership_predicts small_store 0%nat small_root "z" (PRaw (VScalar SNone))).
  vm_compute; reflexivity.
Defined.

(** ** Lookups are idempotent *)

Lemma td_wrap_self (h h1 : heap) self d key v out :
  h !! self = Some (ODict d) → TD._wrap self key v h = (out, h1) →
  ∃ d1, h1 !! self = Some (ODict d1) ∧ d_data d1 = d_data d ∧
        d_path d1 = d_path d ∧ d_accessed d1 = d_accessed d.
Proof.
  intros Hs. rewrite (td_wrap_run _ _ _ _ _ Hs).
  destruct (fresh_child v _) as [o|]; [|intros [= _ <-]; by exists d].
  destruct (dict_lookup key _) as [c|]; [intros [= _ <-]; by exists d|].
  simpl. intros [= _ <-]. exists (adopt d key (fresh (dom h))).
  by rewrite lookup_insert_eq.
Qed.

Lemma tl_wrap_self (h h1 : heap) self l index v out :
  h !! self = Some (OList l) → TL._wrap self index v h = (out, h1) →
  ∃ l1, h1 !! self = Some (OList l1) ∧ l_data l1 = l_data l ∧ l_path l1 = l_path l.
Proof.
  intros Hs. rewrite (tl_wrap_run _ _ _ _ _ Hs).
  destruct (fresh_child v _) as [o|]; [|intros [= _ <-]; by exists l].
  destruct (dict_lookup index _) as [c|]; [intros [= _ <-]; by exists l|].
  simpl. intros [= _ <-]. exists (adopt_at l index (fresh (dom h))).
  by rewrite lookup_insert_eq.
Qed.

Lemma td_wrap_idem (h h1 : heap) self key v out :
  TD._wrap self key v h = (out, h1) → TD._wrap self key v h1 = (out, h1).
Proof.
  destruct (h !! self) as [[d|l]|] eqn:Hs.
  - intros Hrun. pose proof Hrun as Hrun'. revert Hrun'.
    rewrite (td_wrap_run _ _ _ _ _ Hs).
    destruct (fresh_child v (TD._child_path d key)) as [o|] eqn:Ho;
      [|by intros [= <- <-]].
    destruct (dict_lookup key (d_children d)) as [c|] eqn:Hc;
      [by intros [= <- <-]|].
    simpl. intros [= <- <-].
    erewrite td_wrap_run by apply lookup_insert_eq.
    unfold TD._child_path in *. simpl. rewrite Ho, dict_lookup_set_eq. done.
  - destruct v; simpl; [by intros [= <- <-]|..];
      unfold bind, load_dict; rewrite Hs; intros [= <- <-]; by rewrite Hs.
  - destruct v; simpl; [by intros [= <- <-]|..];
      unfold bind, load_dict; rewrite Hs; intros [= <- <-]; by rewrite Hs.
Qed.

Lemma tl_wrap_idem (h h1 : heap) self index v out :
  TL._wrap self index v h = (out, h1) → TL._wrap self index v h1 = (out, h1).
Proof.
  destruct (h !! self) as [[d|l]|] eqn:Hs.
  - destruct v; simpl; [by intros [= <- <-]|..];
      unfold bind, load_list; rewrite Hs; intros [= <- <-]; by rewrite Hs.
  - intros Hrun. pose proof Hrun as Hrun'. revert Hrun'.
    rewrite (tl_wrap_run _ _ _ _ _ Hs).
    destruct (fresh_child v (TL._child_path l index)) as [o|] eqn:Ho;
      [|by intros [= <- <-]].
    destruct (dict_lookup index (l_children l)) as [c|] eqn:Hc;
      [by intros [= <- <-]|].
    simpl. intros [= <- <-].
    erewrite tl_wrap_run by apply lookup_insert_eq.
    unfold TL._child_path in *. simpl. rewrite Ho, dict_lookup_set_eq. done.
  - destruct v; simpl; [by intros [= <- <-]|..];
      unfold bind, load_list; rewrite Hs; intros [= <- <-]; by rewrite Hs.
Qed.

Lemma mark_again' (h : heap) self d key :
  <[self := ODict (mark (mark d [key]) [key])]> (<[self := ODict (mark d [key])]> h)
    = <[self := ODict (mark d [key])]> h.
Proof.
  rewrite insert_insert_eq. f_equal. f_equal. apply mark_id.
  intros k ->%list_elem_of_singleton. simpl. set_solver.
Qed.

(** X7.  A lookup done twice in a row does the second time exactly what it
    did the first time, and the second time it changes nothing: whether the
    first one returned a scalar, returned a child, returned the default or
    raised, the same call on the store it left gives the same outcome and
    leaves that store as it is.  This holds for the wrapping rule, the
    indexed lookup and the defaulted lookup of a map node and for the
    wrapping rule and the indexed lookup of a sequence node. *)
Theorem X7_lookup_idempotent (m : M pyval) (h h1 : heap) out :
  descent m → m h = (out, h1) → m h1 = (out, h1).
Proof.
  intros Hm. destruct Hm as [self key v|self key|self key default|self index v|self index].
  - apply td_wrap_idem.
  - destruct (h !! self) as [[d|l]|] eqn:Hs.
    + rewrite (td_getitem_run _ _ _ _ Hs).
      destruct (dict_lookup key (d_data d)) as [v|] eqn:Hv.
      * intros Hrun.
        destruct (td_wrap_self _ _ _ (mark d [key]) _ _ _ (lookup_insert_eq _ _ _) Hrun)
          as (d1 & Hs1 & Hd1 & _ & Ha1).
        rewrite (td_getitem_run _ _ _ _ Hs1), Hd1. simpl. rewrite Hv.
        rewrite mark_again; [by eapply td_wrap_idem|done|].
        rewrite Ha1. simpl. set_solver.
      * intros [= <- <-].
        erewrite td_getitem_run by apply lookup_insert_eq.
        simpl. rewrite Hv. by rewrite mark_again'.
    + unfold TD.__getitem__, TD.accessed_update, bind, load_dict. rewrite Hs.
      intros [= <- <-]. by rewrite Hs.
    + unfold TD.__getitem__, TD.accessed_update, bind, load_dict. rewrite Hs.
      intros [= <- <-]. by rewrite Hs.
  - destruct (h !! self) as [[d|l]|] eqn:Hs.
    + rewrite (td_get_run _ _ _ _ _ Hs).
      destruct (dict_lookup key (d_data d)) as [v|] eqn:Hv.
      * intros Hrun.
        destruct (td_wrap_self _ _ _ (mark d [key]) _ _ _ (lookup_insert_eq _ _ _) Hrun)
          as (d1 & Hs1 & Hd1 & _ & Ha1).
        rewrite (td_get_run _ _ _ _ _ Hs1), Hd1. simpl. rewrite Hv.
        rewrite mark_again; [by eapply td_wrap_idem|done|].
        rewrite Ha1. simpl. set_solver.
      * intros [= <- <-].
        erewrite td_get_run by apply lookup_insert_eq.
        simpl. rewrite Hv. by rewrite mark_again'.
    + unfold TD.get, TD.accessed_update, bind, load_dict. rewrite Hs.
      intros [= <- <-]. by rewrite Hs.
    + unfold TD.get, TD.accessed_update, bind, load_dict. rewrite Hs.
      intros [= <- <-]. by rewrite Hs.
  - apply tl_wrap_idem.
  - destruct (h !! self) as [[d|l]|] eqn:Hs.
    + unfold TL.__getitem__, bind, load_list. rewrite Hs.
      intros [= <- <-]. by rewrite Hs.
    + rewrite (tl_getitem_run _ _ _ _ Hs).
      destruct (list_index (l_data l) index) as [v|] eqn:Hv.
      * intros Hrun.
        destruct (tl_wrap_self _ _ _ _ _ _ _ Hs Hrun) as (l1 & Hs1 & Hd1 & _).
        rewrite (tl_getitem_run _ _ _ _ Hs1), Hd1, Hv. by eapply tl_wrap_idem.
      * intros [= <- <-]. by rewrite (tl_getitem_run _ _ _ _ Hs), Hv.
    + unfold TL.__getitem__, bind, load_list. rewrite Hs.
      intros [= <- <-]. by rewrite Hs.
Qed.

Lemma X7_lookup_idempotent_witness :
  descent (TD.__getitem__ 0%nat "z") ∧
  TD.__getitem__ 0%nat "z" small_store
    = (Raise (KeyError "z"), exec (OnDict 0%nat (DGetItem "z")) small_store) ∧
  TD.__getitem__ 0%nat "z" (exec (OnDict 0%nat (DGetItem "z")) small_store)
    = (Raise (KeyError "z"), exec (OnDict 0%nat (DGetItem "z")) small_store).
Proof.
  split; [constructor|]. split; [vm_compute; reflexivity|].
  apply (X7_lookup_idempotent (TD.__getitem__ 0%nat "z") small_store).
  - constructor.
  - vm_compute; reflexivity.
Defined.

(** ** Keys that are not there *)

Lemma mapM_ext_in {A B} (f g : A → option B) (l : list A) :
  (∀ x, x ∈ l → f x = g x) → mapM f l = mapM g l.
Proof.
  induction l as [|x l IH]; intros Hfg; simpl; [done|].
  rewrite (Hfg x) by left. rewrite IH; [done|]. intros y Hy. apply Hfg. by right.
Qed.

Lemma unaccessed_mark_absent fuel (h : heap) self d ks r :
  h !! self = Some (ODict d) → (∀ k, k ∈ ks → k ∉ dict_keys (d_data d)) →
  unaccessed fuel (<[self := ODict (mark d ks)]> h) r = unaccessed fuel h r.
Proof.
  intros Hs Hks. revert r. induction fuel as [|fuel IH]; intros r; [done|].
  destruct (decide (r = self)) as [->|Hne].
  - rewrite (unaccessed_dict _ _ _ _ Hs).
    rewrite (unaccessed_dict _ _ _ (mark d ks)) by apply lookup_insert_eq.
    simpl. erewrite mapM_ext_in; [done|]. intros key Hkey. unfold contribution. simpl.
    assert (key ∈ d_accessed d ∪ list_to_set ks ↔ key ∈ d_accessed d) as Hiff.
    { rewrite elem_of_union, elem_of_list_to_set. split; [|by left].
      intros [?|Hin]; [done|]. by destruct (Hks _ Hin). }
    destruct (decide (key ∉ d_accessed d ∪ list_to_set ks)) as [Hn|Hn],
             (decide (key ∉ d_accessed d)) as [Hn'|Hn']; try done.
    + destruct Hn'. intros ?. apply Hn. by apply Hiff.
    + destruct Hn. intros ?. apply Hn'. by apply Hiff.
    + destruct (dict_lookup key (d_children d)); [apply IH | done].
  - destruct (h !! r) as [[d0|l0]|] eqn:Hr.
    + rewrite (unaccessed_dict _ _ _ _ Hr).
      rewrite (unaccessed_dict _ _ _ d0) by by rewrite lookup_insert_ne.
      erewrite mapM_ext_in; [done|]. intros key _. unfold contribution.
      case_decide; [done|]. destruct (dict_lookup key (d_children d0)); [apply IH | done].
    + rewrite (unaccessed_list _ _ _ _ Hr).
      rewrite (unaccessed_list _ _ _ l0) by by rewrite lookup_insert_ne.
      erewrite mapM_ext_in; [done|]. intros c _. apply IH.
    + simpl. by rewrite lookup_insert_ne, Hr.
Qed.

(** X8.  Keys that the raw mapping does not have leave no trace in any
    report: after marking such keys, after a defaulted lookup of such a key,
    and after the failed indexed lookup of such a key, [unaccessed()] of
    every node of the store gives what it gave before. *)
Theorem X8_absent_keys_leave_reports (h : heap) self d :
  h !! self = Some (ODict d) →
  (∀ keys fuel r,
     (∀ k, k ∈ keys → k ∉ dict_keys (d_data d)) →
     unaccessed fuel (final (TD.mark_accessed self keys) h) r = unaccessed fuel h r) ∧
  (∀ key default fuel r,
     key ∉ dict_keys (d_data d) →
     unaccessed fuel (final (TD.get self key default) h) r = unaccessed fuel h r) ∧
  (∀ key fuel r,
     key ∉ dict_keys (d_data d) →
     unaccessed fuel (final (TD.__getitem__ self key) h) r = unaccessed fuel h r).
Proof.
  intros Hs. split; [|split].
  - intros keys fuel r Hks. rewrite (final_mark _ _ _ _ Hs).
    by apply unaccessed_mark_absent.
  - intros key default fuel r Hk%dict_lookup_None_keys.
    unfold final. rewrite (td_get_run _ _ _ _ _ Hs), Hk. simpl.
    apply unaccessed_mark_absent; [done|].
    intros k ->%list_elem_of_singleton. by apply dict_lookup_None_keys.
  - intros key fuel r Hk%dict_lookup_None_keys.
    unfold final. rewrite (td_getitem_run _ _ _ _ Hs), Hk. simpl.
    apply unaccessed_mark_absent; [done|].
    intros k ->%list_elem_of_singleton. by apply dict_lookup_None_keys.
Qed.

Lemma X8_absent_keys_leave_reports_witness :
  small_store !! 0%nat = Some (ODict small_root) ∧
  ("z" ∉ dict_keys (d_data small_root)) ∧
  unaccessed 1 (final (TD.get 0%nat "z" (PRaw (VScalar SNone))) small_store) 0%nat
    = unaccessed 1 small_store 0%nat.
Proof.
  split; [vm_compute; reflexivity|].
  assert ("z" ∉ dict_keys (d_data small_root)) as Hz.
  { apply dict_lookup_None_keys. reflexivity. }
  split; [exact Hz|].
  apply (proj1 (proj2 (X8_absent_keys_leave_reports small_store 0%nat small_root
                          ltac:(vm_compute; reflexivity)))).
  exact Hz.
Defined.

(** ** Marking all keys *)

Lemma Forall2_impl_in {A B} (P Q : A → B → Prop) (l : list A) (k : list B) :
  Forall2 P l k → (∀ x y, x ∈ l → P x y → Q x y) → Forall2 Q l k.
Proof.
  induction 1 as [|x y l k Hxy _ IH]; intros Himpl; constructor.
  - apply Himpl; [left | done].
  - apply IH. intros x' y' Hx'. apply Himpl. by right.
Qed.

Lemma reports_dict_intro (h : heap) self d parts :
  h !! self = Some (ODict d) →
  Forall2 (emits h d) (dict_keys (d_data d)) parts →
  reports h self (sorted (concat parts)).
Proof.
  intros Hs He. destruct (emits_all_contribution _ _ _ _ He) as [fuel Hp].
  exists (S fuel). by rewrite (unaccessed_dict _ _ _ _ Hs), Hp.
Qed.

Lemma emits_accessed (h : heap) d key part :
  key ∈ d_accessed d → emits h d key part ↔ below_key h (d_children d) key part.
Proof.
  intros Hk. unfold below_key. split.
  - intros [Hn|c res _ Hc Hrep|_ Hc]; [done|by rewrite Hc..].
  - destruct (dict_lookup key (d_children d)) as [c|] eqn:Hc.
    + intros Hrep. by eapply emits_child.
    + intros ->. by apply emits_nothing.
Qed.

Lemma concat_nils {A B} (l : list A) : concat ((λ _, @nil B) <$> l) = [].
Proof. induction l as [|x l IH]; [done|]. simpl. done. Qed.

(** X9.  [mark_all_accessed()] is [mark_accessed] of the keys of the raw
    mapping.  It changes the accessed set of this one node and no other
    object: the children keep their own state.  Afterwards no key of the node
    is reported under its own path; the report of the node is the sorted
    concatenation of the reports of its cached children, and it is empty if
    the node has no cached child. *)
Theorem X9_mark_all_accessed (h : heap) self d :
  h !! self = Some (ODict d) →
  ∃ d',
    TD.mark_all_accessed self h = (Return tt, <[self := ODict d']> h) ∧
    TD.mark_accessed self (dict_keys (d_data d)) h = (Return tt, <[self := ODict d']> h) ∧
    d_data d' = d_data d ∧ d_path d' = d_path d ∧ d_children d' = d_children d ∧
    d_accessed d' = d_accessed d ∪ list_to_set (dict_keys (d_data d)) ∧
    (∀ res, reports (<[self := ODict d']> h) self res ↔
       ∃ parts,
         Forall2 (below_key (<[self := ODict d']> h) (d_children d))
                 (dict_keys (d_data d)) parts ∧
         res = sorted (concat parts)) ∧
    (d_children d = [] → reports (<[self := ODict d']> h) self []).
Proof.
  intros Hs. exists (mark d (dict_keys (d_data d))).
  set (h' := <[self := ODict (mark d (dict_keys (d_data d)))]> h).
  assert (h' !! self = Some (ODict (mark d (dict_keys (d_data d))))) as Hs'
    by apply lookup_insert_eq.
  assert (∀ key, key ∈ dict_keys (d_data d) →
                 key ∈ d_accessed (mark d (dict_keys (d_data d)))) as Hall.
  { intros key Hkey. simpl. apply elem_of_union_r. by apply elem_of_list_to_set. }
  assert (∀ res, reports h' self res ↔
            ∃ parts, Forall2 (below_key h' (d_children d)) (dict_keys (d_data d)) parts ∧
                     res = sorted (concat parts)) as Hrep.
  { intros res. split.
    - intros Hr. destruct (reports_dict_inv _ _ _ _ Hs' Hr) as (parts & He & ->).
      exists parts. split; [|done]. eapply Forall2_impl_in; [exact He|].
      intros key part Hkey Hem. by apply (emits_accessed h' _ key part (Hall key Hkey)).
    - intros (parts & Hb & ->). apply (reports_dict_intro _ _ _ _ Hs').
      eapply Forall2_impl_in; [exact Hb|].
      intros key part Hkey Hbk. by apply (emits_accessed h' _ key part (Hall key Hkey)). }
  split.
  { unfold TD.mark_all_accessed.
    rewrite (bind_run _ _ _ _ _ (load_dict_run _ _ _ Hs)).
    by rewrite (accessed_update_run _ _ _ _ Hs). }
  split; [by apply accessed_update_run|].
  split; [done|]. split; [done|]. split; [done|]. split; [done|]. split; [done|].
  intros Hnone. apply Hrep. exists ((λ _, []) <$> dict_keys (d_data d)). split.
  - apply Forall2_fmap_r, Forall_Forall2_diag, Forall_forall. intros key _.
    unfold below_key. by rewrite Hnone.
  - by rewrite concat_nils.
Qed.

Lemma X9_mark_all_accessed_witness :
  section_wrapped !! 0%nat = Some (ODict section_root) ∧
  ∃ d',
    TD.mark_all_accessed 0%nat section_wrapped
      = (Return tt, <[0%nat := ODict d']> section_wrapped) ∧
    TD.mark_accessed 0%nat (dict_keys (d_data section_root)) section_wrapped
      = (Return tt, <[0%nat := ODict d']> section_wrapped) ∧
    d_data d' = d_data section_root ∧ d_path d' = d_path section_root ∧
    d_children d' = d_children section_root ∧
    d_accessed d' = d_accessed section_root ∪ list_to_set (dict_keys (d_data section_root)) ∧
    (∀ res, reports (<[0%nat := ODict d']> section_wrapped) 0%nat res ↔
       ∃ parts,
         Forall2 (below_key (<[0%nat := ODict d']> section_wrapped)
                    (d_children section_root))
                 (dict_keys (d_data section_root)) parts ∧
         res = sorted (concat parts)) ∧
    (d_children section_root = [] →
     reports (<[0%nat := ODict d']> section_wrapped) 0%nat []).
Proof.
  split; [vm_compute; reflexivity|].
  apply (X9_mark_all_accessed section_wrapped 0%nat section_root).
  vm_compute; reflexivity.
Defined.

(** ** Sequence nodes *)

Lemma reports_all_fuel (h : heap) cs parts :
  Forall2 (reports h) cs parts → ∃ fuel, mapM (unaccessed fuel h) cs = Some parts.
Proof.
  induction 1 as [|c part cs parts [fuel1 H1] _ [fuel IH]].
  - by exists 0%nat.
  - exists (fuel1 `max` fuel)%nat. apply mapM_Some. constructor.
    + eapply unaccessed_fuel_mono; [done | lia].
    + apply mapM_Some in IH. eapply Forall2_impl; [done|].
      intros c' p' Hcp. eapply unaccessed_fuel_mono; [exact Hcp | lia].
Qed.

(** X10.  [TrackedList.unaccessed()] returns [res] exactly when [res] is the
    lexicographically sorted arrangement of the reports of the cached
    children, taken in the order in which the children were cached; the
    elements themselves are never reported. *)
Theorem X10_list_report (h : heap) self l res :
  h !! self = Some (OList l) →
  reports h self res ↔
  ∃ parts, Forall2 (reports h) (dict_values (l_children l)) parts ∧
           StronglySorted lex_le res ∧ res ≡ₚ concat parts.
Proof.
  intros Hs. split.
  - intros [[|fuel] Hu]; [done|]. rewrite (unaccessed_list _ _ _ _ Hs) in Hu.
    destruct (mapM (unaccessed fuel h) _) as [parts|] eqn:Hp; [|done].
    injection Hu as <-. exists parts. split; [|split].
    + apply mapM_Some in Hp. eapply Forall2_impl; [done|].
      intros c part Hc. by exists fuel.
    + apply sorted_lex.
    + apply sorted_Permutation.
  - intros (parts & Hr & Hsorted & Hperm).
    destruct (reports_all_fuel _ _ _ Hr) as [fuel Hp].
    exists (S fuel). rewrite (unaccessed_list _ _ _ _ Hs), Hp. simpl.
    f_equal. symmetry. by apply sorted_lex_unique.
Qed.

Lemma X10_list_report_witness :
  small_list_store !! 0%nat = Some (OList small_list_root) ∧
  (reports small_list_store 0%nat [] ↔
   ∃ parts, Forall2 (reports small_list_store)
                    (dict_values (l_children small_list_root)) parts ∧
            StronglySorted lex_le [] ∧ [] ≡ₚ concat parts).
Proof.
  split; [vm_compute; reflexivity|].
  apply (X10_list_report small_list_store 0%nat small_list_root []).
  vm_compute; reflexivity.
Defined.

Lemma for_each_pure {A B} (f : A → M B) (g : A → B) (xs : list A) (h : heap) :
  (∀ x, x ∈ xs → f x h = (Return (g x), h)) →
  for_each f xs h = (Return (g <$> xs), h).
Proof.
  induction xs as [|x xs IH]; intros Hf; simpl; [done|].
  rewrite (bind_run _ _ _ _ _ (Hf x ltac:(left))).
  rewrite (bind_run _ _ _ _ (g <$> xs) (IH (λ y Hy, Hf y (list_elem_of_further _ _ _ Hy)))).
  done.
Qed.

(** X11.  A sequence of scalars is transparent.  On a store a client can
    reach, a sequence node whose elements are all scalars has an empty cache
    and reports nothing, whatever was read; every indexed lookup within
    bounds returns the element itself and iteration yields the elements
    themselves, and neither changes the store. *)
Theorem X11_scalar_sequence (h : heap) self l :
  reachable h → h !! self = Some (OList l) →
  (∀ v, v ∈ l_data l → ¬ is_container v) →
  l_children l = [] ∧
  (∀ res, reports h self res ↔ res = []) ∧
  (∀ index v, list_index (l_data l) index = Some v →
     TL.__getitem__ self index h = (Return (PRaw v), h)) ∧
  (∃ vals, TL.__iter__ self h = (Return vals, h) ∧
           length vals = length (l_data l) ∧
           ∀ (i : nat) v, l_data l !! i = Some v → vals !! i = Some (PRaw v)).
Proof.
  intros Hwf%reachable_wf Hs Hscalar.
  assert (l_children l = []) as Hnil.
  { destruct (l_children l) as [|[i c] ch] eqn:Hch; [done|].
    destruct (Hwf _ _ Hs i c) as (v & o & Hv & _ & Hn); [rewrite Hch; left|].
    destruct (Hscalar v); [by eapply list_index_elem | by eapply node_of_container]. }
  assert (∀ index v, list_index (l_data l) index = Some v →
            TL._wrap self index v h = (Return (PRaw v), h)) as Hwrap.
  { intros index v Hv. rewrite (tl_wrap_run _ _ _ _ _ Hs).
    destruct (fresh_child v (TL._child_path l index)) as [o|] eqn:Ho; [|done].
    destruct (Hscalar v); [by eapply list_index_elem|].
    apply (fresh_child_container v (TL._child_path l index)). by eexists. }
  split; [done|]. split; [|split].
  - intros res. split.
    + intros [[|fuel] Hu]; [done|].
      rewrite (unaccessed_list _ _ _ _ Hs), Hnil in Hu. by injection Hu as <-.
    + intros ->. by apply (untouched_list_report _ _ l).
  - intros index v Hv. rewrite (tl_getitem_run _ _ _ _ Hs), Hv. by apply Hwrap.
  - set (elem := λ i : Z, PRaw (default (VScalar SNone) (list_index (l_data l) i))).
    exists (elem <$> (Z.of_nat <$> seq 0 (length (l_data l)))). split; [|split].
    + rewrite (tl_iter_run _ _ _ Hs). apply for_each_pure.
      intros i (n & -> & Hn%elem_of_seq)%list_elem_of_fmap.
      destruct (lookup_lt_is_Some_2 (l_data l) n) as [v Hv]; [lia|].
      unfold elem, TL.subscript, bind. rewrite list_index_nat, Hv. simpl.
      apply Hwrap. by rewrite list_index_nat.
    + by rewrite !length_fmap, length_seq.
    + intros i v Hv. rewrite !list_lookup_fmap.
      rewrite lookup_seq_lt by (by eapply lookup_lt_Some). simpl.
      unfold elem. by rewrite list_index_nat, Hv.
Qed.

Lemma X11_scalar_sequence_witness :
  reachable (exec (NewList [VScalar (SInt 1)] "") ∅) ∧
  exec (NewList [VScalar (SInt 1)] "") ∅ !! 0%nat
    = Some (OList (mkTrackedList [VScalar (SInt 1)] "" [])) ∧
  ∀ res, reports (exec (NewList [VScalar (SInt 1)] "") ∅) 0%nat res ↔ res = [].
Proof.
  split; [exact (reachable_exec _ (NewList [VScalar (SInt 1)] "") reachable_empty)|].
  split; [vm_compute; reflexivity|].
  apply (X11_scalar_sequence (exec (NewList [VScalar (SInt 1)] "") ∅) 0%nat
           (mkTrackedList [VScalar (SInt 1)] "" [])).
  - exact (reachable_exec _ (NewList [VScalar (SInt 1)] "") reachable_empty).
  - vm_compute; reflexivity.
  - intros v Hv. apply list_elem_of_singleton in Hv. rewrite Hv. exact (λ H, H).
Defined.

(** ** Iteration and indexed lookup agree *)

Lemma fresh_child_None v p p' : fresh_child v p = None → fresh_child v p' = None.
Proof. by destruct v. Qed.

Lemma settled_at_le self data (h h' : heap) index res :
  heap_le h h' → settled_at self data h index res → settled_at self data h' index res.
Proof.
  intros Hle (v & l & Hv & Hs & Hd & Hres).
  destruct (heap_le_list _ _ _ _ Hle Hs) as (l' & Hs' & Hd' & _ & Hch).
  exists v, l'. split; [done|]. split; [done|]. split; [congruence|].
  destruct (fresh_child v ""); [|done].
  destruct Hres as (c & -> & Hc). exists c. eauto using dict_lookup_prefix.
Qed.

Lemma settled_key_le self data (h h' : heap) key res :
  heap_le h h' → settled_key self data h key res → settled_key self data h' key res.
Proof.
  intros Hle (v & d & Hv & Hs & Hd & Hk & Hres).
  destruct (heap_le_dict _ _ _ _ Hle Hs) as (d' & Hs' & Hd' & _ & Ha & Hch).
  exists v, d'. split; [done|]. split; [done|]. split; [congruence|]. split; [auto|].
  destruct (fresh_child v ""); [|done].
  destruct Hres as (c & -> & Hc). exists c. eauto using dict_lookup_prefix.
Qed.

Lemma tl_wrap_settles (h : heap) self l index v :
  h !! self = Some (OList l) → list_index (l_data l) index = Some v →
  ∃ res h', TL._wrap self index v h = (Return res, h') ∧ heap_le h h' ∧
            settled_at self (l_data l) h' index res.
Proof.
  intros Hs Hv. destruct (tl_wrap_step _ _ _ _ _ Hs Hv) as (Hle & _).
  unfold final in Hle. rewrite (tl_wrap_run _ _ _ _ _ Hs) in Hle |- *.
  destruct (fresh_child v (TL._child_path l index)) as [o|] eqn:Ho.
  - assert (is_Some (fresh_child v "")) as [o' Ho']
      by (eapply fresh_child_path; by eexists).
    destruct (dict_lookup index (l_children l)) as [c|] eqn:Hc.
    + exists (PRef c), h. split; [done|]. split; [done|].
      exists v, l. rewrite Ho'. eauto 10.
    + eexists _, _. split; [done|]. split; [done|].
      exists v, (adopt_at l index (fresh (dom h))). rewrite Ho', lookup_insert_eq.
      repeat split; try done. eexists. split; [done|]. simpl. apply dict_lookup_set_eq.
  - exists (PRaw v), h. split; [done|]. split; [done|].
    exists v, l. by rewrite (fresh_child_None _ _ "" Ho).
Qed.

Lemma td_wrap_settles (h : heap) self d key v :
  h !! self = Some (ODict d) → dict_lookup key (d_data d) = Some v →
  key ∈ d_accessed d →
  ∃ res h', TD._wrap self key v h = (Return res, h') ∧ heap_le h h' ∧
            settled_key self (d_data d) h' key res.
Proof.
  intros Hs Hv Hk. destruct (td_wrap_step _ _ _ _ _ Hs Hv Hk) as (Hle & _).
  unfold final in Hle. rewrite (td_wrap_run _ _ _ _ _ Hs) in Hle |- *.
  destruct (fresh_child v (TD._child_path d key)) as [o|] eqn:Ho.
  - assert (is_Some (fresh_child v "")) as [o' Ho']
      by (eapply fresh_child_path; by eexists).
    destruct (dict_lookup key (d_children d)) as [c|] eqn:Hc.
    + exists (PRef c), h. split; [done|]. split; [done|].
      exists v, d. rewrite Ho'. eauto 10.
    + eexists _, _. split; [done|]. split; [done|].
      exists v, (adopt d key (fresh (dom h))). rewrite Ho', lookup_insert_eq.
      repeat split; try done. eexists. split; [done|]. simpl. apply dict_lookup_set_eq.
  - exists (PRaw v), h. split; [done|]. split; [done|].
    exists v, d. by rewrite (fresh_child_None _ _ "" Ho).
Qed.

Lemma settled_at_getitem self data (h : heap) index res :
  settled_at self data h index res → TL.__getitem__ self index h = (Return res, h).
Proof.
  intros (v & l & Hv & Hs & <- & Hres).
  rewrite (tl_getitem_run _ _ _ _ Hs), Hv, (tl_wrap_run _ _ _ _ _ Hs).
  destruct (fresh_child v "") as [o|] eqn:Ho.
  - destruct (fresh_child_path v "" (TL._child_path l index)) as [o' ->]; [by eexists|].
    destruct Hres as (c & -> & ->). done.
  - rewrite (fresh_child_None _ _ (TL._child_path l index) Ho). by subst.
Qed.

Lemma settled_key_getitem self data (h : heap) key res default :
  settled_key self data h key res →
  TD.__getitem__ self key h = (Return res, h) ∧
  TD.get self key default h = (Return res, h).
Proof.
  intros (v & d & Hv & Hs & <- & Hk & Hres).
  rewrite (td_getitem_run _ _ _ _ Hs), (td_get_run _ _ _ _ _ Hs), Hv.
  rewrite (mark_again _ _ _ _ Hs Hk), (td_wrap_run _ _ _ _ _ Hs).
  destruct (fresh_child v "") as [o|] eqn:Ho.
  - destruct (fresh_child_path v "" (TD._child_path d key)) as [o' ->]; [by eexists|].
    destruct Hres as (c & -> & ->). done.
  - rewrite (fresh_child_None _ _ (TD._child_path d key) Ho). by subst.
Qed.

Lemma Forall2_fst_eq {A B} (Q : A → A * B → Prop) (keys : list A) (prs : list (A * B)) :
  Forall2 (λ key pr, pr.1 = key ∧ Q key pr) keys prs → prs.*1 = keys.
Proof.
  induction 1 as [|key pr keys prs [Hkey _] _ IH]; [done|].
  rewrite fmap_cons. by f_equal.
Qed.

(** X12.  What [values()] and [items()] yield for a key is what the indexed
    and the defaulted lookup of that key return afterwards: the same scalar
    or the very same child node; and after the iteration these lookups change
    nothing in the store.  The iteration yields one item per key of the raw
    mapping, and [items()] pairs each with its key. *)
Theorem X12_values_then_lookup (h : heap) self d :
  h !! self = Some (ODict d) →
  (∃ vals h',
     TD.values self h = (Return vals, h') ∧
     length vals = length (d_data d) ∧
     ∀ (i : nat) key res default,
       dict_keys (d_data d) !! i = Some key → vals !! i = Some res →
       TD.__getitem__ self key h' = (Return res, h') ∧
       TD.get self key default h' = (Return res, h')) ∧
  (∃ prs h',
     TD.items self h = (Return prs, h') ∧
     prs.*1 = dict_keys (d_data d) ∧
     ∀ key res default,
       (key, res) ∈ prs →
       TD.__getitem__ self key h' = (Return res, h') ∧
       TD.get self key default h' = (Return res, h')).
Proof.
  intros Hs.
  assert (∀ key (h1 : heap), key ∈ dict_keys (d_data d) → all_marked self (d_data d) h1 →
            ∃ res h2,
              (v <- subscript (d_data d) key;; TD._wrap self key v) h1 = (Return res, h2) ∧
              all_marked self (d_data d) h2 ∧ heap_le h1 h2 ∧
              settled_key self (d_data d) h2 key res) as Hround.
  { intros key h1 Hkey (d1 & Hs1 & Hd1 & Hk1).
    destruct (proj1 (dict_lookup_keys _ _) Hkey) as [v Hv].
    destruct (td_wrap_settles h1 self d1 key v) as (res & h2 & Hrun & Hle & Hset);
      [done | by rewrite Hd1 | auto |].
    exists res, h2. split; [|split; [|split]].
    - by rewrite (bind_run _ _ _ _ v (eq_trans (subscript_run _ _ _)
                     ltac:(by rewrite Hv))).
    - destruct (td_wrap_self _ _ _ _ _ _ _ Hs1 Hrun) as (d2 & Hs2 & Hd2 & _ & Ha2).
      exists d2. split; [done|]. split; [congruence|]. intros k Hin. rewrite Ha2. auto.
    - done.
    - by rewrite <-Hd1. }
  split.
  - rewrite (td_values_run _ _ _ Hs).
    destruct (for_each_spec (all_marked self (d_data d)) (settled_key self (d_data d))
                (λ key, v <- subscript (d_data d) key;; TD._wrap self key v)
                (dict_keys (d_data d)))
      with (h := <[self := ODict (mark d (dict_keys (d_data d)))]> h)
      as (vals & h' & Hrun & _ & _ & Hq).
    + intros h1 h2 key res. apply settled_key_le.
    + intros key h1 Hkey Hm. by apply Hround.
    + by apply all_marked_mark.
    + exists vals, h'. split; [done|]. split.
      * apply Forall2_length in Hq. unfold dict_keys in Hq.
        by rewrite length_fmap in Hq.
      * intros i key res default Hi Hres.
        destruct (Forall2_lookup_l _ _ _ _ _ Hq Hi) as (res' & Hres' & Hset).
        assert (res' = res) as -> by congruence.
        by apply (settled_key_getitem self (d_data d)).
  - rewrite (td_items_run _ _ _ Hs).
    destruct (for_each_spec (all_marked self (d_data d))
                (λ h1 key (pr : string * pyval),
                   pr.1 = key ∧ settled_key self (d_data d) h1 key pr.2)
                (λ key, v <- subscript (d_data d) key;;
                        w <- TD._wrap self key v;; ret (key, w))
                (dict_keys (d_data d)))
      with (h := <[self := ODict (mark d (dict_keys (d_data d)))]> h)
      as (prs & h' & Hrun & _ & _ & Hq).
    + intros h1 h2 key pr Hle [? ?]. eauto using settled_key_le.
    + intros key h1 Hkey Hm.
      destruct (Hround key h1 Hkey Hm) as (res & h2 & Hrun & Hm2 & Hle & Hset).
      exists (key, res), h2. split; [|done].
      destruct (proj1 (dict_lookup_keys _ _) Hkey) as [v Hv].
      cbv beta. unfold bind in Hrun |- *. rewrite subscript_run, Hv in Hrun |- *.
      by rewrite Hrun.
    + by apply all_marked_mark.
    + exists prs, h'. split; [done|]. split.
      * eapply Forall2_fst_eq, Hq.
      * intros key res default Hin.
        apply list_elem_of_lookup in Hin as [i Hi].
        destruct (Forall2_lookup_r _ _ _ _ _ Hq Hi) as (key' & _ & Heq & Hset).
        simpl in Heq, Hset. subst key'.
        by apply (settled_key_getitem self (d_data d)).
Qed.

Lemma X12_values_then_lookup_witness :
  section_store !! 0%nat = Some (ODict section_fresh_root) ∧
  ∃ vals h',
    TD.values 0%nat section_store = (Return vals, h') ∧
    length vals = length (d_data section_fresh_root) ∧
    ∀ (i : nat) key res default,
      dict_keys (d_data section_fresh_root) !! i = Some key → vals !! i = Some res →
      TD.__getitem__ 0%nat key h' = (Return res, h') ∧
      TD.get 0%nat key default h' = (Return res, h').
Proof.
  split; [vm_compute; reflexivity|].
  apply (proj1 (X12_values_then_lookup section_store 0%nat section_fresh_root
                  ltac:(vm_compute; reflexivity))).
Defined.

(** X13.  What iterating a sequence node yields at a position is what the
    indexed lookup of that position returns afterwards: the same scalar or
    the very same child node; after the iteration these lookups change
    nothing in the store.  The iteration yields one item per element. *)
Theorem X13_iter_then_lookup (h : heap) self l :
  h !! self = Some (OList l) →
  ∃ vals h',
    TL.__iter__ self h = (Return vals, h') ∧
    length vals = length (l_data l) ∧
    ∀ (i : nat) res,
      vals !! i = Some res →
      TL.__getitem__ self (Z.of_nat i) h' = (Return res, h').
Proof.
  intros Hs. rewrite (tl_iter_run _ _ _ Hs).
  destruct (for_each_spec
              (λ h1, ∃ l1, h1 !! self = Some (OList l1) ∧ l_data l1 = l_data l)
              (settled_at self (l_data l))
              (λ i, v <- TL.subscript (l_data l) i;; TL._wrap self i v)
              (Z.of_nat <$> seq 0 (length (l_data l))))
    with (h := h) as (vals & h' & Hrun & _ & _ & Hq).
  - intros h1 h2 i res. apply settled_at_le.
  - intros i h1 (n & -> & Hn%elem_of_seq)%list_elem_of_fmap (l1 & Hs1 & Hl1).
    destruct (lookup_lt_is_Some_2 (l_data l) n) as [v Hv]; [lia|].
    destruct (tl_wrap_settles h1 self l1 (Z.of_nat n) v) as (res & h2 & Hrun & Hle & Hset);
      [done | by rewrite Hl1, list_index_nat |].
    exists res, h2. split; [|split; [|split]].
    + unfold bind, TL.subscript. by rewrite list_index_nat, Hv.
    + destruct (tl_wrap_self _ _ _ _ _ _ _ Hs1 Hrun) as (l2 & Hs2 & Hl2 & _).
      exists l2. split; [done | congruence].
    + done.
    + by rewrite <-Hl1.
  - eauto.
  - exists vals, h'. split; [done|].
    pose proof (Forall2_length _ _ _ Hq) as Hlen.
    rewrite length_fmap, length_seq in Hlen. split; [done|].
    intros i res Hres.
    destruct (Forall2_lookup_r _ _ _ _ _ Hq Hres) as (j & Hj & Hset).
    rewrite list_lookup_fmap in Hj.
    rewrite lookup_seq_lt in Hj by (rewrite Hlen; by eapply lookup_lt_Some).
    simpl in Hj. injection Hj as <-. by apply settled_at_getitem in Hset.
Qed.

Lemma X13_iter_then_lookup_witness :
  small_list_store !! 0%nat = Some (OList small_list_root) ∧
  ∃ vals h',
    TL.__iter__ 0%nat small_list_store = (Return vals, h') ∧
    length vals = length (l_data small_list_root) ∧
    ∀ (i : nat) res,
      vals !! i = Some res →
      TL.__getitem__ 0%nat (Z.of_nat i) h' = (Return res, h').
Proof.
  split; [vm_compute; reflexivity|].
  apply (X13_iter_then_lookup small_list_store 0%nat small_list_root).
  vm_compute; reflexivity.
Defined.

(** ** Negative indices *)

Lemma dict_lookup_set_ne {K V} `{EqDecision K} (k k' : K) (v : V) (d : list (K * V)) :
  k ≠ k' → dict_lookup k' (dict_set k v d) = dict_lookup k' d.
Proof.
  intros Hne. induction d as [|[k0 v0] d IH]; simpl.
  - by rewrite decide_False.
  - destruct (decide (k = k0)) as [->|Hk]; simpl.
    + by rewrite !decide_False.
    + destruct (decide (k' = k0)); [done | apply IH].
Qed.

Lemma list_index_negative {A} (l : list A) (i : Z) x :
  i < 0 → list_index l i = Some x → list_index l (Z.of_nat (length l) + i) = Some x.
Proof.
  intros Hi. unfold list_index at 1. rewrite decide_False by lia.
  case_decide; [|done]. intros Hx. unfold list_index. by rewrite decide_True by lia.
Qed.

Lemma fresh_child_node v p o : fresh_child v p = Some o → raw_of o = v ∧ path_of o = p.
Proof. destruct v; simpl; intros [= <-]; done. Qed.

(** X14.  A sequence node caches under the index as it is written.  An
    element reached once with a negative index and once with the matching
    index from the front is wrapped twice: the two lookups return two
    different nodes over the same raw value, one with the path [p[-k]] and
    one with the path [p[len-k]]. *)
Theorem X14_negative_index_alias (h : heap) self l index v :
  h !! self = Some (OList l) → index < 0 →
  list_index (l_data l) index = Some v → is_container v →
  dict_lookup index (l_children l) = None →
  dict_lookup (Z.of_nat (length (l_data l)) + index) (l_children l) = None →
  ∃ c1 c2 h1 h2 o1 o2,
    TL.__getitem__ self index h = (Return (PRef c1), h1) ∧
    TL.__getitem__ self (Z.of_nat (length (l_data l)) + index) h1
      = (Return (PRef c2), h2) ∧
    c1 ≠ c2 ∧ h2 !! c1 = Some o1 ∧ h2 !! c2 = Some o2 ∧
    raw_of o1 = v ∧ raw_of o2 = v ∧
    path_of o1 = l_path l +:+ "[" +:+ pretty index +:+ "]" ∧
    path_of o2 = l_path l +:+ "[" +:+
                   pretty (Z.of_nat (length (l_data l)) + index) +:+ "]".
Proof.
  intros Hs Hneg Hv Hcont Hn1 Hn2.
  set (j := Z.of_nat (length (l_data l)) + index).
  assert (0 ≤ j) as Hj.
  { pose proof (proj1 (list_index_is_Some (l_data l) index) ltac:(by eexists)). lia. }
  destruct (proj2 (fresh_child_container v (TL._child_path l index)) Hcont) as [o1 Ho1].
  destruct (proj2 (fresh_child_container v (TL._child_path l j)) Hcont) as [o2 Ho2].
  set (c1 := fresh (dom h)).
  set (h1 := <[self := OList (adopt_at l index c1)]> (<[c1 := o1]> h)).
  set (c2 := fresh (dom h1)).
  set (h2 := <[self := OList (adopt_at (adopt_at l index c1) j c2)]> (<[c2 := o2]> h1)).
  assert (self ≠ c1) as Hne1 by eauto using fresh_ne.
  assert (h1 !! self = Some (OList (adopt_at l index c1))) as Hs1 by apply lookup_insert_eq.
  assert (h1 !! c1 = Some o1) as Hc1.
  { unfold h1. rewrite lookup_insert_ne by done. apply lookup_insert_eq. }
  assert (self ≠ c2) as Hne2 by eauto using fresh_ne.
  assert (c1 ≠ c2) as Hne12 by eauto using fresh_ne.
  exists c1, c2, h1, h2, o1, o2.
  split; [|split; [|split; [done|split; [|split]]]].
  - rewrite (tl_getitem_run _ _ _ _ Hs), Hv, (tl_wrap_run _ _ _ _ _ Hs), Ho1, Hn1. done.
  - pose proof (list_index_negative _ _ _ Hneg Hv) as Hvj. fold j in Hvj, Hn2.
    rewrite (tl_getitem_run _ _ _ _ Hs1). simpl. rewrite Hvj.
    rewrite (tl_wrap_run _ _ _ _ _ Hs1).
    change (TL._child_path (adopt_at l index c1) j) with (TL._child_path l j).
    rewrite Ho2. simpl. rewrite dict_lookup_set_ne by lia. rewrite Hn2. done.
  - unfold h2. rewrite !lookup_insert_ne by done. done.
  - unfold h2. rewrite lookup_insert_ne by done. apply lookup_insert_eq.
  - destruct (fresh_child_node _ _ _ Ho1) as [? ?].
    destruct (fresh_child_node _ _ _ Ho2) as [? ?]. done.
Qed.

Lemma X14_negative_index_alias_witness :
  small_list_store !! 0%nat = Some (OList small_list_root) ∧
  ∃ c1 c2 h1 h2 o1 o2,
    TL.__getitem__ 0%nat (-1) small_list_store = (Return (PRef c1), h1) ∧
    TL.__getitem__ 0%nat (Z.of_nat (length (l_data small_list_root)) + -1) h1
      = (Return (PRef c2), h2) ∧
    c1 ≠ c2 ∧ h2 !! c1 = Some o1 ∧ h2 !! c2 = Some o2 ∧
    raw_of o1 = VDict small_tree ∧ raw_of o2 = VDict small_tree ∧
    path_of o1 = l_path small_list_root +:+ "[" +:+ pretty (-1) +:+ "]" ∧
    path_of o2 = l_path small_list_root +:+ "[" +:+
                   pretty (Z.of_nat (length (l_data small_list_root)) + -1) +:+ "]".
Proof.
  split; [vm_compute; reflexivity|].
  apply (X14_negative_index_alias small_list_store 0%nat small_list_root (-1)
           (VDict small_tree)).
  - vm_compute; reflexivity.
  - reflexivity.
  - reflexivity.
  - exact I.
  - reflexivity.
  - reflexivity.
Defined.

(** ** Length, truth value and the keys *)

(** X15.  The container protocol of a map node answers from the raw mapping
    and reads nothing: the length is the number of keys that iteration
    yields, [keys()] yields what iteration yields, the truth value is false
    exactly for length zero, and [key in M] is true exactly for the keys that
    iteration yields.  For a sequence node the length is that of the raw
    sequence and the truth value is false exactly for length zero. *)
Theorem X15_container_protocol (h : heap) self :
  (∀ d, h !! self = Some (ODict d) →
     ∃ ks, TD.__iter__ self h = (Return ks, h) ∧
           TD.keys self h = (Return ks, h) ∧
           TD.__len__ self h = (Return (length ks), h) ∧
           TD.__bool__ self h = (Return (negb (Nat.eqb (length ks) 0)), h) ∧
           TD.raw self h = (Return (d_data d), h) ∧ ks = (d_data d).*1 ∧
           ∀ key, TD.__contains__ self key h = (Return (bool_decide (key ∈ ks)), h)) ∧
  (∀ l, h !! self = Some (OList l) →
     TL.__len__ self h = (Return (length (l_data l)), h) ∧
     TL.__bool__ self h = (Return (negb (Nat.eqb (length (l_data l)) 0)), h) ∧
     TL.raw self h = (Return (l_data l), h)).
Proof.
  split.
  - intros d Hs. pose proof (load_dict_run _ _ _ Hs) as Hl.
    exists (dict_keys (d_data d)).
    unfold TD.__iter__, TD.keys, TD.__len__, TD.__bool__, TD.raw, TD.__contains__.
    rewrite !(bind_run _ _ _ _ _ Hl). unfold ret, dict_keys. rewrite length_fmap.
    repeat split; try done.
    + by destruct (d_data d).
    + intros key. rewrite (bind_run _ _ _ _ _ Hl). unfold ret. do 2 f_equal.
      unfold dict_mem. apply bool_decide_ext. symmetry. apply dict_lookup_keys.
  - intros l Hs. pose proof (load_list_run _ _ _ Hs) as Hl.
    unfold TL.__len__, TL.__bool__, TL.raw.
    rewrite !(bind_run _ _ _ _ _ Hl). unfold ret. repeat split.
    by destruct (l_data l).
Qed.

(** ** Reading a scalar *)

(** The report of a node does not depend on an object that wraps a deeper
    raw tree than the node does: such an object is not below the node. *)
Lemma unaccessed_frame fuel (h h' : heap) self o_self c o :
  wf_heap h → (∀ r, r ≠ self → h' !! r = h !! r) →
  h !! self = Some o_self → h !! c = Some o →
  (depth (raw_of o) < depth (raw_of o_self))%nat →
  unaccessed fuel h' c = unaccessed fuel h c.
Proof.
  intros Hwf Hsame Hs. revert c o.
  induction fuel as [|fuel IH]; intros c o Hc Hd; [done|].
  assert (c ≠ self) as Hne.
  { intros ->. assert (o = o_self) as -> by congruence. lia. }
  assert (h' !! c = Some o) as Hc' by (by rewrite Hsame).
  pose proof (Hwf _ _ Hc) as Ho. destruct o as [d0|l0]; simpl in Ho.
  - rewrite (unaccessed_dict _ _ _ _ Hc), (unaccessed_dict _ _ _ _ Hc').
    erewrite mapM_ext_in; [done|]. intros key _. unfold contribution.
    case_decide; [done|].
    destruct (dict_lookup key (d_children d0)) as [c'|] eqn:Hkc; [|done].
    destruct (Ho _ _ (dict_lookup_elem _ _ _ Hkc)) as (v & o' & Hv & Hco' & Hn).
    apply (IH c' o'); [done|]. rewrite (node_of_raw _ _ _ Hn).
    apply depth_dict_lookup in Hv.
    change (raw_of (ODict d0)) with (VDict (d_data d0)) in Hd. lia.
  - rewrite (unaccessed_list _ _ _ _ Hc), (unaccessed_list _ _ _ _ Hc').
    erewrite mapM_ext_in; [done|]. intros c' Hin.
    apply list_elem_of_fmap in Hin as ([i c''] & -> & Hic).
    destruct (Ho _ _ Hic) as (v & o' & Hv & Hco' & Hn).
    apply (IH c'' o'); [done|]. rewrite (node_of_raw _ _ _ Hn).
    apply list_index_elem, depth_list_elem in Hv.
    change (raw_of (OList l0)) with (VList (l_data l0)) in Hd. lia.
Qed.

(** The children of a node report the same whatever the node itself
    records. *)
Lemma child_report_frame (h : heap) self d d' key c part :
  wf_heap h → h !! self = Some (ODict d) →
  dict_lookup key (d_children d) = Some c →
  reports (<[self := ODict d']> h) c part ↔ reports h c part.
Proof.
  intros Hwf Hs Hc.
  destruct (Hwf _ _ Hs _ _ (dict_lookup_elem _ _ _ Hc)) as (v & o & Hv & Ho & Hn).
  assert (∀ fuel, unaccessed fuel (<[self := ODict d']> h) c = unaccessed fuel h c) as Heq.
  { intros fuel. apply (unaccessed_frame fuel h _ self (ODict d) c o); [done| |done..|].
    - intros r Hr. by rewrite lookup_insert_ne.
    - rewrite (node_of_raw _ _ _ Hn). by apply depth_dict_lookup in Hv. }
  split; intros [fuel Hu]; exists fuel; by rewrite ?Heq in *.
Qed.

(** X16.  On a store a client can reach, the indexed lookup of a key whose
    value is a scalar returns the scalar, caches nothing, and removes from
    the report of the node exactly what that key emitted: afterwards the key
    emits nothing and every other key emits what it emitted before. *)
Theorem X16_scalar_read (h : heap) self d key v :
  reachable h → h !! self = Some (ODict d) →
  dict_lookup key (d_data d) = Some v → ¬ is_container v →
  ∃ h' d',
    TD.__getitem__ self key h = (Return (PRaw v), h') ∧
    h' !! self = Some (ODict d') ∧ d_children d' = d_children d ∧
    (∀ r, r ≠ self → h' !! r = h !! r) ∧
    (∀ part, emits h' d' key part ↔ part = []) ∧
    (∀ k part, k ≠ key → emits h' d' k part ↔ emits h d k part).
Proof.
  intros Hwf%reachable_wf Hs Hv Hscalar.
  assert (dict_lookup key (d_children d) = None) as Hnone.
  { destruct (dict_lookup key (d_children d)) as [c|] eqn:Hc; [|done].
    destruct (Hwf _ _ Hs _ _ (dict_lookup_elem _ _ _ Hc)) as (v' & o & Hv' & _ & Hn).
    destruct Hscalar. assert (v' = v) as <- by congruence. by eapply node_of_container. }
  assert (fresh_child v (TD._child_path (mark d [key]) key) = None) as Hfc.
  { destruct (fresh_child v _) eqn:Ho; [|done]. destruct Hscalar.
    apply (fresh_child_container v (TD._child_path (mark d [key]) key)). by eexists. }
  exists (<[self := ODict (mark d [key])]> h), (mark d [key]).
  split; [|split; [apply lookup_insert_eq|split; [done|split; [|split]]]].
  - rewrite (td_getitem_run _ _ _ _ Hs), Hv.
    erewrite td_wrap_run by apply lookup_insert_eq. by rewrite Hfc.
  - intros r Hr. by rewrite lookup_insert_ne.
  - intros part. rewrite emits_accessed by (simpl; set_solver).
    unfold below_key. simpl. by rewrite Hnone.
  - intros k part Hk. split.
    + intros [Hn|c res Ha Hc Hrep|Ha Hc].
      * refine (emits_unaccessed h d k _). simpl in Hn. set_solver.
      * simpl in Ha, Hc. eapply emits_child; [set_solver|done|].
        by eapply child_report_frame.
      * simpl in Ha, Hc. apply emits_nothing; [set_solver|done].
    + intros [Hn|c res Ha Hc Hrep|Ha Hc].
      * refine (emits_unaccessed _ (mark d [key]) k _). simpl. set_solver.
      * eapply (emits_child _ (mark d [key])); [simpl; set_solver|done|].
        by eapply child_report_frame.
      * apply (emits_nothing _ (mark d [key])); [simpl; set_solver|done].
Qed.

Lemma X16_scalar_read_witness :
  reachable small_store ∧ small_store !! 0%nat = Some (ODict small_root) ∧
  ∃ h' d',
    TD.__getitem__ 0%nat "a" small_store = (Return (PRaw (VScalar (SInt 1))), h') ∧
    h' !! 0%nat = Some (ODict d') ∧ d_children d' = d_children small_root ∧
    (∀ r, r ≠ 0%nat → h' !! r = small_store !! r) ∧
    (∀ part, emits h' d' "a" part ↔ part = []) ∧
    (∀ k part, k ≠ "a" → emits h' d' k part ↔ emits small_store small_root k part).
Proof.
  split; [exact (reachable_exec _ (NewDict small_tree "") reachable_empty)|].
  split; [vm_compute; reflexivity|].
  apply (X16_scalar_read small_store 0%nat small_root "a" (VScalar (SInt 1))).
  - exact (reachable_exec _ (NewDict small_tree "") reachable_empty).
  - vm_compute; reflexivity.
  - reflexivity.
  - exact (λ H, H).
Defined.

(** ** Calls are local *)

Global Instance local_step_preorder self : PreOrder (local_step self).
Proof.
  split.
  - intros h. split; [done|]. by intros r o _ Hr.
  - intros h1 h2 h3 [H12 E12] [H23 E23]. split; [by etrans|].
    intros r o Hne Hr. by apply E23, E12.
Qed.

Lemma for_each_rel {A B} (R : relation heap) `{!PreOrder R} (P : heap → Prop)
    (f : A → M B) (xs : list A) :
  (∀ h h', P h → R h h' → P h') →
  (∀ x h, x ∈ xs → P h → R h (final (f x) h)) →
  ∀ h, P h → R h (final (for_each f xs) h).
Proof.
  intros HP. induction xs as [|x xs IH]; intros Hf h Hh; simpl; [done|].
  assert (R h (final (f x) h)) as Hx by (apply Hf; [left | done]).
  unfold final in *. unfold bind at 1.
  destruct (f x h) as [[y|e] h1] eqn:Hfx; simpl in *; [|done].
  assert (R h1 (for_each f xs h1).2) as Hxs.
  { apply IH; [|by eapply HP]. intros x' h' Hx'. apply Hf. by right. }
  unfold bind. destruct (for_each f xs h1) as [[ys|e] h2]; simpl in *; by etrans.
Qed.

Lemma mark_local (h : heap) self d keys :
  h !! self = Some (ODict d) → local_step self h (<[self := ODict (mark d keys)]> h).
Proof.
  intros Hs. split; [by apply mark_step|]. intros r o Hne Hr. by rewrite lookup_insert_ne.
Qed.

Lemma td_wrap_local (h : heap) self d key v :
  h !! self = Some (ODict d) → dict_lookup key (d_data d) = Some v →
  key ∈ d_accessed d → local_step self h (final (TD._wrap self key v) h).
Proof.
  intros Hs Hv Hk. split; [by eapply td_wrap_step|].
  unfold final. rewrite (td_wrap_run _ _ _ _ _ Hs).
  destruct (fresh_child v _); [|by (simpl; intros r' o' Hne Hr)].
  destruct (dict_lookup key (d_children d)); [by (simpl; intros r' o' Hne Hr)|].
  simpl. intros r o' Hne Hr. rewrite lookup_insert_ne by done.
  rewrite lookup_insert_ne; [done|]. intros <-. by rewrite fresh_lookup in Hr.
Qed.

Lemma tl_wrap_local (h : heap) self l index v :
  h !! self = Some (OList l) → list_index (l_data l) index = Some v →
  local_step self h (final (TL._wrap self index v) h).
Proof.
  intros Hs Hv. split; [by eapply tl_wrap_step|].
  unfold final. rewrite (tl_wrap_run _ _ _ _ _ Hs).
  destruct (fresh_child v _); [|by (simpl; intros r' o' Hne Hr)].
  destruct (dict_lookup index (l_children l)); [by (simpl; intros r' o' Hne Hr)|].
  simpl. intros r o' Hne Hr. rewrite lookup_insert_ne by done.
  rewrite lookup_insert_ne; [done|]. intros <-. by rewrite fresh_lookup in Hr.
Qed.

Lemma all_marked_local self data (h h' : heap) :
  all_marked self data h → local_step self h h' → all_marked self data h'.
Proof. intros Hm [Hstep _]. by eapply all_marked_step. Qed.

Lemma exec_td_local (h : heap) self c : local_step self h (exec_td self c h).
Proof.
  destruct (h !! self) as [[d|l]|] eqn:Hs;
    [|rewrite exec_td_not_dict by (intros ?; congruence); done..].
  pose proof (load_dict_run _ _ _ Hs) as Hl.
  assert (∀ key v (h1 : heap), key ∈ dict_keys (d_data d) →
            dict_lookup key (d_data d) = Some v → all_marked self (d_data d) h1 →
            local_step self h1 (final (TD._wrap self key v) h1)) as Hround.
  { intros key v h1 Hkey Hv (d1 & Hs1 & Hd1 & Hk1).
    eapply td_wrap_local; [done | by rewrite Hd1 | auto]. }
  destruct c; simpl.
  - unfold final. rewrite (td_getitem_run _ _ _ _ Hs).
    pose proof (mark_local h self d [key] Hs) as Hm.
    destruct (dict_lookup key (d_data d)) as [v|] eqn:Hv; [|done].
    etrans; [done|]. eapply td_wrap_local; [apply lookup_insert_eq|done|].
    simpl. set_solver.
  - unfold final. rewrite (td_get_run _ _ _ _ _ Hs).
    pose proof (mark_local h self d [key] Hs) as Hm.
    destruct (dict_lookup key (d_data d)) as [v|] eqn:Hv; [|done].
    etrans; [done|]. eapply td_wrap_local; [apply lookup_insert_eq|done|].
    simpl. set_solver.
  - unfold TD.__contains__. rewrite (final_bind_run _ _ _ _ _ Hl). reflexivity.
  - unfold TD.__len__. rewrite (final_bind_run _ _ _ _ _ Hl). reflexivity.
  - unfold TD.__bool__. rewrite (final_bind_run _ _ _ _ _ Hl). reflexivity.
  - unfold TD.__iter__. rewrite (final_bind_run _ _ _ _ _ Hl). reflexivity.
  - unfold TD.keys. rewrite (final_bind_run _ _ _ _ _ Hl). reflexivity.
  - unfold final. rewrite (td_values_run _ _ _ Hs).
    etrans; [by apply (mark_local h self d (dict_keys (d_data d)))|].
    apply (for_each_rel (local_step self) (all_marked self (d_data d)));
      [apply all_marked_local| |by apply all_marked_mark].
    intros key h1 Hkey Hm.
    destruct (proj1 (dict_lookup_keys _ _) Hkey) as [v Hv].
    erewrite final_bind_run by (by rewrite subscript_run, Hv). by apply Hround.
  - unfold final. rewrite (td_items_run _ _ _ Hs).
    etrans; [by apply (mark_local h self d (dict_keys (d_data d)))|].
    apply (for_each_rel (local_step self) (all_marked self (d_data d)));
      [apply all_marked_local| |by apply all_marked_mark].
    intros key h1 Hkey Hm.
    destruct (proj1 (dict_lookup_keys _ _) Hkey) as [v Hv].
    erewrite final_bind_run by (by rewrite subscript_run, Hv).
    pose proof (Hround key v h1 Hkey Hv Hm) as Hw.
    unfold final in *. unfold bind.
    by destruct (TD._wrap self key v h1) as [[w|e] h2].
  - unfold TD.raw. rewrite (final_bind_run _ _ _ _ _ Hl). reflexivity.
  - unfold TD.mark_accessed, final. rewrite (accessed_update_run _ _ _ _ Hs).
    by apply mark_local.
  - unfold TD.mark_all_accessed. rewrite (final_bind_run _ _ _ _ _ Hl).
    unfold final. rewrite (accessed_update_run _ _ _ _ Hs). by apply mark_local.
  - unfold TD.accessed_keys. rewrite (final_bind_run _ _ _ _ _ Hl). reflexivity.
  - unfold TD.__eq__. rewrite (final_bind_run _ _ _ _ _ Hl). unfold final.
    destruct other as [[]|o]; simpl; try reflexivity.
    destruct (h !! o) as [[]|]; reflexivity.
Qed.

Lemma exec_tl_local (h : heap) self c : local_step self h (exec_tl self c h).
Proof.
  destruct (h !! self) as [[d|l]|] eqn:Hs;
    [rewrite exec_tl_not_list by (intros ?; congruence); done| |
     rewrite exec_tl_not_list by (intros ?; congruence); done].
  pose proof (load_list_run _ _ _ Hs) as Hl.
  destruct c; simpl.
  - unfold final. rewrite (tl_getitem_run _ _ _ _ Hs).
    destruct (list_index (l_data l) index) as [v|] eqn:Hv; [|done].
    by eapply tl_wrap_local.
  - unfold TL.__len__. rewrite (final_bind_run _ _ _ _ _ Hl). reflexivity.
  - unfold TL.__bool__. rewrite (final_bind_run _ _ _ _ _ Hl). reflexivity.
  - unfold final. rewrite (tl_iter_run _ _ _ Hs).
    apply (for_each_rel (local_step self)
             (λ h1, ∃ l1, h1 !! self = Some (OList l1) ∧ l_data l1 = l_data l));
      [| |by eauto].
    + intros h1 h2 (l1 & Hs1 & Hl1) [(Hle & _) _].
      destruct (heap_le_list _ _ _ _ Hle Hs1) as (l2 & Hs2 & Hl2 & _).
      exists l2. split; [done | congruence].
    + intros i h1 (n & -> & Hn%elem_of_seq)%list_elem_of_fmap (l1 & Hs1 & Hl1).
      destruct (lookup_lt_is_Some_2 (l_data l) n) as [v Hv]; [lia|].
      erewrite final_bind_run
        by (unfold TL.subscript; by rewrite list_index_nat, Hv).
      eapply tl_wrap_local; [done|]. by rewrite Hl1, list_index_nat.
  - unfold TL.raw. rewrite (final_bind_run _ _ _ _ _ Hl). reflexivity.
  - unfold TL.__eq__. rewrite (final_bind_run _ _ _ _ _ Hl). unfold final.
    destruct other as [[]|o]; simpl; try reflexivity.
    destruct (h !! o) as [[]|]; reflexivity.
Qed.

(** X17.  Tracking is per node.  A call on a node, of either class, changes
    the bookkeeping of that node and may add child nodes to the store; every
    other object that was in the store is left exactly as it was.  So reading
    through a parent never changes what a child has recorded, reading through
    a child never marks anything in its parent, and no lookup on a sequence
    changes the accessed set of any map node. *)
Theorem X17_calls_are_local (h : heap) self r o :
  r ≠ self → h !! r = Some o →
  (∀ c, exec_td self c h !! r = Some o) ∧
  (∀ c, exec_tl self c h !! r = Some o).
Proof.
  intros Hne Hr. split; intros c.
  - by apply (exec_td_local h self c).
  - by apply (exec_tl_local h self c).
Qed.

Lemma X17_calls_are_local_witness :
  1%nat ≠ 0%nat ∧
  section_wrapped !! 1%nat
    = Some (ODict (mkTrackedDict [("a", VScalar (SInt 1)); ("b", VScalar (SInt 2))]
                     "section" ∅ [])) ∧
  (∀ c, exec_td 0%nat c section_wrapped !! 1%nat
          = Some (ODict (mkTrackedDict [("a", VScalar (SInt 1)); ("b", VScalar (SInt 2))]
                           "section" ∅ []))) ∧
  (∀ c, exec_tl 0%nat c section_wrapped !! 1%nat
          = Some (ODict (mkTrackedDict [("a", VScalar (SInt 1)); ("b", VScalar (SInt 2))]
                           "section" ∅ []))).
Proof.
  split; [lia|]. split; [vm_compute; reflexivity|].
  apply (X17_calls_are_local section_wrapped 0%nat 1%nat).
  - lia.
  - vm_compute; reflexivity.
Defined.

(** ** The tracked nodes form a forest *)

Lemma prim_step_le (h h' : heap) : prim_step h h' → heap_le h h'.
Proof.
  intros [h0 self d keys Hs|h0 data path|h0 data path
          |h0 self d key v p o Hs Hnone Ho|h0 self l index v p o Hs Hnone Ho].
  - eauto using heap_le_update, object_le_mark.
  - apply heap_le_alloc, fresh_lookup.
  - apply heap_le_alloc, fresh_lookup.
  - etrans; [apply heap_le_alloc, fresh_lookup|].
    eapply heap_le_update; [|by apply object_le_adopt].
    rewrite lookup_insert_ne; [done|]. intros Heq. by eapply fresh_ne.
  - etrans; [apply heap_le_alloc, fresh_lookup|].
    eapply heap_le_update; [|by apply object_le_adopt_at].
    rewrite lookup_insert_ne; [done|]. intros Heq. by eapply fresh_ne.
Qed.

Lemma prim_steps_le (h h' : heap) : rtc prim_step h h' → heap_le h h'.
Proof. induction 1; [done|]. etrans; [by apply prim_step_le | done]. Qed.

Lemma all_marked_prims self data (h h' : heap) :
  all_marked self data h → rtc prim_step h h' → all_marked self data h'.
Proof.
  intros (d & Hs & Hd & Hk) Hle%prim_steps_le.
  destruct (heap_le_dict _ _ _ _ Hle Hs) as (d' & Hs' & Hd' & _ & Ha & _).
  exists d'. split; [done|]. split; [congruence|]. intros k Hin. apply Ha. auto.
Qed.

Lemma td_wrap_prims (h : heap) self d key v :
  h !! self = Some (ODict d) → rtc prim_step h (final (TD._wrap self key v) h).
Proof.
  intros Hs. unfold final. rewrite (td_wrap_run _ _ _ _ _ Hs).
  destruct (fresh_child v (TD._child_path d key)) as [o|] eqn:Ho; [|done].
  destruct (dict_lookup key (d_children d)) as [c|] eqn:Hc; [done|].
  simpl. apply rtc_once. by eapply prim_adopt.
Qed.

Lemma tl_wrap_prims (h : heap) self l index v :
  h !! self = Some (OList l) → rtc prim_step h (final (TL._wrap self index v) h).
Proof.
  intros Hs. unfold final. rewrite (tl_wrap_run _ _ _ _ _ Hs).
  destruct (fresh_child v (TL._child_path l index)) as [o|] eqn:Ho; [|done].
  destruct (dict_lookup index (l_children l)) as [c|] eqn:Hc; [done|].
  simpl. apply rtc_once. by eapply prim_adopt_at.
Qed.

Lemma exec_td_prims (h : heap) self c : rtc prim_step h (exec_td self c h).
Proof.
  destruct (h !! self) as [[d|l]|] eqn:Hs;
    [|rewrite exec_td_not_dict by (intros ?; congruence); done..].
  pose proof (load_dict_run _ _ _ Hs) as Hl.
  assert (∀ ks, rtc prim_step h (<[self := ODict (mark d ks)]> h)) as Hmark
    by (intros ks; apply rtc_once; by constructor).
  assert (∀ key v (h1 : heap), all_marked self (d_data d) h1 →
            rtc prim_step h1 (final (TD._wrap self key v) h1)) as Hround.
  { intros key v h1 (d1 & Hs1 & _). by eapply td_wrap_prims. }
  destruct c; simpl.
  - unfold final. rewrite (td_getitem_run _ _ _ _ Hs).
    destruct (dict_lookup key (d_data d)) as [v|] eqn:Hv; [|by apply Hmark].
    etrans; [apply (Hmark [key])|]. eapply td_wrap_prims, lookup_insert_eq.
  - unfold final. rewrite (td_get_run _ _ _ _ _ Hs).
    destruct (dict_lookup key (d_data d)) as [v|] eqn:Hv; [|by apply Hmark].
    etrans; [apply (Hmark [key])|]. eapply td_wrap_prims, lookup_insert_eq.
  - unfold TD.__contains__. rewrite (final_bind_run _ _ _ _ _ Hl). reflexivity.
  - unfold TD.__len__. rewrite (final_bind_run _ _ _ _ _ Hl). reflexivity.
  - unfold TD.__bool__. rewrite (final_bind_run _ _ _ _ _ Hl). reflexivity.
  - unfold TD.__iter__. rewrite (final_bind_run _ _ _ _ _ Hl). reflexivity.
  - unfold TD.keys. rewrite (final_bind_run _ _ _ _ _ Hl). reflexivity.
  - unfold final. rewrite (td_values_run _ _ _ Hs).
    etrans; [apply (Hmark (dict_keys (d_data d)))|].
    apply (for_each_rel (rtc prim_step) (all_marked self (d_data d)));
      [apply all_marked_prims| |by apply all_marked_mark].
    intros key h1 Hkey Hm.
    destruct (proj1 (dict_lookup_keys _ _) Hkey) as [v Hv].
    erewrite final_bind_run by (by rewrite subscript_run, Hv). by apply Hround.
  - unfold final. rewrite (td_items_run _ _ _ Hs).
    etrans; [apply (Hmark (dict_keys (d_data d)))|].
    apply (for_each_rel (rtc prim_step) (all_marked self (d_data d)));
      [apply all_marked_prims| |by apply all_marked_mark].
    intros key h1 Hkey Hm.
    destruct (proj1 (dict_lookup_keys _ _) Hkey) as [v Hv].
    erewrite final_bind_run by (by rewrite subscript_run, Hv).
    pose proof (Hround key v h1 Hm) as Hw.
    unfold final in *. unfold bind.
    by destruct (TD._wrap self key v h1) as [[w|e] h2].
  - unfold TD.raw. rewrite (final_bind_run _ _ _ _ _ Hl). reflexivity.
  - unfold TD.mark_accessed, final. rewrite (accessed_update_run _ _ _ _ Hs).
    apply Hmark.
  - unfold TD.mark_all_accessed. rewrite (final_bind_run _ _ _ _ _ Hl).
    unfold final. rewrite (accessed_update_run _ _ _ _ Hs). apply Hmark.
  - unfold TD.accessed_keys. rewrite (final_bind_run _ _ _ _ _ Hl). reflexivity.
  - unfold TD.__eq__. rewrite (final_bind_run _ _ _ _ _ Hl). unfold final.
    destruct other as [[]|o]; simpl; try reflexivity.
    destruct (h !! o) as [[]|]; reflexivity.
Qed.

Lemma exec_tl_prims (h : heap) self c : rtc prim_step h (exec_tl self c h).
Proof.
  destruct (h !! self) as [[d|l]|] eqn:Hs;
    [rewrite exec_tl_not_list by (intros ?; congruence); done| |
     rewrite exec_tl_not_list by (intros ?; congruence); done].
  pose proof (load_list_run _ _ _ Hs) as Hl.
  destruct c; simpl.
  - unfold final. rewrite (tl_getitem_run _ _ _ _ Hs).
    destruct (list_index (l_data l) index) as [v|] eqn:Hv; [|done].
    by eapply tl_wrap_prims.
  - unfold TL.__len__. rewrite (final_bind_run _ _ _ _ _ Hl). reflexivity.
  - unfold TL.__bool__. rewrite (final_bind_run _ _ _ _ _ Hl). reflexivity.
  - unfold final. rewrite (tl_iter_run _ _ _ Hs).
    apply (for_each_rel (rtc prim_step)
             (λ h1, ∃ l1, h1 !! self = Some (OList l1) ∧ l_data l1 = l_data l));
      [| |by eauto].
    + intros h1 h2 (l1 & Hs1 & Hl1) Hle%prim_steps_le.
      destruct (heap_le_list _ _ _ _ Hle Hs1) as (l2 & Hs2 & Hl2 & _).
      exists l2. split; [done | congruence].
    + intros i h1 (n & -> & Hn%elem_of_seq)%list_elem_of_fmap (l1 & Hs1 & Hl1).
      destruct (lookup_lt_is_Some_2 (l_data l) n) as [v Hv]; [lia|].
      erewrite final_bind_run
        by (unfold TL.subscript; by rewrite list_index_nat, Hv).
      by eapply tl_wrap_prims.
  - unfold TL.raw. rewrite (final_bind_run _ _ _ _ _ Hl). reflexivity.
  - unfold TL.__eq__. rewrite (final_bind_run _ _ _ _ _ Hl). unfold final.
    destruct other as [[]|o]; simpl; try reflexivity.
    destruct (h !! o) as [[]|]; reflexivity.
Qed.

Lemma exec_prims (h : heap) c : rtc prim_step h (exec c h).
Proof.
  destruct c as [data path|data path|self c|self c]; simpl.
  - apply rtc_once. constructor.
  - apply rtc_once. constructor.
  - apply exec_td_prims.
  - apply exec_tl_prims.
Qed.

Lemma forest_insert (h : heap) r0 o0 :
  forest h → keys_once o0 → NoDup (child_refs o0) →
  (∀ c, c ∈ child_refs o0 → is_Some (<[r0 := o0]> h !! c) ∧ c ≠ r0) →
  (∀ r o c, r ≠ r0 → h !! r = Some o → c ∈ child_refs o → c ∉ child_refs o0) →
  forest (<[r0 := o0]> h).
Proof.
  intros [HA HB] Hkeys Hnodup Hin Hdisj. split.
  - intros r o. destruct (decide (r = r0)) as [->|Hne].
    + rewrite lookup_insert_eq. intros [= <-]. done.
    + rewrite lookup_insert_ne by done. intros Hr.
      destruct (HA _ _ Hr) as (? & ? & Hc). repeat split; try done.
      * apply lookup_insert_is_Some'. right. by apply Hc.
      * by apply Hc.
  - intros r1 r2 o1 o2 c.
    destruct (decide (r1 = r0)) as [->|Hne1], (decide (r2 = r0)) as [->|Hne2];
      rewrite ?lookup_insert_eq, ?lookup_insert_ne by done; try done.
    + intros [= <-] Hr2 Hc1 Hc2. by destruct (Hdisj _ _ _ Hne2 Hr2 Hc2).
    + intros Hr1 [= <-] Hc1 Hc2. by destruct (Hdisj _ _ _ Hne1 Hr1 Hc1).
    + apply HB.
Qed.

Lemma fresh_child_no_children v p o :
  fresh_child v p = Some o → child_refs o = [] ∧ keys_once o.
Proof. destruct v; simpl; intros [= <-]; simpl; split; (done || constructor). Qed.

Lemma forest_new (h : heap) o :
  forest h → child_refs o = [] → keys_once o → forest (<[fresh (dom h) := o]> h).
Proof.
  intros Hf Hnil Hk. apply forest_insert; [done..| | |]; rewrite Hnil.
  - constructor.
  - by intros c ?%elem_of_nil.
  - intros r o' c _ _ _. apply not_elem_of_nil.
Qed.

Lemma forest_same_children (h : heap) self o o' :
  forest h → h !! self = Some o → child_refs o' = child_refs o →
  (keys_once o → keys_once o') → forest (<[self := o']> h).
Proof.
  intros Hf Hs Hrefs Hkeys. pose proof Hf as [HA HB].
  destruct (HA _ _ Hs) as (Hk & Hn & Hc).
  apply forest_insert; [done | auto | by rewrite Hrefs | |]; rewrite Hrefs.
  - intros c Hin. destruct (Hc _ Hin). split; [|done].
    apply lookup_insert_is_Some'. by right.
  - intros r o1 c Hne Hr Hin Hin'. apply Hne. by eapply HB.
Qed.

Lemma forest_adopt_gen (h : heap) self o o' onew (c : ref) :
  forest h → h !! self = Some o → h !! c = None →
  child_refs onew = [] → keys_once onew →
  child_refs o' = child_refs o ++ [c] → keys_once o' →
  forest (<[self := o']> (<[c := onew]> h)).
Proof.
  intros Hf Hs Hc Hnil Hknew Hrefs Hkeys. pose proof Hf as [HA HB].
  destruct (HA _ _ Hs) as (_ & Hn & Hin).
  assert (self ≠ c) as Hne by (intros ->; congruence).
  assert (forest (<[c := onew]> h)) as Hf1.
  { apply forest_insert; [done..| | |]; rewrite Hnil.
    - constructor.
    - by intros c' ?%elem_of_nil.
    - intros r o1 c' _ _ _. apply not_elem_of_nil. }
  assert (c ∉ child_refs o) as Hfresh.
  { intros Hcin. destruct (Hin _ Hcin) as [[? ?] _]. congruence. }
  apply forest_insert; [done | done | | |]; rewrite Hrefs.
  - apply NoDup_app. split; [done|]. split; [|apply NoDup_singleton].
    intros c' Hc' ->%list_elem_of_singleton. done.
  - intros c' [Hc'|Hc'%list_elem_of_singleton]%elem_of_app; [|subst c'].
    + destruct (Hin _ Hc') as [? ?]. split; [|done].
      apply lookup_insert_is_Some'. right. apply lookup_insert_is_Some'. by right.
    + split; [|done]. rewrite lookup_insert_ne by done. rewrite lookup_insert_eq. by eexists.
  - intros r o1 c' Hr.
    destruct (decide (r = c)) as [->|Hrc].
    + rewrite lookup_insert_eq. intros [= <-]. rewrite Hnil. by intros ?%elem_of_nil.
    + rewrite lookup_insert_ne by done. intros Hr1 Hc1.
      intros [Hc2|Hc2%list_elem_of_singleton]%elem_of_app; [|subst c'].
      * apply Hr. by eapply HB.
      * destruct (HA _ _ Hr1) as (_ & _ & Hin1).
        destruct (Hin1 _ Hc1) as [[? ?] _]. congruence.
Qed.

Lemma forest_prim (h h' : heap) : forest h → prim_step h h' → forest h'.
Proof.
  intros Hf Hstep.
  destruct Hstep as [h0 self d keys Hs|h0 data path|h0 data path
                     |h0 self d key v p o Hs Hnone Ho|h0 self l index v p o Hs Hnone Ho].
  - by apply (forest_same_children h0 self (ODict d)).
  - apply forest_new; [done..|]. constructor.
  - apply forest_new; [done..|]. constructor.
  - destruct (fresh_child_no_children _ _ _ Ho) as [Hnil Hk].
    destruct (proj1 Hf _ _ Hs) as (Hkeys & _).
    apply (forest_adopt_gen h0 self (ODict d)); [done|done|apply fresh_lookup|done..| |].
    + simpl. by rewrite dict_set_fresh, fmap_app.
    + simpl in *. rewrite dict_set_fresh, fmap_app by done.
      apply NoDup_app. split; [done|]. split; [|apply NoDup_singleton].
      intros k Hk1 ->%list_elem_of_singleton.
      by apply dict_lookup_None_keys in Hnone.
  - destruct (fresh_child_no_children _ _ _ Ho) as [Hnil Hk].
    destruct (proj1 Hf _ _ Hs) as (Hkeys & _).
    apply (forest_adopt_gen h0 self (OList l)); [done|done|apply fresh_lookup|done..| |].
    + simpl. by rewrite dict_set_fresh, fmap_app.
    + simpl in *. rewrite dict_set_fresh, fmap_app by done.
      apply NoDup_app. split; [done|]. split; [|apply NoDup_singleton].
      intros k Hk1 ->%list_elem_of_singleton.
      by apply dict_lookup_None_keys in Hnone.
Qed.

Lemma forest_prims (h h' : heap) : forest h → rtc prim_step h h' → forest h'.
Proof. intros Hf. induction 1; [done|]. eauto using forest_prim. Qed.

Lemma forest_empty : forest ∅.
Proof.
  split.
  - by intros r o ?%lookup_empty_Some.
  - by intros r1 r2 o1 o2 c ?%lookup_empty_Some.
Qed.

Lemma reachable_forest (h : heap) : reachable h → forest h.
Proof.
  induction 1 as [|h c _ IH]; [apply forest_empty|].
  eapply forest_prims; [done | apply exec_prims].
Qed.

(** X18.  On a store a client can reach the tracked nodes form a forest: no
    cache has two entries for a key or index, no cache holds a child twice,
    every cached child is an object of the store and is not its own parent,
    and no node is the cached child of two nodes.  Every call keeps this. *)
Theorem X18_forest (h : heap) :
  reachable h → forest h ∧ ∀ c, forest (exec c h).
Proof.
  intros Hf%reachable_forest.
  split; [done|]. intros c. eapply forest_prims; [done | apply exec_prims].
Qed.

Lemma X18_forest_witness :
  reachable section_wrapped ∧ forest section_wrapped ∧ ∀ c, forest (exec c section_wrapped).
Proof.
  split.
  - exact (reachable_exec _ (OnDict 0%nat (DGetItem "section"))
             (reachable_exec _ (NewDict section_tree "") reachable_empty)).
  - apply (X18_forest section_wrapped).
    exact (reachable_exec _ (OnDict 0%nat (DGetItem "section"))
             (reachable_exec _ (NewDict section_tree "") reachable_empty)).
Defined.

(** ** What a report means *)

Lemma dict_lookup_nodup {K V} `{EqDecision K} (k : K) (v : V) (d : list (K * V)) :
  NoDup d.*1 → (k, v) ∈ d → dict_lookup k d = Some v.
Proof.
  induction d as [|[k' v'] d IH]; simpl; [by intros _ ?%elem_of_nil|].
  intros [Hk' Hnd]%NoDup_cons [[= -> ->]|Hin]%elem_of_cons.
  - by rewrite decide_True.
  - rewrite decide_False; [by apply IH|]. intros ->. apply Hk'.
    apply list_elem_of_fmap. by exists (k', v).
Qed.

Lemma report_sound fuel (h : heap) r res p :
  unaccessed fuel h r = Some res → p ∈ res →
  ∃ n d key, below_node h r n ∧ h !! n = Some (ODict d) ∧
             key ∈ dict_keys (d_data d) ∧ (key ∉ d_accessed d) ∧
             p = dot_path (d_path d) key.
Proof.
  revert r res. induction fuel as [|fuel IH]; intros r res Hu Hp; [done|].
  destruct (h !! r) as [[d|l]|] eqn:Hr; [| |by simpl in Hu; rewrite Hr in Hu].
  - rewrite (unaccessed_dict _ _ _ _ Hr) in Hu.
    destruct (mapM (contribution fuel h d) _) as [parts|] eqn:Hparts; [|done].
    injection Hu as <-. apply sorted_elem_of, elem_of_concat in Hp as (part & Hpart & Hp).
    apply mapM_Some in Hparts. apply list_elem_of_lookup in Hpart as [i Hi].
    destruct (Forall2_lookup_r _ _ _ _ _ Hparts Hi) as (key & Hkey & Hcon).
    apply list_elem_of_lookup_2 in Hkey. unfold contribution in Hcon.
    case_decide as Hk.
    + injection Hcon as <-. apply list_elem_of_singleton in Hp as ->.
      exists r, d, key. split; [constructor|]. done.
    + destruct (dict_lookup key (d_children d)) as [c|] eqn:Hc.
      2: { injection Hcon as <-. by apply elem_of_nil in Hp. }
      destruct (IH _ _ Hcon Hp) as (n & d' & key' & Hb & Hrest).
      exists n, d', key'. split; [|done].
      eapply below_node_step; [done| |done]. simpl.
      apply list_elem_of_fmap. exists (key, c). split; [done|].
      by apply dict_lookup_elem.
  - rewrite (unaccessed_list _ _ _ _ Hr) in Hu.
    destruct (mapM (unaccessed fuel h) _) as [parts|] eqn:Hparts; [|done].
    injection Hu as <-. apply sorted_elem_of, elem_of_concat in Hp as (part & Hpart & Hp).
    apply mapM_Some in Hparts. apply list_elem_of_lookup in Hpart as [i Hi].
    destruct (Forall2_lookup_r _ _ _ _ _ Hparts Hi) as (c & Hc & Hcon).
    apply list_elem_of_lookup_2 in Hc.
    destruct (IH _ _ Hcon Hp) as (n & d' & key' & Hb & Hrest).
    exists n, d', key'. split; [|done]. by eapply below_node_step.
Qed.

(** In a store a client can reach, the report of a cached child is part of
    the report of its parent. *)
Lemma report_includes_child (h : heap) r o c res res_c p :
  wf_heap h → cache_in_accessed h → forest h →
  h !! r = Some o → c ∈ child_refs o →
  reports h r res → reports h c res_c → p ∈ res_c → p ∈ res.
Proof.
  intros Hwf Hca Hf Hr Hc [[|fuel] Hu] [fuel_c Hu_c] Hp; [done|].
  destruct (proj1 Hf _ _ Hr) as (Hkeys & _).
  destruct o as [d|l]; simpl in Hc, Hkeys.
  - apply list_elem_of_fmap in Hc as ([key c'] & -> & Hkc). simpl in Hu_c.
    destruct (Hwf _ _ Hr _ _ Hkc) as (v & o' & Hv & _ & _).
    assert (dict_lookup key (d_children d) = Some c') as Hl by by apply dict_lookup_nodup.
    assert (key ∈ d_accessed d) as Hk.
    { eapply Hca; [done|]. apply dict_lookup_keys. by eexists. }
    rewrite (unaccessed_dict _ _ _ _ Hr) in Hu.
    destruct (mapM (contribution fuel h d) _) as [parts|] eqn:Hparts; [|done].
    injection Hu as <-. apply sorted_elem_of, elem_of_concat.
    apply mapM_Some in Hparts.
    assert (key ∈ dict_keys (d_data d)) as Hkey
      by (apply dict_lookup_keys; by eexists).
    apply list_elem_of_lookup in Hkey as [i Hi].
    destruct (Forall2_lookup_l _ _ _ _ _ Hparts Hi) as (part & Hpart & Hcon).
    exists part. split; [by eapply list_elem_of_lookup_2|].
    unfold contribution in Hcon. rewrite decide_False in Hcon by (intros ?; done).
    rewrite Hl in Hcon.
    by rewrite (unaccessed_deterministic _ _ _ _ _ _ Hcon Hu_c).
  - rewrite (unaccessed_list _ _ _ _ Hr) in Hu.
    destruct (mapM (unaccessed fuel h) _) as [parts|] eqn:Hparts; [|done].
    injection Hu as <-. apply sorted_elem_of, elem_of_concat.
    apply mapM_Some in Hparts. apply list_elem_of_lookup in Hc as [i Hi].
    destruct (Forall2_lookup_l _ _ _ _ _ Hparts Hi) as (part & Hpart & Hcon).
    exists part. split; [by eapply list_elem_of_lookup_2|].
    by rewrite (unaccessed_deterministic _ _ _ _ _ _ Hcon Hu_c).
Qed.

Lemma report_complete (h : heap) r n d key res :
  wf_heap h → cache_in_accessed h → forest h →
  below_node h r n → h !! n = Some (ODict d) →
  key ∈ dict_keys (d_data d) → key ∉ d_accessed d →
  reports h r res → dot_path (d_path d) key ∈ res.
Proof.
  intros Hwf Hca Hf Hb Hn Hkey Hk. revert res.
  induction Hb as [r|r o c n Hr Hc Hb IH]; intros res Hrep.
  - change (TD._child_path d key ∈ res). by eapply unaccessed_key_reported.
  - destruct (proj1 Hf _ _ Hr) as (_ & _ & Hin).
    destruct (Hin _ Hc) as [[oc Hoc] _].
    destruct (reports_total h c oc Hwf Hoc) as [res_c Hrep_c].
    apply (report_includes_child h r o c res res_c); try done. by apply IH.
Qed.

(** X19.  What a report means.  On a store a client can reach,
    [unaccessed()] of a node lists exactly the keys that were never read of
    the map nodes at or below it: a path is in the report if and only if it
    is the path [path.key] of a key of the raw mapping of such a node that is
    not in the accessed set of that node. *)
Theorem X19_report_meaning (h : heap) root res :
  reachable h → reports h root res →
  ∀ p, p ∈ res ↔
       ∃ n d key, below_node h root n ∧ h !! n = Some (ODict d) ∧
                  key ∈ dict_keys (d_data d) ∧ (key ∉ d_accessed d) ∧
                  p = dot_path (d_path d) key.
Proof.
  intros Hr Hrep p. split.
  - destruct Hrep as [fuel Hu]. by eapply report_sound.
  - intros (n & d & key & Hb & Hn & Hkey & Hk & ->).
    eapply report_complete; try done.
    + by apply reachable_wf.
    + by apply reachable_cache.
    + by apply reachable_forest.
Qed.

Lemma X19_report_meaning_witness :
  reachable section_wrapped ∧
  reports section_wrapped 0%nat ["section.a"; "section.b"] ∧
  ∀ p, p ∈ ["section.a"; "section.b"] ↔
       ∃ n d key, below_node section_wrapped 0%nat n ∧
                  section_wrapped !! n = Some (ODict d) ∧
                  key ∈ dict_keys (d_data d) ∧ (key ∉ d_accessed d) ∧
                  p = dot_path (d_path d) key.
Proof.
  assert (reports section_wrapped 0%nat ["section.a"; "section.b"]) as Hrep.
  { exists 2%nat. vm_compute; reflexivity. }
  split; [|split; [exact Hrep|]].
  - exact (reachable_exec _ (OnDict 0%nat (DGetItem "section"))
             (reachable_exec _ (NewDict section_tree "") reachable_empty)).
  - apply (X19_report_meaning section_wrapped 0%nat ["section.a"; "section.b"]).
    + exact (reachable_exec _ (OnDict 0%nat (DGetItem "section"))
               (reachable_exec _ (NewDict section_tree "") reachable_empty)).
    + exact Hrep.
Defined.

(** X20.  Reports are qualified by the path of the node.  On a store a
    client can reach, every path reported by a node whose own path is not
    empty, and every path reported by a sequence node, is the node's path
    followed by ["."] or ["["] and more. *)
Theorem X20_paths_below_node (h : heap) c o res p :
  reachable h → h !! c = Some o →
  path_of o ≠ "" ∨ (∃ l, o = OList l) →
  reports h c res → p ∈ res → below (path_of o) p.
Proof.
  intros Hwf%reachable_wf Hc Hpath [fuel Hu] Hp. by eapply report_below.
Qed.

Lemma X20_paths_below_node_witness :
  reachable section_wrapped ∧
  below "section" "section.a".
Proof.
  split.
  - exact (reachable_exec _ (OnDict 0%nat (DGetItem "section"))
             (reachable_exec _ (NewDict section_tree "") reachable_empty)).
  - apply (X20_paths_below_node section_wrapped 1%nat
             (ODict (mkTrackedDict [("a", VScalar (SInt 1)); ("b", VScalar (SInt 2))]
                       "section" ∅ []))
             ["section.a"; "section.b"] "section.a").
    + exact (reachable_exec _ (OnDict 0%nat (DGetItem "section"))
               (reachable_exec _ (NewDict section_tree "") reachable_empty)).
    + vm_compute; reflexivity.
    + left. discriminate.
    + exists 1%nat. vm_compute; reflexivity.
    + left.
Defined.

Lemma X1_construction_witness :
  ∃ r h',
    TD.__init__ small_tree "" ∅ = (Return r, h') ∧ (∅ : heap) !! r = None ∧
    (∀ r' o, (∅ : heap) !! r' = Some o → h' !! r' = Some o) ∧
    h' !! r = Some (ODict (mkTrackedDict small_tree "" ∅ [])) ∧
    reports h' r (sorted (dot_path "" <$> dict_keys small_tree)).
Proof. exact (proj1 (X1_construction ∅) small_tree ""). Defined.

Lemma X4_raw_is_kept_witness :
  TD.raw (fresh (dom (∅ : heap)))
         (exec_all [OnDict 0%nat (DGetItem "a")] (final (TD.__init__ small_tree "") ∅))
    = (Return small_tree,
       exec_all [OnDict 0%nat (DGetItem "a")] (final (TD.__init__ small_tree "") ∅)).
Proof.
  exact (proj1 (proj2 (X4_raw_is_kept ∅ [OnDict 0%nat (DGetItem "a")])) small_tree "").
Defined.

Lemma X15_container_protocol_witness :
  small_store !! 0%nat = Some (ODict small_root) ∧
  ∃ ks, TD.__iter__ 0%nat small_store = (Return ks, small_store) ∧
        TD.keys 0%nat small_store = (Return ks, small_store) ∧
        TD.__len__ 0%nat small_store = (Return (length ks), small_store) ∧
        TD.__bool__ 0%nat small_store
          = (Return (negb (Nat.eqb (length ks) 0)), small_store) ∧
        TD.raw 0%nat small_store = (Return (d_data small_root), small_store) ∧
        ks = (d_data small_root).*1 ∧
        ∀ key, TD.__contains__ 0%nat key small_store
                 = (Return (bool_decide (key ∈ ks)), small_store).
Proof.
  split; [vm_compute; reflexivity|].
  apply (proj1 (X15_container_protocol small_store 0%nat) small_root).
  vm_compute; reflexivity.
Defined.


